(** * The xcquinox patch set for pyscfad: [get_veff] and the grid kernel

    A shallow embedding of the two patched regions of the repository's
    patch file:

    - [rks.py], function [get_veff]: after the classical evaluation
      [ni.nr_rks], a NaN energy triggers a network evaluation through
      [jax.value_and_grad] followed by the "restore symmetry" transform;
    - [numint.py], the LDA / GGA / MGGA branches of the block loop: the
      [try] / bare [except] around the two call forms of [ni.eval_xc], the
      extraction of the potential components and the accumulation into
      [nelec] and [excsum].

    and of the two cells of [notebooks/Untitled.ipynb] that go through the
    pretrained models and copy the newest checkpoint of each to [xc].

    Arithmetic is kept behind the interface [Scalar].  Three carriers are
    provided: IEEE binary64 (Rocq's [spec_float], the arithmetic the
    program really runs on), the integers (exact arithmetic) and dual
    numbers over any carrier (forward-mode differentiation, which is what
    [jax.value_and_grad] and [stop_grad] are about). *)

From Stdlib Require Import ZArith Bool Lia Ascii String.
From Stdlib Require Import Floats.SpecFloat.
From stdpp Require Import base list.

Local Open Scope nat_scope.

(* ================================================================== *)
(** * Scalars *)
(* ================================================================== *)

(** The operations the patched code performs on array entries: [+] and
    [*] (inside [sum], [dot], [matmul], [einsum] and the elementwise
    product), the predicates [np.isnan] and [np.isfinite], the comparison
    [==], and [stop_grad].  [valid] is the representation invariant of the
    carrier. *)
Class Scalar (A : Type) := {
  zero : A;
  one : A;
  add : A -> A -> A;
  mul : A -> A -> A;
  isnan : A -> bool;
  isfinite : A -> bool;
  eqb : A -> A -> bool;
  stop_grad : A -> A;
  valid : A -> bool
}.

(** [x == y] holds. *)
Definition num_eq {A} `{Scalar A} (x y : A) : Prop := eqb x y = true.

(** A finite, well-represented value. *)
Definition regular {A} `{Scalar A} (x : A) : Prop :=
  valid x = true /\ isfinite x = true.

(** What multiplying by 0 and 1 and adding 0 do to finite values, up to
    [==].  IEEE arithmetic obeys these laws (the sign of a zero is the
    only thing that may change); it does not obey [ExactArith] below. *)
Class IdentityLaws (A : Type) `{Scalar A} : Prop := {
  regular_zero : regular zero;
  num_eq_refl : forall x, regular x -> num_eq x x;
  num_eq_sym : forall x y, num_eq x y -> num_eq y x;
  num_eq_trans : forall x y z, num_eq x y -> num_eq y z -> num_eq x z;
  num_eq_regular : forall x y, num_eq x y -> regular y -> regular x;
  mul_zero_l : forall x, regular x -> num_eq (mul zero x) zero;
  mul_zero_r : forall x, regular x -> num_eq (mul x zero) zero;
  mul_one_l : forall x, regular x -> num_eq (mul one x) x;
  mul_one_r : forall x, regular x -> num_eq (mul x one) x;
  add_zero_l : forall x y v,
    num_eq x zero -> num_eq y v -> regular v -> num_eq (add x y) v;
  add_zero_r : forall x y v,
    num_eq x v -> regular v -> num_eq y zero -> num_eq (add x y) v
}.

(** A finite number is not a NaN. *)
Class Classification (A : Type) `{Scalar A} : Prop := {
  finite_not_nan : forall x, isfinite x = true -> isnan x = false
}.

(** Exact arithmetic: addition is associative with neutral element
    [zero]. *)
Class ExactArith (A : Type) `{Scalar A} : Prop := {
  add_assoc : forall x y z, add x (add y z) = add (add x y) z;
  add_0_l : forall x, add zero x = x;
  add_0_r : forall x, add x zero = x
}.

(** Outside differentiation [stop_grad] gives back its argument. *)
Definition stop_grad_is_identity (A : Type) `{Scalar A} : Prop :=
  forall x : A, stop_grad x = x.

(** ** IEEE binary64 *)

Definition b64_add : spec_float -> spec_float -> spec_float := SFadd 53 1024.
Definition b64_mul : spec_float -> spec_float -> spec_float := SFmul 53 1024.
Definition b64_one : spec_float := Eval vm_compute in SFone 53 1024.
Definition b64_nan : spec_float := S754_nan.
Definition b64_inf : spec_float := S754_infinity false.

Definition b64_isnan (x : spec_float) : bool :=
  match x with S754_nan => true | _ => false end.

Definition b64_isfinite (x : spec_float) : bool :=
  match x with S754_zero _ | S754_finite _ _ _ => true | _ => false end.

#[export] Instance binary64 : Scalar spec_float := {|
  zero := S754_zero false;
  one := b64_one;
  add := b64_add;
  mul := b64_mul;
  isnan := b64_isnan;
  isfinite := b64_isfinite;
  eqb := SFeqb;
  stop_grad := fun x => x;
  valid := valid_binary 53 1024
|}.

(** ** Exact integers *)

#[export] Instance exactZ : Scalar Z := {|
  zero := 0%Z;
  one := 1%Z;
  add := Z.add;
  mul := Z.mul;
  isnan := fun _ => false;
  isfinite := fun _ => true;
  eqb := Z.eqb;
  stop_grad := fun x => x;
  valid := fun _ => true
|}.

(** ** Dual numbers

    A value together with its derivative along one input direction.
    [stop_grad] keeps the value and cuts the derivative. *)

Definition dual (A : Type) : Type := (A * A)%type.
Definition val {A} (x : dual A) : A := fst x.
Definition tan {A} (x : dual A) : A := snd x.

#[export] Instance dual_scalar {A} `{Scalar A} : Scalar (dual A) := {|
  zero := (zero, zero);
  one := (one, zero);
  add := fun x y => (add (val x) (val y), add (tan x) (tan y));
  mul := fun x y =>
    (mul (val x) (val y), add (mul (val x) (tan y)) (mul (tan x) (val y)));
  isnan := fun x => isnan (val x);
  isfinite := fun x => isfinite (val x);
  eqb := fun x y => eqb (val x) (val y);
  stop_grad := fun x => (val x, zero);
  valid := fun x => valid (val x) && valid (tan x)
|}.

(** A constant: a value with no derivative. *)
Definition const {A} `{Scalar A} (a : A) : dual A := (a, zero).

(* ================================================================== *)
(** * Arrays *)
(* ================================================================== *)

(** One-dimensional arrays are lists, matrices are lists of rows.  The
    patch only ever meets a density matrix of two dimensions or a stack of
    such matrices (three dimensions), hence [tensor]. *)

Inductive tensor (A : Type) : Type :=
  | T2 (m : list (list A))
  | T3 (ms : list (list (list A))).
Arguments T2 {A} m.
Arguments T3 {A} ms.

Section Arrays.
Context {A : Type} `{Scalar A}.

Definition nrows (m : list (list A)) : nat := length m.
Definition ncols (m : list (list A)) : nat := length (hd [] m).

(** [x.ndim] *)
Definition ndim (t : tensor A) : nat :=
  match t with T2 _ => 2 | T3 _ => 3 end.

(** [x.shape[-1]] *)
Definition shape_last (t : tensor A) : nat :=
  match t with
  | T2 m => ncols m
  | T3 ms => ncols (hd [] ms)
  end.

(** [n] rows of [k] entries each. *)
Definition is_matrix (n k : nat) (m : list (list A)) : Prop :=
  length m = n /\ Forall (fun row => length row = k) m.

(** [v.sum()], added up from the left, starting at zero.  The array
    library does not fix the order in which it adds (it may add in
    pairs), so in floating point its result can differ from this one in
    the last place once three or more values are added.  With one or two
    values the result is the same up to [==]; so it is in exact
    arithmetic, and under the laws of [IdentityLaws] for the sums of the
    symmetry step. *)
Definition vsum (v : list A) : A := fold_left add v zero.

(** The sum of products behind [dot] and [matmul]. *)
Definition dot_raw (u v : list A) : A := vsum (zip_with mul u v).

(** [np.eye(n)] *)
Definition unit_row (n i : nat) : list A :=
  map (fun j => if Nat.eqb i j then one else zero) (seq 0 n).
Definition eye (n : nat) : list (list A) :=
  map (unit_row n) (seq 0 n).

(** [m.T] *)
Definition column (m : list (list A)) (k : nat) : list A :=
  map (fun row => nth k row zero) m.
Definition transpose (m : list (list A)) : list (list A) :=
  map (column m) (seq 0 (ncols m)).

(** Entry by entry [==]. *)
Definition vec_eqb (u v : list A) : bool :=
  Nat.eqb (length u) (length v) && forallb (fun p => eqb (fst p) (snd p)) (zip u v).
Definition matrix_eqb (m1 m2 : list (list A)) : bool :=
  Nat.eqb (length m1) (length m2)
  && forallb (fun p => vec_eqb (fst p) (snd p)) (zip m1 m2).

(** [(v == v.T).all()], slice by slice for a stack (the transpose that
    matters for a potential is the one of its last two axes). *)
Definition is_symmetric (t : tensor A) : bool :=
  match t with
  | T2 m => matrix_eqb m (transpose m)
  | T3 ms => forallb (fun m => matrix_eqb m (transpose m)) ms
  end.

(** Every entry is a finite, well-represented value. *)
Definition all_regular (m : list (list A)) : Prop :=
  Forall (Forall regular) m.
Definition tensor_regular (t : tensor A) : Prop :=
  match t with
  | T2 m => all_regular m
  | T3 ms => Forall all_regular ms
  end.

(** Same shape, and [==] entry by entry. *)
Definition close (m1 m2 : list (list A)) : Prop :=
  Forall2 (Forall2 num_eq) m1 m2.
Definition tensor_close (t1 t2 : tensor A) : Prop :=
  match t1, t2 with
  | T2 m1, T2 m2 => close m1 m2
  | T3 ms1, T3 ms2 => Forall2 close ms1 ms2
  | _, _ => False
  end.

(** A square matrix, or a stack of square matrices, of size
    [shape[-1]]. *)
Definition square (t : tensor A) : Prop :=
  match t with
  | T2 m => is_matrix (shape_last t) (shape_last t) m
  | T3 ms => Forall (is_matrix (shape_last t) (shape_last t)) ms
  end.
End Arrays.

(* ================================================================== *)
(** * Exceptions and the state-and-error monad *)
(* ================================================================== *)

(** Python exceptions.  A bare [except:] catches every one of them, the
    ones outside [Exception] ([KeyboardInterrupt], [SystemExit])
    included. *)
Inductive exn : Type :=
  | TypeError
  | ValueError
  | IndexError
  | NotImplementedError
  | KeyboardInterrupt
  | SystemExit
  | OtherError (msg : string).

Inductive result (X : Type) : Type :=
  | Ok (x : X)
  | Raise (e : exn).
Arguments Ok {X} x.
Arguments Raise {X} e.

(** A computation over a mutable store [S]: the store it leaves is kept
    also when it raises, as in Python. *)
Definition M (S X : Type) : Type := S -> result X * S.

Definition ret {S X} (x : X) : M S X := fun s => (Ok x, s).
Definition raise {S X} (e : exn) : M S X := fun s => (Raise e, s).
Definition bind {S X Y} (m : M S X) (k : X -> M S Y) : M S Y :=
  fun s => match m s with
           | (Ok x, s') => k x s'
           | (Raise e, s') => (Raise e, s')
           end.
Definition gets {S X} (f : S -> X) : M S X := fun s => (Ok (f s), s).
Definition modify {S} (f : S -> S) : M S unit := fun s => (Ok tt, f s).
Definition lift_result {S X} (r : result X) : M S X := fun s => (r, s).

(** [try: body except: handler] with a bare [except]. *)
Definition try_except {S X} (body handler : M S X) : M S X :=
  fun s => match body s with
           | (Ok x, s') => (Ok x, s')
           | (Raise _, s') => handler s'
           end.

Notation "'do' x <- m ; k" := (bind m (fun x => k))
  (at level 10, x name, m at level 100, k at level 200).
Notation "'do_' m ; k" := (bind m (fun _ => k))
  (at level 10, m at level 100, k at level 200).

(** [for x in xs: body x] *)
Fixpoint for_each {S X} (xs : list X) (body : X -> M S unit) : M S unit :=
  match xs with
  | [] => ret tt
  | x :: xs' => do_ body x; for_each xs' body
  end.

Section CheckedArrays.
Context {A : Type} `{Scalar A}.

(** [np.matmul(a, b)] of two matrices: the inner dimensions must
    agree.  [np] is [jax.numpy] ([from jax import numpy as np]), which
    reports a shape mismatch as a [TypeError]. *)
Definition matmul (a b : list (list A)) : result (list (list A)) :=
  if Nat.eqb (ncols a) (nrows b)
  then Ok (map (fun row => map (dot_raw row) (transpose b)) a)
  else Raise TypeError.

(** [np.matmul(l, np.matmul(v, l.T))] *)
Definition two_sided (l v : list (list A)) : result (list (list A)) :=
  match matmul v (transpose l) with
  | Ok inner => matmul l inner
  | Raise e => Raise e
  end.

(** One slice of [np.einsum('ij,xjk,kl->xil', l, v, r)]:
    [out[i][l] = sum_j sum_k l[i][j] * v[j][k] * r[k][l]]. *)
Definition contract (l v r : list (list A)) : list (list A) :=
  map (fun li =>
         map (fun c =>
                vsum (zip_with
                        (fun a vj => vsum (zip_with (fun b rk => mul (mul a b) (nth c rk zero)) vj r))
                        li v))
             (seq 0 (ncols r)))
      l.

(** [np.einsum('ij,xjk,kl->xil', l, v, r)]: an index that two operands
    share must have the same size in both, or the search for the
    contraction path raises [ValueError]. *)
Definition einsum_ij_xjk_kl (l : list (list A)) (v : list (list (list A)))
    (r : list (list A)) : result (list (list (list A))) :=
  if forallb (fun vx => Nat.eqb (ncols l) (nrows vx) && Nat.eqb (ncols vx) (nrows r)) v
  then Ok (map (fun vx => contract l vx r) v)
  else Raise ValueError.

(** [np.dot(u, v)] of two vectors: the lengths must agree; on [jax]
    arrays a mismatch is a [TypeError]. *)
Definition dot (u v : list A) : result A :=
  if Nat.eqb (length u) (length v) then Ok (dot_raw u v) else Raise TypeError.

(** [u * v] of two vectors with broadcasting: equal lengths, or one of
    them of length one; on [jax] arrays (which [make_rho] returns) shapes
    that do not broadcast are a [TypeError]. *)
Definition vmul (u v : list A) : result (list A) :=
  if Nat.eqb (length u) (length v) then Ok (zip_with mul u v)
  else match u, v with
       | [a], _ => Ok (map (mul a) v)
       | _, [b] => Ok (map (fun x => mul x b) u)
       | _, _ => Raise TypeError
       end.
End CheckedArrays.


(* ================================================================== *)
(** * The two-sided transform in the spec's words *)
(* ================================================================== *)

(** "For a single matrix, [vxc_sym = L . vxc_raw . L^T]; for a stacked
    per-component/per-spin tensor, apply the same transform independently
    per leading index", with [L] "defaulting to identity".  Matrices are
    read here as in mathematics, by their entries, and a product is a sum
    over an index; none of [matmul], [transpose], [eye] and [contract]
    above is used. *)
Module Spec.
Section Transform.
Context {A : Type} `{Scalar A}.

(** A matrix by its entries. *)
Definition matrix : Type := nat -> nat -> A.

(** The identity: ones on the diagonal, zeros elsewhere. *)
Definition identity : matrix :=
  fun i j => if Nat.eqb i j then one else zero.

(** [M^T] *)
Definition transposed (M : matrix) : matrix := fun i j => M j i.

(** [f 0 + f 1 + ... + f (n - 1)] *)
Definition sum_over (n : nat) (f : nat -> A) : A :=
  fold_left (fun acc k => add acc (f k)) (seq 0 n) zero.

(** [M . N] for matrices of size [n]. *)
Definition product (n : nat) (M N : matrix) : matrix :=
  fun i j => sum_over n (fun k => mul (M i k) (N k j)).

(** [L . V . L^T], the products taken from the right. *)
Definition two_sided (n : nat) (L V : matrix) : matrix :=
  product n L (product n V (transposed L)).

(** [L . V . L^T] by its entries: the sum over [j] and [k] of
    [L[i][j] . V[j][k] . L^T[k][l]]. *)
Definition two_sided_sum (n : nat) (L V : matrix) : matrix :=
  fun i l =>
    sum_over n (fun j =>
      sum_over n (fun k => mul (mul (L i j) (V j k)) (transposed L k l))).

(** From rows to entries and back. *)
Definition of_rows (m : list (list A)) : matrix :=
  fun i j => nth j (nth i m []) zero.
Definition rows (n : nat) (M : matrix) : list (list A) :=
  map (fun i => map (M i) (seq 0 n)) (seq 0 n).

End Transform.
Arguments matrix : clear implicits.
End Spec.

(* ================================================================== *)
(** * [rks.py]: the patched region of [get_veff] *)
(* ================================================================== *)

Module Rks.
Section GetVeff.
Context {A : Type} `{Scalar A}.
(** Whatever else the effective-potential object carries ([ecoul], [vj],
    [vk]): the patched region never names those fields. *)
Context {Other : Type}.

(** The effective-potential object [vxc] (not the per-block tuple of the
    grid kernel): [vxc.exc] and [vxc.vxc]. *)
Record VXC : Type := {
  exc : A;
  vxc : tensor A;
  other : Other
}.

(** The solver object [ks], as far as the region reads it.  [nr_rks] is
    [ks._numint.nr_rks] with [mol], [ks.grids] and the memory budget of
    this call fixed; it returns [(n, exc, vxc)].  [network_eval] is
    [ks.network_eval], a scalar function of the density matrix written
    with the array operations, so that it can be run on dual numbers;
    [network_verbose] is [ks.network.verbose]. *)
Record KS : Type := {
  xc : string;
  nlc : string;
  nr_rks : string -> tensor A -> A * A * tensor A;
  network_verbose : bool;
  network_eval : tensor (dual A) -> dual A
}.

(** What the region leaves behind besides its writes: the lines it
    prints and the calls of the network. *)
Inductive event : Type :=
  | Print (line : string)
  | NetworkEval (dm : tensor A).

(** The variables in scope: the local [n], the object [vxc], the solver
    [ks], and the output so far. *)
Record state : Type := {
  st_n : A;
  st_vxc : VXC;
  st_ks : KS;
  st_out : list event
}.

Definition set_n (a : A) (s : state) : state :=
  {| st_n := a; st_vxc := st_vxc s; st_ks := st_ks s; st_out := st_out s |}.
Definition set_exc (a : A) (s : state) : state :=
  {| st_n := st_n s;
     st_vxc := {| exc := a; vxc := vxc (st_vxc s); other := other (st_vxc s) |};
     st_ks := st_ks s; st_out := st_out s |}.
Definition set_vxc (t : tensor A) (s : state) : state :=
  {| st_n := st_n s;
     st_vxc := {| exc := exc (st_vxc s); vxc := t; other := other (st_vxc s) |};
     st_ks := st_ks s; st_out := st_out s |}.
Definition emit (e : event) : M state unit :=
  modify (fun s => {| st_n := st_n s; st_vxc := st_vxc s; st_ks := st_ks s;
                      st_out := st_out s ++ [e] |}).

(** ** [jax.value_and_grad]

    The derivative with respect to the entry [(i, j)] (of slice [x]) is
    the tangent of the function run on the argument whose tangent is one
    at that entry and zero elsewhere. *)
Definition lift2 (m : list (list A)) : list (list (dual A)) :=
  map (map const) m.
Definition seed2 (m : list (list A)) (i j : nat) : list (list (dual A)) :=
  imap (fun i' row =>
          imap (fun j' a => (a, if Nat.eqb i i' && Nat.eqb j j' then one else zero)) row)
       m.
Definition lift (dm : tensor A) : tensor (dual A) :=
  match dm with
  | T2 m => T2 (lift2 m)
  | T3 ms => T3 (map lift2 ms)
  end.
Definition seed (dm : tensor A) (x i j : nat) : tensor (dual A) :=
  match dm with
  | T2 m => T2 (seed2 m i j)
  | T3 ms => T3 (imap (fun x' m => if Nat.eqb x x' then seed2 m i j else lift2 m) ms)
  end.
Definition grad2 (f : tensor (dual A) -> dual A) (dm : tensor A) (x : nat)
    (m : list (list A)) : list (list A) :=
  imap (fun i row => imap (fun j _ => tan (f (seed dm x i j))) row) m.
Definition grad (f : tensor (dual A) -> dual A) (dm : tensor A) : tensor A :=
  match dm with
  | T2 m => T2 (grad2 f dm 0 m)
  | T3 ms => T3 (imap (grad2 f dm) ms)
  end.
Definition value_and_grad (f : tensor (dual A) -> dual A) (dm : tensor A)
    : A * tensor A :=
  (val (f (lift dm)), grad f dm).

(** ** The "restore symmetry" step

<<
    if vxcG.ndim > 2:
        vxcG = np.einsum('ij,xjk,kl->xil',L,vxcG,L.T)
    else:
        vxcG = np.matmul(L,np.matmul(vxcG,L.T))
>>
    A [T3] is the tensor with [ndim > 2], a [T2] the one without. *)
Definition restore_symmetry (L : list (list A)) (vxcG : tensor A)
    : result (tensor A) :=
  match vxcG with
  | T3 ms =>
      match einsum_ij_xjk_kl L ms (transpose L) with
      | Ok r => Ok (T3 r)
      | Raise e => Raise e
      end
  | T2 m =>
      match two_sided L m with
      | Ok r => Ok (T2 r)
      | Raise e => Raise e
      end
  end.

(** ** The region itself (the [else] branch of [get_veff], up to the
    non-local correlation part that follows it)

<<
    n, vxc.exc, vxc.vxc = ni.nr_rks(mol, ks.grids, ks.xc, dm, max_memory=max_memory)
    if np.isnan(vxc.exc):
        print('RKSAnalyzer.get_veff; nans in exc, trying with network')
        excG, vxcG = jax.value_and_grad(ks.network_eval)(dm)
        L = np.eye(dm.shape[-1])
        if ks.network.verbose:
            print('restoring vxc symmetry')
        (the symmetry step)
        vxc.vxc = vxcG
        vxc.exc = excG
>> *)
Definition primary (dm : tensor A) : M state unit :=
  do ks <- gets st_ks;
  let '(n, e, v) := nr_rks ks (xc ks) dm in
  modify (fun s => set_vxc v (set_exc e (set_n n s))).

Definition network_fallback (dm : tensor A) : M state unit :=
  do ks <- gets st_ks;
  do_ emit (Print "RKSAnalyzer.get_veff; nans in exc, trying with network");
  do_ emit (NetworkEval dm);
  let '(excG, vxcG) := value_and_grad (network_eval ks) dm in
  let L := eye (shape_last dm) in
  do_ (if network_verbose ks then emit (Print "restoring vxc symmetry") else ret tt);
  do vxcG' <- lift_result (restore_symmetry L vxcG);
  do_ modify (set_vxc vxcG');
  modify (set_exc excG).

Definition get_veff (dm : tensor A) : M state unit :=
  do_ primary dm;
  do e <- gets (fun s => exc (st_vxc s));
  if isnan e then network_fallback dm else ret tt.

(** How often the network was called. *)
Definition network_calls (out : list event) : nat :=
  length (List.filter (fun e => match e with NetworkEval _ => true | Print _ => false end) out).

(** ** Reading a run *)

(** The state after the classical evaluation has been stored. *)
Definition after_primary (s : state) (dm : tensor A) : state :=
  let '(n, e, v) := nr_rks (st_ks s) (xc (st_ks s)) dm in
  set_vxc v (set_exc e (set_n n s)).

(** The classical [(n, exc, vxc)]. *)
Definition classical (s : state) (dm : tensor A) : A * A * tensor A :=
  nr_rks (st_ks s) (xc (st_ks s)) dm.

(** The output of the fallback before the symmetry step. *)
Definition fallback_output (s : state) (dm : tensor A) : list event :=
  st_out s
  ++ [Print "RKSAnalyzer.get_veff; nans in exc, trying with network";
      NetworkEval dm]
  ++ (if network_verbose (st_ks s) then [Print "restoring vxc symmetry"] else []).

Definition with_output (out : list event) (s : state) : state :=
  {| st_n := st_n s; st_vxc := st_vxc s; st_ks := st_ks s;
     st_out := out |}.

(** The raw gradient and the value the network path computes. *)
Definition raw_gradient (s : state) (dm : tensor A) : tensor A :=
  grad (network_eval (st_ks s)) dm.
Definition network_value (s : state) (dm : tensor A) : A :=
  val (network_eval (st_ks s) (lift dm)).

End GetVeff.
Arguments VXC : clear implicits.
Arguments KS : clear implicits.
Arguments event : clear implicits.
Arguments state : clear implicits.
End Rks.


(* ================================================================== *)
(** * [numint.py]: the patched branches of the block loop *)
(* ================================================================== *)

Module Numint.

(** The approximation level, the last argument of [make_rho]. *)
Inductive xctype : Type := LDA | GGA | MGGA.

Section BlockLoop.
Context {A : Type} `{Scalar A}.
(** Orbital values, the screening mask and the grid coordinates of a
    block are only handed on to [make_rho] and [ni.eval_xc]. *)
Context {AO Mask Coords : Type}.

(** [rho]: one row of values for LDA, one row per component otherwise. *)
Inductive density : Type :=
  | Rho1 (v : list A)
  | Rho2 (rows : list (list A)).

(** A component of the per-block [vxc]: an array, or Python's [None]. *)
Definition component : Type := option (list A).

(** What [ni.block_loop] yields: [ao, mask, weight, coords]. *)
Record block : Type := {
  ao : AO;
  mask : Mask;
  weight : list A;
  coords : Coords
}.

(** The two call forms of [ni.eval_xc]. *)
Inductive call : Type :=
  | Extended (xc_code : string) (rho : density) (ao : AO) (weight : list A)
      (coords : Coords) (spin relativity deriv verbose : Z)
  | Minimal (xc_code : string) (rho : density) (spin relativity deriv verbose : Z).

(** What [ni.eval_xc] returns: [exc], [vxc], and whatever follows them
    ([fxc], [kxc]); the slice [[:2]] keeps the first two. *)
Record xc_return : Type := {
  ret_exc : list A;
  ret_vxc : list component;
  ret_more : list component
}.

(** The names the branches read from their surroundings. *)
Record env : Type := {
  eval_xc : call -> result xc_return;
  make_rho : nat -> AO -> Mask -> xctype -> density;
  xc_code : string;
  relativity : Z;
  verbose : Z;
  nset : nat;
  ao_shape : AO -> list nat;
  coords_shape : Coords -> list nat
}.

Inductive event : Type :=
  | PrintShapes (level : xctype) (ao_shape weight_shape coords_shape : list nat)
  | EvalXC (c : call).

(** The accumulators, mutated in place, and what was printed and called. *)
Record store : Type := {
  nelec : list A;
  excsum : list A;
  out : list event
}.

Definition emit (ev : event) : M store unit :=
  modify (fun s => {| nelec := nelec s; excsum := excsum s; out := out s ++ [ev] |}).

Definition call_eval_xc (e : env) (c : call) : M store xc_return :=
  do_ emit (EvalXC c);
  lift_result (eval_xc e c).

(** ** The [try] / [except] of every branch

<<
    try:
        print(f'LDA ni.block_loop; input ao.shape={ao.shape}, ...')
        exc, vxc = ni.eval_xc(xc_code, rho, ao, weight, coords, spin=0,
                          relativity=relativity, deriv=1,
                          verbose=verbose)[:2]
    except:
        exc, vxc = ni.eval_xc(xc_code, rho, spin=0,
                              relativity=relativity, deriv=1,
                              verbose=verbose)[:2]
>> *)
Definition extended_call (e : env) (b : block) (rho : density) : call :=
  Extended (xc_code e) rho (ao b) (weight b) (coords b) 0 (relativity e) 1 (verbose e).
Definition minimal_call (e : env) (rho : density) : call :=
  Minimal (xc_code e) rho 0 (relativity e) 1 (verbose e).

Definition first_two (r : xc_return) : list A * list component :=
  (ret_exc r, ret_vxc r).

Definition dispatch (e : env) (level : xctype) (b : block) (rho : density)
    : M store (list A * list component) :=
  try_except
    (do_ emit (PrintShapes level (ao_shape e (ao b)) [length (weight b)]
                 (coords_shape e (coords b)));
     do r <- call_eval_xc e (extended_call e b rho);
     ret (first_two r))
    (do r <- call_eval_xc e (minimal_call e rho);
     ret (first_two r)).

(** ** What follows the [try] in each branch *)

(** The names a branch has bound when the patched lines are through;
    [None] for a name the branch does not bind. *)
Record locals : Type := {
  l_exc : list A;
  l_vxc : list component;
  l_vrho : option component;
  l_vsigma : option component;
  l_vlapl : option component;
  l_vtau : option component;
  l_den : option (list A)
}.

(** [rho[0] * weight] *)
Definition density_times_weight (rho : density) (w : list A) : result (list A) :=
  match rho with
  | Rho1 [] => Raise IndexError
  | Rho1 (a :: _) => Ok (map (mul a) w)
  | Rho2 [] => Raise IndexError
  | Rho2 (rho0 :: _) => vmul rho0 w
  end.

(** [acc[idm] += x] *)
Definition add_at (idm : nat) (x : A) (acc : list A) : result (list A) :=
  match acc !! idm with
  | Some a => Ok (<[idm := add a x]> acc)
  | None => Raise IndexError
  end.

(** LDA:
<<
    rho = make_rho(idm, ao, mask, 'LDA')
    (try / except)
    vrho = vxc[0]
>> *)
Definition lda_body (e : env) (b : block) (idm : nat) : M store locals :=
  let rho := make_rho e idm (ao b) (mask b) LDA in
  do ev <- dispatch e LDA b rho;
  match snd ev !! 0 with
  | None => raise IndexError
  | Some vrho =>
      ret {| l_exc := fst ev; l_vxc := snd ev; l_vrho := Some vrho;
             l_vsigma := None; l_vlapl := None; l_vtau := None; l_den := None |}
  end.

(** Modelled from the spec: what the GGA branch takes out of [vxc].  The
    patch shows the branch up to [den = rho[0] * weight]; the lines after
    it, where the host takes the components apart, are not in the patch.
    The spec: "Extract [vrho] always; extract [vsigma, vlapl, vtau]
    additionally when the approximation level is MGGA (and [vsigma] alone
    for GGA)", [vrho] being [vxc[0]].  So [vrho = vxc[0]] and
    [vsigma = vxc[1]], each failing as indexing does when [vxc] is too
    short. *)
Definition gga_components (vxc : list component) : result (component * component) :=
  match vxc !! 0, vxc !! 1 with
  | Some vrho, Some vsigma => Ok (vrho, vsigma)
  | _, _ => Raise IndexError
  end.

(** GGA:
<<
    rho = make_rho(idm, ao, mask, 'GGA')
    (try / except)
    den = rho[0] * weight
>>
    followed by the components as the spec has them ([gga_components]). *)
Definition gga_body (e : env) (b : block) (idm : nat) : M store locals :=
  let rho := make_rho e idm (ao b) (mask b) GGA in
  do ev <- dispatch e GGA b rho;
  do den <- lift_result (density_times_weight rho (weight b));
  do c <- lift_result (gga_components (snd ev));
  ret {| l_exc := fst ev; l_vxc := snd ev; l_vrho := Some (fst c);
         l_vsigma := Some (snd c); l_vlapl := None; l_vtau := None;
         l_den := Some den |}.

(** MGGA:
<<
    rho = make_rho(idm, ao, mask, 'MGGA')
    (try / except)
    vrho, vsigma, vlapl, vtau = vxc[:4]
    den = rho[0] * weight
    nelec[idm] += stop_grad(den).sum()
    excsum[idm] += np.dot(den, exc)
>> *)
Definition mgga_body (e : env) (b : block) (idm : nat) : M store locals :=
  let rho := make_rho e idm (ao b) (mask b) MGGA in
  do ev <- dispatch e MGGA b rho;
  match take 4 (snd ev) with
  | [vrho; vsigma; vlapl; vtau] =>
      do den <- lift_result (density_times_weight rho (weight b));
      do n' <- (do acc <- gets nelec;
                lift_result (add_at idm (vsum (map stop_grad den)) acc));
      do_ modify (fun s => {| nelec := n'; excsum := excsum s; out := out s |});
      do x' <- (do acc <- gets excsum;
                match acc !! idm with
                | None => raise IndexError
                | Some a =>
                    do d <- lift_result (dot den (fst ev));
                    ret (<[idm := add a d]> acc)
                end);
      do_ modify (fun s => {| nelec := nelec s; excsum := x'; out := out s |});
      ret {| l_exc := fst ev; l_vxc := snd ev; l_vrho := Some vrho;
             l_vsigma := Some vsigma; l_vlapl := Some vlapl; l_vtau := Some vtau;
             l_den := Some den |}
  | _ => raise ValueError
  end.

Definition body (level : xctype) : env -> block -> nat -> M store locals :=
  match level with
  | LDA => lda_body
  | GGA => gga_body
  | MGGA => mgga_body
  end.

(** The loops around the body: the host's loop over [ni.block_loop],
    then [for idm in range(nset)].  What a branch does after the lines
    above (the weighted potential [wv] and the block's contribution to
    the potential matrix) is the host's and touches neither accumulator;
    it is left out. *)
Definition block_loop (level : xctype) (e : env) (blocks : list block)
    : M store unit :=
  for_each blocks (fun b =>
    for_each (seq 0 (nset e)) (fun idm =>
      do_ body level e b idm; ret tt)).

(** ** Reading the log *)

Definition xc_calls (evs : list event) : list call :=
  omap (fun ev => match ev with EvalXC c => Some c | PrintShapes _ _ _ _ => None end) evs.

Definition is_extended (c : call) : bool :=
  match c with Extended _ _ _ _ _ _ _ _ _ => true | Minimal _ _ _ _ _ _ => false end.

(** The store after more output. *)
Definition logged (evs : list event) (s : store) : store :=
  {| nelec := nelec s; excsum := excsum s; out := out s ++ evs |}.

(** What the [try] body prints before it calls. *)
Definition shapes_line (e : env) (level : xctype) (b : block) : event :=
  PrintShapes level (ao_shape e (ao b)) [length (weight b)] (coords_shape e (coords b)).

(** The same surroundings with another [ni.eval_xc]. *)
Definition with_eval_xc (f : call -> result xc_return) (e : env) : env :=
  {| eval_xc := f; make_rho := make_rho e; xc_code := xc_code e;
     relativity := relativity e; verbose := verbose e; nset := nset e;
     ao_shape := ao_shape e; coords_shape := coords_shape e |}.

(** A return cut down to its first two slots. *)
Definition only_first_two (r : result xc_return) : result xc_return :=
  match r with
  | Ok x => Ok {| ret_exc := ret_exc x; ret_vxc := ret_vxc x; ret_more := [] |}
  | Raise ex => Raise ex
  end.

(** ** The contribution of a block, for stating the totals *)

(** The return the [try] / [except] ends up with. *)
Definition selected (e : env) (b : block) (rho : density) : result xc_return :=
  match eval_xc e (extended_call e b rho) with
  | Ok r => Ok r
  | Raise _ => eval_xc e (minimal_call e rho)
  end.

Definition rho0_of (e : env) (idm : nat) (b : block) : list A :=
  match make_rho e idm (ao b) (mask b) MGGA with
  | Rho2 (rho0 :: _) => rho0
  | _ => []
  end.

(** [rho[0] * weight], point by point. *)
Definition den_of (e : env) (idm : nat) (b : block) : list A :=
  zip_with mul (rho0_of e idm b) (weight b).

Definition exc_of (e : env) (idm : nat) (b : block) : list A :=
  match selected e b (make_rho e idm (ao b) (mask b) MGGA) with
  | Ok r => ret_exc r
  | Raise _ => []
  end.

(** What [nelec[idm] += stop_grad(den).sum()] and
    [excsum[idm] += np.dot(den, exc)] add for a block. *)
Definition nelec_term (e : env) (b : block) (idm : nat) : A :=
  vsum (map stop_grad (den_of e idm b)).
Definition excsum_term (e : env) (b : block) (idm : nat) : A :=
  dot_raw (den_of e idm b) (exc_of e idm b).

(** An accumulator after the entries below [n] have each received their
    term. *)
Definition accumulated (term : nat -> A) (n : nat) (acc : list A) : list A :=
  imap (fun i a => if Nat.ltb i n then add a (term i) else a) acc.

(** A block the MGGA body runs through for density set [idm]: [rho] has
    a first row as long as [weight], one of the two calls returns, with
    at least four components in [vxc] and an [exc] as long as [weight]. *)
Definition mgga_ready (e : env) (idm : nat) (b : block) : Prop :=
  (exists rho0 rest, make_rho e idm (ao b) (mask b) MGGA = Rho2 (rho0 :: rest)
                     /\ length rho0 = length (weight b))
  /\ (exists r, selected e b (make_rho e idm (ao b) (mask b) MGGA) = Ok r
                /\ 4 <= length (ret_vxc r)
                /\ length (ret_exc r) = length (weight b)).

End BlockLoop.
Arguments density : clear implicits.
Arguments component : clear implicits.
Arguments store : clear implicits.
Arguments locals : clear implicits.
Arguments xc_return : clear implicits.
Arguments block : clear implicits.
Arguments call : clear implicits.
Arguments event : clear implicits.
Arguments env : clear implicits.
End Numint.


(* ================================================================== *)
(** * Reading whole runs *)
(* ================================================================== *)

Section GetVeffReadings.
Context {A : Type} `{Scalar A} {Other : Type}.

(** The same state with [ks.network.verbose] set to [v]. *)
Definition set_verbose (v : bool) (s : Rks.state A Other) : Rks.state A Other :=
  {| Rks.st_n := Rks.st_n s;
     Rks.st_vxc := Rks.st_vxc s;
     Rks.st_ks := {| Rks.xc := Rks.xc (Rks.st_ks s);
                     Rks.nlc := Rks.nlc (Rks.st_ks s);
                     Rks.nr_rks := Rks.nr_rks (Rks.st_ks s);
                     Rks.network_verbose := v;
                     Rks.network_eval := Rks.network_eval (Rks.st_ks s) |};
     Rks.st_out := Rks.st_out s |}.

(** The line that [ks.network.verbose] switches on. *)
Definition is_symmetry_notice (ev : Rks.event A) : bool :=
  match ev with
  | Rks.Print line => String.eqb line "restoring vxc symmetry"
  | Rks.NetworkEval _ => false
  end.
Definition without_symmetry_notice (out : list (Rks.event A)) : list (Rks.event A) :=
  List.filter (fun ev => negb (is_symmetry_notice ev)) out.

(** The line that announces the fallback. *)
Definition nan_notice : Rks.event A :=
  Rks.Print "RKSAnalyzer.get_veff; nans in exc, trying with network".

End GetVeffReadings.

Section BlockLoopReadings.
Context {A : Type} `{Scalar A} {AO Mask Coords : Type}.

(** What one pass through a branch prints and calls: the shapes line,
    the extended call and, when that raises, the minimal call. *)
Definition attempt_events (e : Numint.env A AO Mask Coords) (level : Numint.xctype)
    (b : Numint.block A AO Mask Coords) (idm : nat) : list (Numint.event A AO Coords) :=
  let rho := Numint.make_rho e idm (Numint.ao b) (Numint.mask b) level in
  Numint.shapes_line e level b
  :: Numint.EvalXC (Numint.extended_call e b rho)
  :: match Numint.eval_xc e (Numint.extended_call e b rho) with
     | Ok _ => []
     | Raise _ => [Numint.EvalXC (Numint.minimal_call e rho)]
     end.

(** The same for every block and every density set, in loop order. *)
Definition loop_events (e : Numint.env A AO Mask Coords) (level : Numint.xctype)
    (blocks : list (Numint.block A AO Mask Coords)) : list (Numint.event A AO Coords) :=
  flat_map (fun b => flat_map (attempt_events e level b) (seq 0 (Numint.nset e))) blocks.

(** The shapes lines among the events. *)
Definition shape_lines (evs : list (Numint.event A AO Coords))
    : list (Numint.event A AO Coords) :=
  List.filter (fun ev => match ev with
                         | Numint.PrintShapes _ _ _ _ => true
                         | Numint.EvalXC _ => false
                         end) evs.

(** The accumulators keep their lengths and their entries from [n] on. *)
Definition kept_from (n : nat) (s s' : Numint.store A AO Coords) : Prop :=
  length (Numint.nelec s') = length (Numint.nelec s)
  /\ length (Numint.excsum s') = length (Numint.excsum s)
  /\ forall j, n <= j ->
       Numint.nelec s' !! j = Numint.nelec s !! j
       /\ Numint.excsum s' !! j = Numint.excsum s !! j.

End BlockLoopReadings.


(* ================================================================== *)
(** * [notebooks/Untitled.ipynb]: picking the checkpoints to keep *)
(* ================================================================== *)

(** The two cells that go through the pretrained models:
<<
    topd = '/home/awills/Documents/Research/xcquinox/models/pretrained/'
    xcs = ['pbe0','scan']
    ddct = {xc:[i for i in os.listdir(os.path.join(topd, xc))
                if os.path.isdir(os.path.join(topd,xc))] for xc in xcs}

    for k, v in ddct.items():
        for subd in v:
            direc = os.path.join(topd, k, subd)
            xcchkpts = sorted([i for i in os.listdir(direc) if 'xc.eqx' in i],
                              key=lambda x: int(x.split('.')[-1]))
            print(k, subd, xcchkpts[-1])
            fp = os.path.join(direc, xcchkpts[-1])
            cpf = os.path.join(direc, 'xc')
            os.system(f'cp {fp} {cpf}')
>>
    The file system ([os.listdir], [os.path.isdir]) and the builtin [int]
    are taken as given; strings are sequences of bytes.  The commands
    handed to [os.system] are recorded, not run: every directory is listed
    before its own copy is made, and the copy adds no name that contains
    'xc.eqx'. *)
Module Notebook.

(** ** Strings and paths *)

(** [needle in hay] *)
Fixpoint contains (needle hay : string) : bool :=
  String.prefix needle hay
  || match hay with
     | EmptyString => false
     | String _ hay' => contains needle hay'
     end.

(** [s.split(sep)] for a separator of one character: never empty. *)
Fixpoint split_on (sep : Ascii.ascii) (s : string) : list string :=
  match s with
  | EmptyString => [EmptyString]
  | String c s' =>
      if Ascii.eqb c sep then EmptyString :: split_on sep s'
      else match split_on sep s' with
           | [] => [String c EmptyString]
           | w :: ws => String c w :: ws
           end
  end.

(** [l[-1]] *)
Definition last_item {X : Type} (l : list X) : result X :=
  match List.last (map Some l) None with
  | Some x => Ok x
  | None => Raise IndexError
  end.

(** [s.endswith('/')] *)
Fixpoint ends_with_slash (s : string) : bool :=
  match s with
  | EmptyString => false
  | String c EmptyString => Ascii.eqb c "/"%char
  | String _ s' => ends_with_slash s'
  end.

(** One step of [os.path.join] (posixpath): an absolute component
    replaces what came before. *)
Definition join2 (path b : string) : string :=
  if String.prefix "/" b then b
  else if String.eqb path EmptyString || ends_with_slash path then (path ++ b)%string
  else (path ++ "/" ++ b)%string.

(** [os.path.join(a, *p)] *)
Definition join (a : string) (p : list string) : string :=
  fold_left join2 p a.

(** ** The surroundings *)

Record filesystem : Type := {
  listdir : string -> result (list string);
  isdir : string -> bool
}.

(** What the cell prints and the commands it hands to the shell. *)
Inductive event : Type :=
  | Printed (k subd checkpoint : string)
  | System (command : string).

(** A [dict] with string keys, in insertion order. *)
Definition dict (V : Type) : Type := list (string * V).

(** [d[k] = v]: a key that is there keeps its place. *)
Fixpoint dict_set {V : Type} (k : string) (v : V) (d : dict V) : dict V :=
  match d with
  | [] => [(k, v)]
  | (k', v') :: d' =>
      if String.eqb k k' then (k, v) :: d' else (k', v') :: dict_set k v d'
  end.

(** ** The first cell: [ddct] *)

(** One entry: the listing of [topd/xc], each name kept when
    [os.path.isdir(os.path.join(topd, xc))] holds. *)
Definition model_dirs (fs : filesystem) (topd xc : string) : result (list string) :=
  match listdir fs (join topd [xc]) with
  | Ok names => Ok (List.filter (fun _ => isdir fs (join topd [xc])) names)
  | Raise e => Raise e
  end.

Fixpoint build_ddct (fs : filesystem) (topd : string) (xcs : list string)
    (d : dict (list string)) : result (dict (list string)) :=
  match xcs with
  | [] => Ok d
  | xc :: xcs' =>
      match model_dirs fs topd xc with
      | Ok v => build_ddct fs topd xcs' (dict_set xc v d)
      | Raise e => Raise e
      end
  end.

(** ** The second cell *)

(** [lambda x: int(x.split('.')[-1])] *)
Definition checkpoint_key (int : string -> result Z) (x : string) : result Z :=
  match last_item (split_on "."%char x) with
  | Ok c => int c
  | Raise e => Raise e
  end.

(** The keys of [sorted] are computed first, item by item. *)
Fixpoint decorate {X : Type} (key : X -> result Z) (xs : list X)
    : result (list (Z * X)) :=
  match xs with
  | [] => Ok []
  | x :: xs' =>
      match key x with
      | Raise e => Raise e
      | Ok z =>
          match decorate key xs' with
          | Ok l => Ok ((z, x) :: l)
          | Raise e => Raise e
          end
      end
  end.

(** A stable sort by key: an item goes before the first one whose key is
    not smaller. *)
Fixpoint insert_by_key {X : Type} (p : Z * X) (l : list (Z * X)) : list (Z * X) :=
  match l with
  | [] => [p]
  | q :: l' =>
      if (fst p <=? fst q)%Z then p :: q :: l' else q :: insert_by_key p l'
  end.
Definition stable_sort {X : Type} (l : list (Z * X)) : list (Z * X) :=
  fold_right insert_by_key [] l.

(** [sorted(xs, key=key)] *)
Definition sorted {X : Type} (key : X -> result Z) (xs : list X) : result (list X) :=
  match decorate key xs with
  | Ok l => Ok (map snd (stable_sort l))
  | Raise e => Raise e
  end.

(** [[i for i in names if 'xc.eqx' in i]] *)
Definition candidates (names : list string) : list string :=
  List.filter (contains "xc.eqx") names.

(** [sorted([...], key=...)[-1]] *)
Definition newest_checkpoint (int : string -> result Z) (names : list string)
    : result string :=
  match sorted (checkpoint_key int) (candidates names) with
  | Ok xcchkpts => last_item xcchkpts
  | Raise e => Raise e
  end.

Definition emit (ev : event) : M (list event) unit :=
  modify (fun out => out ++ [ev]).

(** The body of the inner loop. *)
Definition keep_newest (fs : filesystem) (int : string -> result Z)
    (topd k subd : string) : M (list event) unit :=
  let direc := join topd [k; subd] in
  do names <- lift_result (listdir fs direc);
  do chk <- lift_result (newest_checkpoint int names);
  do_ emit (Printed k subd chk);
  let fp := join direc [chk] in
  let cpf := join direc ["xc"%string] in
  emit (System ("cp " ++ fp ++ " " ++ cpf)%string).

(** [for k, v in ddct.items(): for subd in v: ...] *)
Definition keep_all (fs : filesystem) (int : string -> result Z) (topd : string)
    (ddct : dict (list string)) : M (list event) unit :=
  for_each ddct (fun kv =>
    for_each (snd kv) (fun subd => keep_newest fs int topd (fst kv) subd)).

(** Both cells. *)
Definition run (fs : filesystem) (int : string -> result Z) (topd : string)
    (xcs : list string) : M (list event) unit :=
  do ddct <- lift_result (build_ddct fs topd xcs []);
  keep_all fs int topd ddct.

(** ** For stating what is picked *)

(** The last of the items with the largest key. *)
Fixpoint last_max {X : Type} (l : list (Z * X)) : option (Z * X) :=
  match l with
  | [] => None
  | p :: l' =>
      match last_max l' with
      | None => Some p
      | Some q => if (fst q <? fst p)%Z then Some p else Some q
      end
  end.

(** Ordered by key. *)
Fixpoint sorted_keys {X : Type} (l : list (Z * X)) : Prop :=
  match l with
  | [] => True
  | p :: l' => List.Forall (fun q => (fst p <= fst q)%Z) l' /\ sorted_keys l'
  end.

(** The model directories in the order the loops reach them. *)
Definition dirs_of (ddct : dict (list string)) : list (string * string) :=
  flat_map (fun kv => map (pair (fst kv)) (snd kv)) ddct.

(** The checkpoint the loop body settles on in [topd/k/subd]. *)
Definition checkpoint_in (fs : filesystem) (int : string -> result Z)
    (topd k subd : string) : result string :=
  match listdir fs (join topd [k; subd]) with
  | Ok names => newest_checkpoint int names
  | Raise e => Raise e
  end.

(** What one model directory contributes to the output. *)
Definition kept (topd k subd chk : string) : list event :=
  [Printed k subd chk;
   System ("cp " ++ join (join topd [k; subd]) [chk] ++ " "
             ++ join (join topd [k; subd]) ["xc"%string])%string].

End Notebook.

(* ================================================================== *)
(** * Concrete inputs *)
(* ================================================================== *)

(** Small density matrices, solvers and networks on which the regions
    are run below. *)
Module Examples.

Definition f0 : spec_float := S754_zero false.
Definition f1 : spec_float := b64_one.
Definition f2 : spec_float := Eval vm_compute in b64_add b64_one b64_one.
(** The largest finite binary64 number. *)
Definition fmax : spec_float := Eval vm_compute in SFmax_float 53 1024.

(** [t[i, j]] of a matrix, [t[0, i, j]] of a stack. *)
Definition entry {A : Type} `{Scalar A} (i j : nat) (t : tensor A) : A :=
  match t with
  | T2 m => nth j (nth i m []) zero
  | T3 ms => nth j (nth i (hd [] ms) []) zero
  end.

(** [network_eval = lambda dm: dm[0, 1]] on a matrix; on a stack,
    [lambda dm: dm[0, 0, 1]]. *)
Definition net_offdiag {A : Type} `{Scalar A} : tensor A -> A := entry 0 1.
(** [network_eval = lambda dm: dm[0, 0] * dm[0, 0]] on a matrix; on a
    stack, the same of the first slice. *)
Definition net_square {A : Type} `{Scalar A} (t : tensor A) : A :=
  mul (entry 0 0 t) (entry 0 0 t).
(** [network_eval = lambda dm: dm[0, 1] + dm[1, 0]] on a matrix; on a
    stack, the same of the first slice. *)
Definition net_sym {A : Type} `{Scalar A} (t : tensor A) : A :=
  add (entry 0 1 t) (entry 1 0 t).

Definition dm_2x2 : tensor spec_float := T2 [[f1; f0]; [f0; f1]].
Definition dm_stack : tensor spec_float := T3 [[[f1; f0]; [f0; f1]]; [[f1; f0]; [f0; f1]]].
Definition dm_huge : tensor spec_float := T2 [[fmax; f0]; [f0; f1]].

(** A solver whose classical evaluation returns [(2.0, exc, dm)]. *)
Definition solver (exc : spec_float)
    (net : tensor (dual spec_float) -> dual spec_float) : Rks.KS spec_float :=
  {| Rks.xc := "PBE"; Rks.nlc := "";
     Rks.nr_rks := fun _ dm => (f2, exc, dm);
     Rks.network_verbose := true;
     Rks.network_eval := net |}.

(** The state on entry: a fresh effective-potential object, nothing
    printed. *)
Definition start (ks : Rks.KS spec_float) : Rks.state spec_float unit :=
  {| Rks.st_n := f0;
     Rks.st_vxc := {| Rks.exc := f0; Rks.vxc := T2 []; Rks.other := tt |};
     Rks.st_ks := ks;
     Rks.st_out := [] |}.


(** *** For the block loop

    Orbital values are a grid-points by basis-functions table, the
    coordinates a grid-points by three table; there is no mask. *)

Definition table_shape {A : Type} (t : list (list A)) : list nat :=
  [length t; length (hd [] t)].

(** A density that is, at every grid point, the sum of the orbital
    values there, in every row. *)
Definition rho_sum {A : Type} `{Scalar A} (idm : nat) (ao : list (list A))
    (mask : unit) (level : Numint.xctype) : Numint.density A :=
  match level with
  | Numint.LDA => Numint.Rho1 (map vsum ao)
  | _ => Numint.Rho2 [map vsum ao; map vsum ao]
  end.

Definition rho_values {A : Type} (rho : Numint.density A) : list A :=
  match rho with
  | Numint.Rho1 v => v
  | Numint.Rho2 rows => hd [] rows
  end.

(** A classical evaluator: it knows the minimal call only (the extended
    one is a [TypeError]); [exc] is the density, [vxc] has four
    components, and two more slots follow. *)
Definition classical_eval_xc {A : Type} `{Scalar A}
    (c : Numint.call A (list (list A)) (list (list A)))
    : result (Numint.xc_return A) :=
  match c with
  | Numint.Extended _ _ _ _ _ _ _ _ _ => Raise TypeError
  | Numint.Minimal _ rho _ _ _ _ =>
      Ok {| Numint.ret_exc := rho_values rho;
            Numint.ret_vxc := [Some (rho_values rho); None; None; None];
            Numint.ret_more := [None; None] |}
  end.

(** An evaluator for the extended call: [exc] is the density times the
    weight. *)
Definition extended_eval_xc {A : Type} `{Scalar A}
    (c : Numint.call A (list (list A)) (list (list A)))
    : result (Numint.xc_return A) :=
  match c with
  | Numint.Extended _ rho _ w _ _ _ _ _ =>
      Ok {| Numint.ret_exc := zip_with mul (rho_values rho) w;
            Numint.ret_vxc := [Some (rho_values rho); None; None; None];
            Numint.ret_more := [] |}
  | Numint.Minimal _ _ _ _ _ _ => Raise NotImplementedError
  end.

(** An evaluator that is interrupted in the extended call and returns an
    empty [vxc] from the minimal one. *)
Definition interrupted_eval_xc {A : Type} `{Scalar A}
    (c : Numint.call A (list (list A)) (list (list A)))
    : result (Numint.xc_return A) :=
  match c with
  | Numint.Extended _ _ _ _ _ _ _ _ _ => Raise KeyboardInterrupt
  | Numint.Minimal _ rho _ _ _ _ =>
      Ok {| Numint.ret_exc := rho_values rho; Numint.ret_vxc := [];
            Numint.ret_more := [] |}
  end.

(** An evaluator that fails both ways. *)
Definition failing_eval_xc {A : Type} `{Scalar A}
    (c : Numint.call A (list (list A)) (list (list A)))
    : result (Numint.xc_return A) :=
  match c with
  | Numint.Extended _ _ _ _ _ _ _ _ _ => Raise TypeError
  | Numint.Minimal _ _ _ _ _ _ => Raise ValueError
  end.

Definition surroundings {A : Type} `{Scalar A}
    (f : Numint.call A (list (list A)) (list (list A)) -> result (Numint.xc_return A))
    : Numint.env A (list (list A)) unit (list (list A)) :=
  {| Numint.eval_xc := f; Numint.make_rho := rho_sum;
     Numint.xc_code := "SCAN"; Numint.relativity := 0%Z; Numint.verbose := 0%Z;
     Numint.nset := 1;
     Numint.ao_shape := table_shape; Numint.coords_shape := table_shape |}.

(** Two grid points with two basis functions, and one more grid point. *)
Definition block_a : Numint.block Z (list (list Z)) unit (list (list Z)) :=
  {| Numint.ao := [[1; 2]; [3; 4]]%Z; Numint.mask := tt;
     Numint.weight := [1; 2]%Z;
     Numint.coords := [[0; 0; 0]; [0; 0; 1]]%Z |}.
Definition block_b : Numint.block Z (list (list Z)) unit (list (list Z)) :=
  {| Numint.ao := [[5; 6]]%Z; Numint.mask := tt;
     Numint.weight := [3]%Z;
     Numint.coords := [[0; 1; 0]]%Z |}.
(** The same three grid points in one block. *)
Definition block_ab : Numint.block Z (list (list Z)) unit (list (list Z)) :=
  {| Numint.ao := [[1; 2]; [3; 4]; [5; 6]]%Z; Numint.mask := tt;
     Numint.weight := [1; 2; 3]%Z;
     Numint.coords := [[0; 0; 0]; [0; 0; 1]; [0; 1; 0]]%Z |}.

(** A block over dual numbers: the first orbital value of each point
    varies with the input (tangent one), the weights are constants. *)
Definition block_d : Numint.block (dual Z) (list (list (dual Z))) unit (list (list (dual Z))) :=
  {| Numint.ao := [[(1, 1); (2, 0)]; [(3, 1); (4, 0)]]%Z; Numint.mask := tt;
     Numint.weight := [(1, 0); (2, 0)]%Z;
     Numint.coords := [] |}.

Definition empty_store {A AO Coords : Type} `{Scalar A} : Numint.store A AO Coords :=
  {| Numint.nelec := [zero]; Numint.excsum := [zero]; Numint.out := [] |}.

End Examples.

(** ** A directory of checkpoints *)
Module NotebookExamples.
Import Notebook.

(** Python's [int] cut down to the strings of ASCII decimal digits, which
    is all the names below need: on those it gives the number, and on
    every other text it raises [ValueError], also on the few ([+5], [ 5],
    [5_0]) that Python's [int] reads. *)
Definition digit (c : ascii) : option Z :=
  let n := nat_of_ascii c in
  if (48 <=? n) && (n <=? 57) then Some (Z.of_nat (n - 48)) else None.
Fixpoint digits (acc : Z) (s : string) : option Z :=
  match s with
  | EmptyString => Some acc
  | String c s' =>
      match digit c with
      | Some d => digits (10 * acc + d) s'
      | None => None
      end
  end.
Definition int_of_digits (s : string) : result Z :=
  match s with
  | EmptyString => Raise ValueError
  | _ => match digits 0 s with
         | Some z => Ok z
         | None => Raise ValueError
         end
  end.

(** The number after the last dot, 0 where there is none to read. *)
Definition number_of (x : string) : Z :=
  match checkpoint_key int_of_digits x with
  | Ok z => z
  | Raise _ => 0%Z
  end.

Definition topd : string := "/models/pretrained/".

(** A training run as it lies on disk. *)
Definition listing : list string :=
  ["xc.eqx.5"; "xc.eqx.25"; "log.txt"; "xc"; "xc.eqx.10"]%string.
(** The same run before any copy was made, listed in another order. *)
Definition listing' : list string :=
  ["xc.eqx.10"; "xc.eqx.5"; "log.txt"; "xc.eqx.25"]%string.
(** A run with a checkpoint that carries no number. *)
Definition listing_unnumbered : list string :=
  ["xc.eqx.5"; "xc.eqx"; "xc.eqx.oops"]%string.

Definition missing {X : Type} : result X := Raise (OtherError "FileNotFoundError").

Definition disk : filesystem := {|
  listdir := fun path =>
    if String.eqb path "/models/pretrained/pbe0" then
      Ok ["x_3_16_mgga"; "notes.txt"]%string
    else if String.eqb path "/models/pretrained/scan" then Ok ["c_3_16_mgga"]%string
    else if String.eqb path "/models/pretrained/pbe0/x_3_16_mgga" then Ok listing
    else if String.eqb path "/models/pretrained/scan/c_3_16_mgga" then Ok listing'
    else if String.eqb path "/models/pretrained/pbe0/notes.txt" then
      Raise (OtherError "NotADirectoryError")
    else if String.eqb path "/models/pretrained/b3lyp" then Ok ["fresh_run"]%string
    else if String.eqb path "/models/pretrained/b3lyp/fresh_run" then
      Ok ["log.txt"; "xc"]%string
    else missing;
  isdir := fun path =>
    String.eqb path "/models/pretrained/pbe0"
    || String.eqb path "/models/pretrained/scan"
    || String.eqb path "/models/pretrained/b3lyp"
    || String.eqb path "/models/pretrained/pbe0/x_3_16_mgga"
    || String.eqb path "/models/pretrained/scan/c_3_16_mgga"
    || String.eqb path "/models/pretrained/b3lyp/fresh_run"
|}.

(** What [disk] lists under a model class. *)
Definition disk_names (xc : string) : list string :=
  match listdir disk (join topd [xc]) with
  | Ok names => names
  | Raise _ => []
  end.

End NotebookExamples.
(** ** More inputs for whole runs *)
Module RunExamples.

(** A density matrix that is not square. *)
Definition dm_2x3 : tensor spec_float :=
  T2 [[Examples.f1; Examples.f0; Examples.f0]; [Examples.f0; Examples.f1; Examples.f0]].

(** An evaluator whose [exc] is one value short. *)
Definition short_exc_eval_xc {A : Type} `{Scalar A}
    (c : Numint.call A (list (list A)) (list (list A)))
    : result (Numint.xc_return A) :=
  match c with
  | Numint.Extended _ _ _ _ _ _ _ _ _ => Raise TypeError
  | Numint.Minimal _ rho _ _ _ _ =>
      Ok {| Numint.ret_exc := tl (Examples.rho_values rho);
            Numint.ret_vxc := [Some (Examples.rho_values rho); None; None; None];
            Numint.ret_more := [] |}
  end.

(** An evaluator whose [vxc] has three components. *)
Definition three_component_eval_xc {A : Type} `{Scalar A}
    (c : Numint.call A (list (list A)) (list (list A)))
    : result (Numint.xc_return A) :=
  match c with
  | Numint.Extended _ _ _ _ _ _ _ _ _ => Raise TypeError
  | Numint.Minimal _ rho _ _ _ _ =>
      Ok {| Numint.ret_exc := Examples.rho_values rho;
            Numint.ret_vxc := [Some (Examples.rho_values rho); None; None];
            Numint.ret_more := [] |}
  end.

(** Two grid points with three weights. *)
Definition block_ragged : Numint.block Z (list (list Z)) unit (list (list Z)) :=
  {| Numint.ao := [[1; 2]; [3; 4]]%Z; Numint.mask := tt;
     Numint.weight := [1; 2; 3]%Z;
     Numint.coords := [[0; 0; 0]; [0; 0; 1]]%Z |}.

(** [2^53]: from here on binary64 holds even integers only. *)
Definition f2p53 : spec_float := S754_finite false 4503599627370496 1.

(** A block of grid points with one orbital value each (the density at
    the point) and weight one. *)
Definition block_of (values : list spec_float)
    : Numint.block spec_float (list (list spec_float)) unit (list (list spec_float)) :=
  {| Numint.ao := map (fun v => [v]) values; Numint.mask := tt;
     Numint.weight := map (fun _ => Examples.f1) values;
     Numint.coords := [] |}.

(** The grid points with densities [2^53, 1, 1], cut after the first
    point and cut after the second. *)
Definition cut_early
    : list (Numint.block spec_float (list (list spec_float)) unit (list (list spec_float))) :=
  [block_of [f2p53]; block_of [Examples.f1; Examples.f1]].
Definition cut_late
    : list (Numint.block spec_float (list (list spec_float)) unit (list (list spec_float))) :=
  [block_of [f2p53; Examples.f1]; block_of [Examples.f1]].

(** Accumulators with room for two density sets more than are in use. *)
Definition wide_store : Numint.store Z (list (list Z)) (list (list Z)) :=
  {| Numint.nelec := [0; 10; 20]%Z; Numint.excsum := [0; 30; 40]%Z; Numint.out := [] |}.

End RunExamples.


(* ================================================================== *)
(** * The carriers obey their laws *)
(* ================================================================== *)

(** ** binary64: multiplying by 1.0 is exact on valid finite numbers *)

Lemma digits2_shift52 (m : positive) :
  Zdigits2 (Z.pos (4503599627370496 * m)) = (Z.pos (digits2_pos m) + 52)%Z.
Proof. unfold Pos.mul. cbn [Zdigits2 digits2_pos]. lia. Qed.

Lemma b64_mul_one_finite_l (s : bool) (m : positive) (e : Z) :
  bounded 53 1024 m e = true ->
  b64_mul b64_one (S754_finite s m e) = S754_finite s m e.
Proof.
  intros Hb. unfold bounded, canonical_mantissa in Hb.
  apply andb_prop in Hb as [Hc He]. apply Z.eqb_eq in Hc.
  unfold b64_mul, SFmul, b64_one. cbn [xorb].
  unfold binary_round_aux, shr_fexp at 1.
  rewrite digits2_shift52.
  replace (Z.pos (digits2_pos m) + 52 + (-52 + e))%Z
    with (Z.pos (digits2_pos m) + e)%Z by lia.
  rewrite Hc. replace (e - (-52 + e))%Z with 52%Z by lia.
  unfold Pos.mul.
  cbn [shr shr_record_of_loc SpecFloat.iter_pos shr_1 shr_m loc_of_shr_record
       round_nearest_even orb].
  replace (-52 + e + 52)%Z with e by lia.
  unfold shr_fexp. cbn [Zdigits2]. rewrite Hc, Z.sub_diag.
  cbn [shr shr_record_of_loc shr_m]. now rewrite He.
Qed.

Lemma b64_mul_one_finite_r (s : bool) (m : positive) (e : Z) :
  bounded 53 1024 m e = true ->
  b64_mul (S754_finite s m e) b64_one = S754_finite s m e.
Proof.
  intros Hb. rewrite <- (b64_mul_one_finite_l s m e Hb) at 2.
  unfold b64_mul, SFmul, b64_one.
  now rewrite Pos.mul_comm, Z.add_comm, xorb_false_r.
Qed.

Lemma SFeqb_finite_refl (s : bool) (m : positive) (e : Z) :
  SFeqb (S754_finite s m e) (S754_finite s m e) = true.
Proof.
  unfold SFeqb, SFcompare.
  destruct s; rewrite Z.compare_refl;
    change (Pos.compare_cont Eq m m) with (Pos.compare m m);
    now rewrite Pos.compare_refl.
Qed.

Lemma SFeqb_refl_finite (x : spec_float) :
  b64_isfinite x = true -> SFeqb x x = true.
Proof.
  destruct x as [s|s| |s m e]; try discriminate; intros _.
  - reflexivity.
  - apply SFeqb_finite_refl.
Qed.

Lemma SFcompare_finite_eq (s1 s2 : bool) (m1 m2 : positive) (e1 e2 : Z) :
  SFcompare (S754_finite s1 m1 e1) (S754_finite s2 m2 e2) = Some Eq ->
  s1 = s2 /\ m1 = m2 /\ e1 = e2.
Proof.
  unfold SFcompare.
  destruct s1, s2; try discriminate;
    destruct (Z.compare_spec e1 e2) as [-> | |]; try discriminate;
    change (Pos.compare_cont Eq m1 m2) with (Pos.compare m1 m2);
    destruct (Pos.compare_spec m1 m2) as [-> | |]; try discriminate; auto.
Qed.

(** [==] on values one of which is finite: both are zeros, or they are
    the same number. *)
Lemma SFeqb_finite_cases (x y : spec_float) :
  SFeqb x y = true -> b64_isfinite y = true ->
  (exists s s', x = S754_zero s /\ y = S754_zero s') \/ (x = y /\ b64_isfinite x = true).
Proof.
  intros Hc Hf.
  destruct y as [s'|s'| |s' m' e']; try discriminate Hf;
    destruct x as [s|s| |s m e]; try (destruct s; discriminate Hc);
    try discriminate Hc.
  - left. eauto.
  - destruct s'; discriminate Hc.
  - right. unfold SFeqb in Hc.
    destruct (SFcompare (S754_finite s m e) (S754_finite s' m' e')) as [[]|] eqn:E;
      try discriminate.
    apply SFcompare_finite_eq in E as (-> & -> & ->). auto.
Qed.

Lemma SFeqb_zero (x : spec_float) :
  SFeqb x (S754_zero false) = true -> exists s, x = S754_zero s.
Proof.
  intros Hx. destruct (SFeqb_finite_cases _ _ Hx eq_refl) as [(s & s' & -> & _) | [-> _]];
    eauto.
Qed.

Lemma SFeqb_sym (x y : spec_float) : SFeqb x y = true -> SFeqb y x = true.
Proof.
  intros Hc.
  destruct x as [s1|[]| |s1 m1 e1], y as [s2|[]| |s2 m2 e2];
    try discriminate Hc; try reflexivity;
    try (destruct s1; discriminate Hc); try (destruct s2; discriminate Hc).
  unfold SFeqb in Hc.
  destruct (SFcompare (S754_finite s1 m1 e1) (S754_finite s2 m2 e2)) as [[]|] eqn:E;
    try discriminate.
  apply SFcompare_finite_eq in E as (-> & -> & ->). apply SFeqb_finite_refl.
Qed.

Lemma SFeqb_trans (x y z : spec_float) :
  SFeqb x y = true -> SFeqb y z = true -> SFeqb x z = true.
Proof.
  intros H1 H2.
  destruct y as [s2|s2| |s2 m2 e2].
  - assert (exists s, x = S754_zero s) as [s1 ->].
    { destruct x as [s|[]| |[] m e]; try discriminate H1; eauto. }
    destruct z as [s3|[]| |[] m3 e3]; try discriminate H2; reflexivity.
  - assert (x = S754_infinity s2) as ->; [|exact H2].
    destruct x as [s|[]| |[] m e], s2; try discriminate H1; reflexivity.
  - destruct x; discriminate H1.
  - assert (x = S754_finite s2 m2 e2) as ->; [|exact H2].
    destruct x as [s|[]| |s m e]; try discriminate H1.
    + destruct s2; discriminate H1.
    + unfold SFeqb in H1.
      destruct (SFcompare (S754_finite s m e) (S754_finite s2 m2 e2)) as [[]|] eqn:E;
        try discriminate.
      apply SFcompare_finite_eq in E as (-> & -> & ->). reflexivity.
Qed.

#[export] Instance binary64_identity_laws : IdentityLaws spec_float.
Proof.
  split; unfold num_eq, regular; cbn [zero one add mul isnan isfinite eqb valid binary64].
  - split; reflexivity.
  - intros x [_ Hf]. now apply SFeqb_refl_finite.
  - apply SFeqb_sym.
  - apply SFeqb_trans.
  - intros x y Hxy [Hv Hf].
    destruct (SFeqb_finite_cases _ _ Hxy Hf) as [(s & s' & -> & _) | [-> Hx]]; auto.
  - intros x [_ Hf]. destruct x; try discriminate; reflexivity.
  - intros x [_ Hf]. destruct x; try discriminate; reflexivity.
  - intros x [Hv Hf]. destruct x as [s|s| |s m e]; try discriminate.
    + reflexivity.
    + rewrite b64_mul_one_finite_l by exact Hv. apply SFeqb_finite_refl.
  - intros x [Hv Hf]. destruct x as [s|s| |s m e]; try discriminate.
    + destruct s; reflexivity.
    + rewrite b64_mul_one_finite_r by exact Hv. apply SFeqb_finite_refl.
  - intros x y v Hx Hy [Hv Hf].
    apply SFeqb_zero in Hx as [s ->].
    destruct (SFeqb_finite_cases _ _ Hy Hf) as [(s1 & s2 & -> & ->) | [-> Hfy]].
    + destruct s, s1; reflexivity.
    + destruct v as [s'|s'| |s' m e]; try discriminate.
      * destruct s, s'; reflexivity.
      * apply SFeqb_finite_refl.
  - intros x y v Hx [Hv Hf] Hy.
    apply SFeqb_zero in Hy as [s ->].
    destruct (SFeqb_finite_cases _ _ Hx Hf) as [(s1 & s2 & -> & ->) | [-> Hfx]].
    + destruct s, s1; reflexivity.
    + destruct v as [s'|s'| |s' m e]; try discriminate.
      * destruct s, s'; reflexivity.
      * apply SFeqb_finite_refl.
Qed.

#[export] Instance binary64_classification : Classification spec_float.
Proof. split. intros x. destruct x; cbn; congruence. Qed.

(** ** The integers *)

#[export] Instance exactZ_exact : ExactArith Z.
Proof.
  split; cbn [zero add exactZ]; intros; lia.
Qed.

#[export] Instance exactZ_identity_laws : IdentityLaws Z.
Proof.
  split; unfold num_eq, regular; cbn [zero one add mul isnan isfinite eqb valid exactZ];
    intros; rewrite ?Z.eqb_eq in *; try split; try lia; try reflexivity; try discriminate.
Qed.

#[export] Instance exactZ_classification : Classification Z.
Proof. split. reflexivity. Qed.


(* ================================================================== *)
(** * Lists as arrays *)
(* ================================================================== *)

Lemma map_fmap {X Y : Type} (f : X -> Y) (l : list X) : map f l = f <$> l.
Proof. induction l as [|x l IH]; [reflexivity | simpl; now rewrite IH]. Qed.

Section IdentityProduct.
Context {A : Type} `{IdentityLaws A}.

(** Adding terms that are all zero leaves a sum where it is. *)
Lemma sum_zeros (ts : list A) (acc x : A) :
  num_eq acc x -> regular x -> Forall (fun t => num_eq t zero) ts ->
  num_eq (fold_left add ts acc) x.
Proof.
  intros Hacc Hx Hts. revert acc Hacc.
  induction Hts as [|t ts Ht _ IH]; intros acc Hacc; simpl; [exact Hacc|].
  apply IH. now apply add_zero_r.
Qed.

(** A sum with one term that is not zero is that term. *)
Lemma sum_one_hot (ts : list A) (i : nat) (x : A) :
  i < length ts -> regular x ->
  (forall j t, ts !! j = Some t -> if Nat.eqb j i then num_eq t x else num_eq t zero) ->
  num_eq (vsum ts) x.
Proof.
  intros Hi Hx Hts.
  destruct (lookup_lt_is_Some_2 ts i Hi) as [t Ht].
  rewrite <- (take_drop_middle ts i t Ht). unfold vsum.
  rewrite fold_left_app. simpl.
  apply sum_zeros; [|exact Hx|].
  - apply add_zero_l; [|specialize (Hts i t Ht); now rewrite Nat.eqb_refl in Hts|exact Hx].
    apply sum_zeros; [apply num_eq_refl, regular_zero | apply regular_zero|].
    apply Forall_lookup_2. intros j y Hy.
    apply lookup_take_Some in Hy as [Hy Hj].
    specialize (Hts j y Hy). destruct (Nat.eqb_spec j i); [lia | exact Hts].
  - apply Forall_lookup_2. intros j y Hy.
    rewrite lookup_drop in Hy.
    specialize (Hts _ y Hy). destruct (Nat.eqb_spec (S i + j) i); [lia | exact Hts].
Qed.

Lemma sum_all_zero (ts : list A) :
  Forall (fun t => num_eq t zero) ts -> num_eq (vsum ts) zero.
Proof.
  intros Hts. apply sum_zeros; [apply num_eq_refl| |exact Hts]; apply regular_zero.
Qed.

Lemma lookup_unit_row (n i j : nat) (a : A) :
  unit_row n i !! j = Some a -> j < n /\ a = if Nat.eqb i j then one else zero.
Proof.
  unfold unit_row. rewrite map_fmap, list_lookup_fmap.
  destruct (seq 0 n !! j) as [k|] eqn:E; [|discriminate].
  apply lookup_seq in E as [-> Hj]. simpl. intros [= <-]. auto.
Qed.

Lemma length_unit_row (n i : nat) : length (unit_row n i) = n.
Proof. unfold unit_row. now rewrite length_map, length_seq. Qed.

Lemma dot_unit_l (n i : nat) (v : list A) (x : A) :
  length v = n -> Forall regular v -> v !! i = Some x ->
  num_eq (dot_raw (unit_row n i) v) x.
Proof.
  intros Hn Hv Hx. unfold dot_raw.
  assert (Hi : i < n) by (rewrite <- Hn; eapply lookup_lt_Some; eauto).
  apply (sum_one_hot _ i).
  - rewrite length_zip_with, length_unit_row. lia.
  - eapply Forall_lookup_1; eauto.
  - intros j t Ht. apply lookup_zip_with_Some in Ht as (a & y & -> & Ha & Hy).
    apply lookup_unit_row in Ha as [Hj ->].
    assert (regular y) by (eapply Forall_lookup_1; eauto).
    rewrite (Nat.eqb_sym j i).
    destruct (Nat.eqb_spec i j) as [<-|_].
    + rewrite Hx in Hy. injection Hy as <-. now apply mul_one_l.
    + now apply mul_zero_l.
Qed.

Lemma dot_unit_r (n i : nat) (v : list A) (x : A) :
  length v = n -> Forall regular v -> v !! i = Some x ->
  num_eq (dot_raw v (unit_row n i)) x.
Proof.
  intros Hn Hv Hx. unfold dot_raw.
  assert (Hi : i < n) by (rewrite <- Hn; eapply lookup_lt_Some; eauto).
  apply (sum_one_hot _ i).
  - rewrite length_zip_with, length_unit_row. lia.
  - eapply Forall_lookup_1; eauto.
  - intros j t Ht. apply lookup_zip_with_Some in Ht as (y & a & -> & Hy & Ha).
    apply lookup_unit_row in Ha as [Hj ->].
    assert (regular y) by (eapply Forall_lookup_1; eauto).
    rewrite (Nat.eqb_sym j i).
    destruct (Nat.eqb_spec i j) as [<-|_].
    + rewrite Hx in Hy. injection Hy as <-. now apply mul_one_r.
    + now apply mul_zero_r.
Qed.

End IdentityProduct.

Section ArrayShapes.
Context {A : Type} `{Scalar A}.

Lemma Forall2_tabulate {X Y : Type} (R : X -> Y -> Prop) (f : nat -> X)
    (l : list Y) (n : nat) :
  length l = n -> (forall i y, l !! i = Some y -> R (f i) y) ->
  Forall2 R (map f (seq 0 n)) l.
Proof.
  intros Hn Hf. apply Forall2_same_length_lookup_2.
  - now rewrite length_map, length_seq.
  - intros i x y Hx Hy. rewrite map_fmap, list_lookup_fmap in Hx.
    destruct (seq 0 n !! i) as [k|] eqn:E; [|discriminate].
    apply lookup_seq in E as [-> _]. injection Hx as <-. now apply Hf.
Qed.

Lemma nth_unit_row (n i j : nat) :
  j < n -> nth j (unit_row n i) zero = if Nat.eqb i j then one else zero.
Proof.
  intros Hj. rewrite nth_lookup.
  destruct (lookup_lt_is_Some_2 (unit_row n i) j) as [a Ha].
  - now rewrite length_unit_row.
  - rewrite Ha. unfold unit_row in Ha.
    rewrite map_fmap, list_lookup_fmap in Ha.
    destruct (seq 0 n !! j) as [k|] eqn:E; [|discriminate].
    apply lookup_seq in E as [-> _]. now injection Ha as <-.
Qed.

Lemma length_eye (n : nat) : length (eye n) = n.
Proof. unfold eye. now rewrite length_map, length_seq. Qed.

Lemma ncols_eye (n : nat) : ncols (eye n) = n.
Proof.
  destruct n as [|n]; [reflexivity|].
  unfold ncols, eye. cbn [seq map hd]. apply length_unit_row.
Qed.

Lemma lookup_eye (n i : nat) (row : list A) :
  eye n !! i = Some row -> i < n /\ row = unit_row n i.
Proof.
  unfold eye. rewrite map_fmap, list_lookup_fmap.
  destruct (seq 0 n !! i) as [k|] eqn:E; [|discriminate].
  apply lookup_seq in E as [-> Hi]. simpl. intros [= <-]. auto.
Qed.

(** The identity matrix is its own transpose. *)
Lemma transpose_eye (n : nat) : transpose (eye n) = eye n.
Proof.
  unfold transpose. rewrite ncols_eye. unfold eye at 2.
  apply map_ext_in. intros j Hj. apply in_seq in Hj.
  unfold column, eye, unit_row at 2. rewrite map_map.
  apply map_ext_in. intros i _.
  rewrite nth_unit_row by lia. now rewrite Nat.eqb_sym.
Qed.

Lemma ncols_matrix (n k : nat) (m : list (list A)) :
  is_matrix n k m -> 0 < n -> ncols m = k.
Proof.
  intros [Hn Hk] Hpos. destruct m as [|r m]; [simpl in Hn; lia|].
  unfold ncols. simpl. now inversion Hk.
Qed.

Lemma lookup_column (m : list (list A)) (j i : nat) (x : A) :
  column m j !! i = Some x <-> exists row, m !! i = Some row /\ x = nth j row zero.
Proof.
  unfold column. rewrite map_fmap, list_lookup_fmap.
  destruct (m !! i) as [row|]; simpl; split.
  - intros [= <-]. eauto.
  - intros (r & [= <-] & ->). reflexivity.
  - discriminate.
  - intros (r & [=] & _).
Qed.

Lemma length_column (m : list (list A)) (j : nat) : length (column m j) = length m.
Proof. unfold column. now rewrite length_map. Qed.

End ArrayShapes.

Section IdentityMatmul.
Context {A : Type} `{IdentityLaws A}.

Lemma close_is_matrix (n k : nat) (m1 m2 : list (list A)) :
  close m1 m2 -> is_matrix n k m2 -> is_matrix n k m1.
Proof.
  intros Hc [Hn Hk]. split.
  - rewrite <- Hn. eapply Forall2_length; eauto.
  - apply Forall_lookup_2. intros i r1 Hr1.
    destruct (Forall2_lookup_l _ _ _ _ _ Hc Hr1) as (r2 & Hr2 & Hrow).
    rewrite (Forall2_length _ _ _ Hrow). eapply Forall_lookup_1 in Hk; eauto.
Qed.

Lemma close_regular (m1 m2 : list (list A)) :
  close m1 m2 -> all_regular m2 -> all_regular m1.
Proof.
  intros Hc Hr. apply Forall_lookup_2. intros i r1 Hr1.
  destruct (Forall2_lookup_l _ _ _ _ _ Hc Hr1) as (r2 & Hr2 & Hrow).
  apply Forall_lookup_2. intros j x Hx.
  destruct (Forall2_lookup_l _ _ _ _ _ Hrow Hx) as (y & Hy & Hxy).
  eapply num_eq_regular; [exact Hxy|].
  eapply Forall_lookup_1; [|exact Hy]. eapply Forall_lookup_1; eauto.
Qed.

Lemma close_trans (m1 m2 m3 : list (list A)) :
  close m1 m2 -> close m2 m3 -> close m1 m3.
Proof.
  intros H12 H23. apply Forall2_same_length_lookup_2.
  - rewrite (Forall2_length _ _ _ H12). eapply Forall2_length; eauto.
  - intros i r1 r3 Hr1 Hr3.
    destruct (Forall2_lookup_l _ _ _ _ _ H12 Hr1) as (r2 & Hr2 & Hrow12).
    pose proof (Forall2_lookup_lr _ _ _ _ _ _ H23 Hr2 Hr3) as Hrow23.
    apply Forall2_same_length_lookup_2.
    + rewrite (Forall2_length _ _ _ Hrow12). eapply Forall2_length; eauto.
    + intros j x z Hx Hz.
      destruct (Forall2_lookup_l _ _ _ _ _ Hrow12 Hx) as (y & Hy & Hxy).
      eapply num_eq_trans; [exact Hxy|].
      eapply Forall2_lookup_lr; eauto.
Qed.

(** [v . eye(n)] is [v], entry by entry. *)
Lemma row_times_eye (n : nat) (v : list A) :
  length v = n -> Forall regular v ->
  Forall2 num_eq (map (dot_raw v) (eye n)) v.
Proof.
  intros Hn Hv. unfold eye. rewrite map_map.
  apply Forall2_tabulate; [exact Hn|].
  intros i y Hy. now apply dot_unit_r.
Qed.

Lemma matmul_eye_r (n : nat) (m : list (list A)) :
  is_matrix n n m -> all_regular m ->
  exists r, matmul m (transpose (eye n)) = Ok r /\ close r m.
Proof.
  intros Hm Hreg. unfold matmul. rewrite transpose_eye.
  replace (Nat.eqb (ncols m) (nrows (eye n))) with true.
  2:{ symmetry. apply Nat.eqb_eq. unfold nrows. rewrite length_eye.
      destruct n as [|n]; [|eapply ncols_matrix; eauto; lia].
      destruct Hm as [Hl _]. destruct m; [reflexivity | discriminate]. }
  rewrite transpose_eye. eexists; split; [reflexivity|].
  destruct Hm as [_ Hk]. unfold close.
  induction m as [|row m IH]; [constructor|].
  inversion Hk; subst. inversion Hreg; subst.
  constructor; [now apply row_times_eye | auto].
Qed.

Lemma matmul_eye_l (n : nat) (m : list (list A)) :
  is_matrix n n m -> all_regular m ->
  exists r, matmul (eye n) m = Ok r /\ close r m.
Proof.
  intros Hm Hreg. unfold matmul.
  rewrite ncols_eye. unfold nrows. destruct Hm as [Hn Hk].
  rewrite Hn, Nat.eqb_refl. eexists; split; [reflexivity|].
  unfold close, eye. rewrite map_map.
  apply Forall2_tabulate; [exact Hn|].
  intros i row Hrow.
  assert (Hi : i < n) by (rewrite <- Hn; eapply lookup_lt_Some; eauto).
  assert (Hlen : length row = n) by (eapply Forall_lookup_1 in Hk; eauto).
  assert (Hrr : Forall regular row) by (eapply Forall_lookup_1 in Hreg; eauto).
  unfold transpose. rewrite (ncols_matrix n n m) by first [lia | split; assumption].
  rewrite map_map. apply Forall2_tabulate; [exact Hlen|].
  intros j x Hx.
  apply (dot_unit_l n i).
  - now rewrite length_column.
  - apply Forall_lookup_2. intros i' y Hy.
    apply lookup_column in Hy as (row' & Hrow' & ->).
    assert (length row' = n) by (eapply Forall_lookup_1 in Hk; eauto).
    assert (Forall regular row') by (eapply Forall_lookup_1 in Hreg; eauto).
    destruct (lookup_lt_is_Some_2 row' j) as [y Hy].
    { assert (j < length row) by (eapply lookup_lt_Some; eauto). lia. }
    rewrite (nth_lookup_Some _ _ _ _ Hy). eapply Forall_lookup_1; eauto.
  - apply lookup_column. exists row. split; [exact Hrow|].
    symmetry. now apply nth_lookup_Some.
Qed.

End IdentityMatmul.

Section IdentityContract.
Context {A : Type} `{IdentityLaws A}.

Lemma scaled_regular (a b y : A) : num_eq (mul a b) y -> regular y -> regular (mul a b).
Proof. intros. eapply num_eq_regular; eauto. Qed.

(** The inner sum of [contract] against the identity, for the row of
    the identity that selects this row of [v] ... *)
Lemma inner_hit (n c : nat) (vj : list A) (x : A) :
  length vj = n -> Forall regular vj -> vj !! c = Some x ->
  num_eq (vsum (zip_with (fun b rk => mul (mul one b) (nth c rk zero)) vj (eye n))) x.
Proof.
  intros Hn Hv Hx.
  assert (Hc : c < n) by (rewrite <- Hn; eapply lookup_lt_Some; eauto).
  assert (Hrx : regular x) by (eapply Forall_lookup_1; eauto).
  apply (sum_one_hot _ c).
  - rewrite length_zip_with, length_eye. lia.
  - exact Hrx.
  - intros k t Ht. apply lookup_zip_with_Some in Ht as (b & rk & -> & Hb & Hrk).
    apply lookup_eye in Hrk as [Hk ->]. rewrite nth_unit_row by exact Hc.
    assert (Hrb : regular b) by (eapply Forall_lookup_1; eauto).
    pose proof (mul_one_l b Hrb) as H1.
    destruct (Nat.eqb_spec k c) as [->|_].
    + rewrite Hx in Hb. injection Hb as <-.
      eapply num_eq_trans; [|exact H1].
      apply mul_one_r. eapply scaled_regular; eauto.
    + apply mul_zero_r. eapply scaled_regular; eauto.
Qed.

(** ... and for every other row of the identity. *)
Lemma inner_miss (n c : nat) (vj : list A) :
  c < n -> Forall regular vj ->
  num_eq (vsum (zip_with (fun b rk => mul (mul zero b) (nth c rk zero)) vj (eye n))) zero.
Proof.
  intros Hc Hv. apply sum_all_zero, Forall_lookup_2.
  intros k t Ht. apply lookup_zip_with_Some in Ht as (b & rk & -> & Hb & Hrk).
  apply lookup_eye in Hrk as [Hk ->]. rewrite nth_unit_row by exact Hc.
  assert (Hrb : regular b) by (eapply Forall_lookup_1; eauto).
  pose proof (mul_zero_l b Hrb) as Hz.
  assert (regular (mul zero b)) by (eapply scaled_regular; eauto; apply regular_zero).
  destruct (Nat.eqb k c).
  - eapply num_eq_trans; [|exact Hz]. now apply mul_one_r.
  - now apply mul_zero_r.
Qed.

(** One slice of the [einsum] against the identity on both sides. *)
Lemma contract_eye (n : nat) (v : list (list A)) :
  is_matrix n n v -> all_regular v ->
  close (contract (eye n) v (transpose (eye n))) v.
Proof.
  intros [Hn Hk] Hreg. unfold contract. rewrite transpose_eye, ncols_eye.
  unfold close, eye at 2. rewrite map_map.
  apply Forall2_tabulate; [exact Hn|]. intros i row Hrow.
  assert (Hi : i < n) by (rewrite <- Hn; eapply lookup_lt_Some; eauto).
  assert (Hlen : length row = n) by (eapply Forall_lookup_1 in Hk; eauto).
  assert (Hrr : Forall regular row) by (eapply Forall_lookup_1 in Hreg; eauto).
  apply Forall2_tabulate; [exact Hlen|]. intros c x Hx.
  assert (Hc : c < n) by (rewrite <- Hlen; eapply lookup_lt_Some; eauto).
  apply (sum_one_hot _ i).
  - rewrite length_zip_with, length_unit_row. lia.
  - eapply Forall_lookup_1; eauto.
  - intros j t Ht. apply lookup_zip_with_Some in Ht as (a & vj & -> & Ha & Hvj).
    apply lookup_unit_row in Ha as [Hj ->].
    assert (length vj = n) by (eapply Forall_lookup_1 in Hk; eauto).
    assert (Forall regular vj) by (eapply Forall_lookup_1 in Hreg; eauto).
    rewrite (Nat.eqb_sym j i).
    destruct (Nat.eqb_spec i j) as [<-|_].
    + rewrite Hrow in Hvj. injection Hvj as <-. now apply inner_hit.
    + now apply inner_miss.
Qed.

End IdentityContract.


(* ================================================================== *)
(** * [get_veff]: what the patched region does *)
(* ================================================================== *)

Section GetVeffRuns.
Context {A : Type} `{Scalar A} {Other : Type}.
Implicit Types (s : Rks.state A Other) (dm : tensor A).

Lemma primary_run s dm : Rks.primary dm s = (Ok tt, Rks.after_primary s dm).
Proof.
  unfold Rks.primary, Rks.after_primary, bind, gets, modify.
  destruct (Rks.nr_rks _ _ dm) as [[n e] v]. reflexivity.
Qed.

Lemma after_primary_fields s dm :
  Rks.st_n (Rks.after_primary s dm) = fst (fst (Rks.classical s dm))
  /\ Rks.exc (Rks.st_vxc (Rks.after_primary s dm)) = snd (fst (Rks.classical s dm))
  /\ Rks.vxc (Rks.st_vxc (Rks.after_primary s dm)) = snd (Rks.classical s dm)
  /\ Rks.other (Rks.st_vxc (Rks.after_primary s dm)) = Rks.other (Rks.st_vxc s)
  /\ Rks.st_ks (Rks.after_primary s dm) = Rks.st_ks s
  /\ Rks.st_out (Rks.after_primary s dm) = Rks.st_out s.
Proof.
  unfold Rks.after_primary, Rks.classical.
  destruct (Rks.nr_rks _ _ dm) as [[n e] v]. repeat split.
Qed.

Lemma network_fallback_run s dm :
  Rks.network_fallback dm s =
  let ks := Rks.st_ks s in
  let s2 := Rks.with_output (Rks.fallback_output s dm) s in
  match Rks.restore_symmetry (eye (shape_last dm))
          (Rks.grad (Rks.network_eval ks) dm) with
  | Ok t => (Ok tt, Rks.set_exc (val (Rks.network_eval ks (Rks.lift dm))) (Rks.set_vxc t s2))
  | Raise e => (Raise e, s2)
  end.
Proof.
  unfold Rks.network_fallback, Rks.value_and_grad, Rks.fallback_output, Rks.with_output,
    Rks.emit, bind, gets, modify, lift_result, ret.
  cbn [Rks.st_ks Rks.st_n Rks.st_vxc Rks.st_out].
  destruct (Rks.network_verbose (Rks.st_ks s)); cbn [Rks.st_ks Rks.st_n Rks.st_vxc Rks.st_out];
    rewrite <- ?app_assoc; cbn [app];
    destruct (Rks.restore_symmetry _ _); rewrite ?app_nil_r; reflexivity.
Qed.

Lemma get_veff_run s dm :
  Rks.get_veff dm s =
  if isnan (snd (fst (Rks.classical s dm)))
  then Rks.network_fallback dm (Rks.after_primary s dm)
  else (Ok tt, Rks.after_primary s dm).
Proof.
  unfold Rks.get_veff, bind at 1. rewrite primary_run.
  unfold bind, gets.
  destruct (after_primary_fields s dm) as (_ & -> & _).
  destruct (isnan _); reflexivity.
Qed.

Lemma network_calls_app (o1 o2 : list (Rks.event A)) :
  Rks.network_calls (o1 ++ o2) = Rks.network_calls o1 + Rks.network_calls o2.
Proof. unfold Rks.network_calls. now rewrite List.filter_app, length_app. Qed.

Lemma network_calls_fallback s dm :
  Rks.network_calls (Rks.fallback_output s dm) = S (Rks.network_calls (Rks.st_out s)).
Proof.
  unfold Rks.fallback_output. rewrite !network_calls_app.
  destruct (Rks.network_verbose _); cbn; lia.
Qed.

(** The gradient has the shape of its argument. *)
Lemma grad2_is_matrix (f : tensor (dual A) -> dual A) dm (x n k : nat)
    (m : list (list A)) :
  is_matrix n k m -> is_matrix n k (Rks.grad2 f dm x m).
Proof.
  intros [Hn Hk]. unfold Rks.grad2. split; [now rewrite length_imap|].
  apply Forall_lookup_2. intros i row Hrow.
  apply list_lookup_imap_Some in Hrow as (r & Hr & ->).
  rewrite length_imap. eapply Forall_lookup_1 in Hk; eauto.
Qed.

End GetVeffRuns.

Section SymmetryStep.
Context {A : Type} `{Scalar A}.

Lemma is_matrix_0 (k : nat) (m : list (list A)) : is_matrix 0 k m -> m = [].
Proof. intros [Hn _]. now destruct m. Qed.

Lemma ncols_square (n : nat) (m : list (list A)) : is_matrix n n m -> ncols m = n.
Proof.
  intros Hm. destruct n as [|n]; [now rewrite (is_matrix_0 _ _ Hm)|].
  eapply ncols_matrix; eauto. lia.
Qed.

(** On a square operand of the size of [L] the two products go through. *)
Lemma matmul_shape_ok (a b : list (list A)) :
  ncols a = nrows b ->
  matmul a b = Ok (map (fun row => map (dot_raw row) (transpose b)) a).
Proof. intros Hs. unfold matmul. now rewrite Hs, Nat.eqb_refl. Qed.

Lemma two_sided_eye_ok (n : nat) (m : list (list A)) :
  is_matrix n n m ->
  exists inner r, matmul m (transpose (eye n)) = Ok inner
                  /\ matmul (eye n) inner = Ok r
                  /\ two_sided (eye n) m = Ok r.
Proof.
  intros Hm. unfold two_sided.
  rewrite (matmul_shape_ok m (transpose (eye n))).
  2:{ rewrite transpose_eye. unfold nrows. now rewrite length_eye, (ncols_square n m Hm). }
  rewrite matmul_shape_ok.
  2:{ unfold nrows. rewrite ncols_eye, length_map. now destruct Hm. }
  do 2 eexists. repeat split; try reflexivity.
  apply matmul_shape_ok. unfold nrows. rewrite ncols_eye, length_map. now destruct Hm.
Qed.

Lemma einsum_eye_ok (n : nat) (ms : list (list (list A))) :
  Forall (is_matrix n n) ms ->
  einsum_ij_xjk_kl (eye n) ms (transpose (eye n))
  = Ok (map (fun m => contract (eye n) m (transpose (eye n))) ms).
Proof.
  intros Hms. unfold einsum_ij_xjk_kl.
  replace (forallb _ ms) with true; [reflexivity|].
  symmetry. apply forallb_forall. intros m Hm.
  apply list_elem_of_In in Hm.
  pose proof (proj1 (Forall_forall _ _) Hms m Hm) as Hsq.
  rewrite transpose_eye, ncols_eye. unfold nrows.
  rewrite length_eye, (ncols_square n m Hsq).
  destruct Hsq as [-> _]. now rewrite !Nat.eqb_refl.
Qed.

Lemma grad_square (f : tensor (dual A) -> dual A) (dm : tensor A) :
  square dm ->
  match Rks.grad f dm with
  | T2 g => is_matrix (shape_last dm) (shape_last dm) g
  | T3 gs => Forall (is_matrix (shape_last dm) (shape_last dm)) gs
  end.
Proof.
  destruct dm as [m|ms]; cbn [square Rks.grad]; intros Hsq.
  - now apply grad2_is_matrix.
  - apply Forall_lookup_2. intros x g Hg.
    apply list_lookup_imap_Some in Hg as (m & Hm & ->).
    apply grad2_is_matrix. eapply Forall_lookup_1; eauto.
Qed.

End SymmetryStep.

Section SymmetryStepIdentity.
Context {A : Type} `{IdentityLaws A}.

(** On finite entries, both forms of the step give back their operand,
    up to [==]. *)
Lemma two_sided_eye_close (n : nat) (m r : list (list A)) :
  is_matrix n n m -> all_regular m -> two_sided (eye n) m = Ok r -> close r m.
Proof.
  intros Hm Hreg. unfold two_sided.
  destruct (matmul_eye_r n m Hm Hreg) as (inner & -> & Hinner).
  destruct (matmul_eye_l n inner) as (r' & -> & Hr').
  - eapply close_is_matrix; eauto.
  - eapply close_regular; eauto.
  - intros [= <-]. eapply close_trans; eauto.
Qed.

Lemma close_sym (m1 m2 : list (list A)) : close m1 m2 -> close m2 m1.
Proof.
  intros Hc. apply Forall2_flip. eapply Forall2_impl; [exact Hc|].
  intros r1 r2 Hr. apply Forall2_flip. eapply Forall2_impl; [exact Hr|].
  intros x y. apply num_eq_sym.
Qed.

End SymmetryStepIdentity.

Section GetVeffFallback.
Context {A : Type} `{Scalar A} {Other : Type}.
Implicit Types (s : Rks.state A Other) (dm : tensor A).

(** The run of the region when the Rks.classical energy is NaN, in terms of
    the symmetry step. *)
Lemma get_veff_nan_run s dm :
  isnan (snd (fst (Rks.classical s dm))) = true ->
  Rks.get_veff dm s =
  let s2 := Rks.with_output (Rks.fallback_output s dm) (Rks.after_primary s dm) in
  match Rks.restore_symmetry (eye (shape_last dm)) (Rks.raw_gradient s dm) with
  | Ok t => (Ok tt, Rks.set_exc (Rks.network_value s dm) (Rks.set_vxc t s2))
  | Raise e => (Raise e, s2)
  end.
Proof.
  intros Hnan. rewrite get_veff_run, Hnan, network_fallback_run.
  unfold Rks.raw_gradient, Rks.network_value, Rks.fallback_output.
  destruct (after_primary_fields s dm) as (_ & _ & _ & _ & -> & ->). reflexivity.
Qed.

Lemma restore_symmetry_square (f : tensor (dual A) -> dual A) dm :
  square dm ->
  let L := eye (shape_last dm) in
  match Rks.grad f dm with
  | T2 g => exists r, two_sided L g = Ok r
                      /\ Rks.restore_symmetry L (Rks.grad f dm) = Ok (T2 r)
  | T3 gs => Rks.restore_symmetry L (Rks.grad f dm)
             = Ok (T3 (map (fun g => contract L g (transpose L)) gs))
  end.
Proof.
  intros Hsq L. pose proof (grad_square f dm Hsq) as Hg.
  destruct (Rks.grad f dm) as [g|gs]; cbn [Rks.restore_symmetry].
  - destruct (two_sided_eye_ok _ g Hg) as (inner & r & _ & _ & Hr).
    exists r. subst L. now rewrite Hr.
  - subst L. now rewrite (einsum_eye_ok _ gs Hg).
Qed.

End GetVeffFallback.

Section GetVeffClassical.
Context {A : Type} `{Scalar A} {Other : Type}.

(** When the classical energy is not NaN the region stops after the
    classical evaluation. *)
Lemma get_veff_keeps_classical (s : Rks.state A Other) (dm : tensor A) :
  isnan (snd (fst (Rks.classical s dm))) = false ->
  Rks.get_veff dm s = (Ok tt, Rks.after_primary s dm)
  /\ Rks.exc (Rks.st_vxc (snd (Rks.get_veff dm s))) = snd (fst (Rks.classical s dm))
  /\ Rks.vxc (Rks.st_vxc (snd (Rks.get_veff dm s))) = snd (Rks.classical s dm)
  /\ Rks.st_out (snd (Rks.get_veff dm s)) = Rks.st_out s.
Proof.
  intros Hnan.
  destruct (after_primary_fields s dm) as (_ & He & Hv & _ & _ & Hout).
  rewrite get_veff_run, Hnan. cbn [snd]. auto.
Qed.

End GetVeffClassical.

(* ------------------------------------------------------------------ *)
(** ** Specified properties of [get_veff] *)
(* ------------------------------------------------------------------ *)

(** C10.  Whatever the classical energy is, the region leaves the
    electron count [n] of the classical evaluation, the solver [ks] and
    the fields of the effective-potential object other than [exc] and
    [vxc] as they were; and when the classical energy is not NaN the
    state is exactly the one the classical evaluation left: [exc] and
    [vxc] are the classical ones and nothing is printed. *)
Theorem get_veff_frame {A : Type} `{Scalar A} {Other : Type}
    (s : Rks.state A Other) (dm : tensor A) :
  let s' := snd (Rks.get_veff dm s) in
  Rks.st_n s' = fst (fst (Rks.classical s dm))
  /\ Rks.other (Rks.st_vxc s') = Rks.other (Rks.st_vxc s)
  /\ Rks.st_ks s' = Rks.st_ks s
  /\ (isnan (snd (fst (Rks.classical s dm))) = false ->
      Rks.get_veff dm s = (Ok tt, Rks.after_primary s dm)
      /\ Rks.exc (Rks.st_vxc s') = snd (fst (Rks.classical s dm))
      /\ Rks.vxc (Rks.st_vxc s') = snd (Rks.classical s dm)
      /\ Rks.st_out s' = Rks.st_out s).
Proof.
  destruct (after_primary_fields s dm) as (Hn & He & Hv & Ho & Hk & Hout).
  cbn zeta.
  destruct (isnan (snd (fst (Rks.classical s dm)))) eqn:Hnan.
  - rewrite get_veff_run, Hnan, network_fallback_run. cbn zeta.
    destruct (Rks.restore_symmetry _ _); cbn; repeat split; auto; discriminate.
  - destruct (get_veff_keeps_classical s dm Hnan) as (Hrun & He' & Hv' & Hout').
    rewrite Hrun in *. cbn [snd] in *. repeat split; auto.
Qed.

Lemma get_veff_frame_witness :
  let s := Examples.start (Examples.solver b64_nan Examples.net_offdiag) in
  let s' := snd (Rks.get_veff Examples.dm_2x2 s) in
  Rks.st_n s' = Examples.f2 /\ Rks.other (Rks.st_vxc s') = tt /\ Rks.st_ks s' = Rks.st_ks s.
Proof.
  intros s s'.
  destruct (get_veff_frame s Examples.dm_2x2) as (Hn & Ho & Hk & _).
  split; [exact Hn | split; [exact Ho | exact Hk]].
Defined.

(** C2, as stated, fails: a classical energy of plus infinity is not a
    finite number, yet the network is not called and the infinite energy
    is what the region returns. *)
Lemma get_veff_infinite_exc_kept :
  let s := Examples.start (Examples.solver b64_inf Examples.net_offdiag) in
  let s' := snd (Rks.get_veff Examples.dm_2x2 s) in
  isfinite (snd (fst (Rks.classical s Examples.dm_2x2))) = false
  /\ Rks.network_calls (Rks.st_out s') = 0
  /\ Rks.exc (Rks.st_vxc s') = b64_inf.
Proof. vm_compute. auto. Qed.

(** C2, amended.  The network is called exactly when the classical
    energy is NaN ([np.isnan]; an infinite energy does not trigger it):
    the number of network calls grows by one if it is and by none if it
    is not, whatever the potential is; two runs whose classical energies
    agree take the same path.  When the classical energy is not NaN, and
    in particular when it is finite, the region returns the classical
    [exc] and [vxc] unchanged. *)
Theorem get_veff_fallback_iff_nan {A : Type} `{Classification A} {Other : Type}
    (s : Rks.state A Other) (dm : tensor A) :
  let e := snd (fst (Rks.classical s dm)) in
  let s' := snd (Rks.get_veff dm s) in
  Rks.network_calls (Rks.st_out s')
  = Rks.network_calls (Rks.st_out s) + (if isnan e then 1 else 0)
  /\ (forall (s2 : Rks.state A Other) (dm2 : tensor A),
        snd (fst (Rks.classical s2 dm2)) = e ->
        Rks.network_calls (Rks.st_out (snd (Rks.get_veff dm2 s2)))
        - Rks.network_calls (Rks.st_out s2)
        = Rks.network_calls (Rks.st_out s') - Rks.network_calls (Rks.st_out s))
  /\ (isnan e = false ->
      Rks.get_veff dm s = (Ok tt, Rks.after_primary s dm)
      /\ Rks.exc (Rks.st_vxc s') = e
      /\ Rks.vxc (Rks.st_vxc s') = snd (Rks.classical s dm))
  /\ (isfinite e = true ->
      Rks.get_veff dm s = (Ok tt, Rks.after_primary s dm)
      /\ Rks.exc (Rks.st_vxc s') = e
      /\ Rks.vxc (Rks.st_vxc s') = snd (Rks.classical s dm)).
Proof.
  assert (Hcount : forall (t : Rks.state A Other) (d : tensor A),
             Rks.network_calls (Rks.st_out (snd (Rks.get_veff d t)))
             = Rks.network_calls (Rks.st_out t)
               + (if isnan (snd (fst (Rks.classical t d))) then 1 else 0)).
  { intros t d. rewrite get_veff_run.
    destruct (after_primary_fields t d) as (_ & _ & _ & _ & Hk & Hout).
    destruct (isnan _).
    - rewrite network_fallback_run. cbn zeta.
      pose proof (network_calls_fallback (Rks.after_primary t d) d) as Hc.
      rewrite Hout in Hc.
      destruct (Rks.restore_symmetry _ _); cbn [snd Rks.st_out Rks.set_exc Rks.set_vxc Rks.with_output];
        rewrite Hc; lia.
    - cbn [snd]. rewrite Hout. lia. }
  assert (Hkeep : isnan (snd (fst (Rks.classical s dm))) = false ->
            Rks.get_veff dm s = (Ok tt, Rks.after_primary s dm)
            /\ Rks.exc (Rks.st_vxc (snd (Rks.get_veff dm s))) = snd (fst (Rks.classical s dm))
            /\ Rks.vxc (Rks.st_vxc (snd (Rks.get_veff dm s))) = snd (Rks.classical s dm)).
  { intros Hnan. destruct (get_veff_keeps_classical s dm Hnan) as (? & ? & ? & _).
    auto. }
  cbn zeta. repeat apply conj.
  - apply Hcount.
  - intros s2 dm2 He. rewrite (Hcount s2 dm2), (Hcount s dm), He. lia.
  - exact Hkeep.
  - intros Hfin. apply Hkeep. now apply finite_not_nan.
Qed.

Lemma get_veff_fallback_iff_nan_witness :
  let s := Examples.start (Examples.solver Examples.f1 Examples.net_offdiag) in
  let s' := snd (Rks.get_veff Examples.dm_2x2 s) in
  isfinite Examples.f1 = true
  /\ Rks.network_calls (Rks.st_out s') = 0
  /\ Rks.exc (Rks.st_vxc s') = Examples.f1
  /\ Rks.vxc (Rks.st_vxc s') = Examples.dm_2x2.
Proof.
  intros s s'.
  destruct (get_veff_fallback_iff_nan s Examples.dm_2x2) as (Hc & _ & _ & Hfin).
  destruct (Hfin eq_refl) as (_ & He & Hv).
  split; [reflexivity | split; [exact Hc | split; [exact He | exact Hv]]].
Defined.

Section SpecTransform.
Context {A : Type} `{Scalar A}.

Lemma fold_map_shift {X : Type} (f : A -> X -> A) (g : nat -> X) (l : list nat) (acc : A) :
  fold_left (fun a k => f a (g k)) (map S l) acc
  = fold_left (fun a k => f a (g (S k))) l acc.
Proof. revert acc. induction l as [|x l IH]; intros acc; cbn; [reflexivity | apply IH]. Qed.

Lemma fold_zip_with_seq {X Y : Type} (f : X -> Y -> A) (u : list X) (v : list Y)
    (dx : X) (dy : Y) (n : nat) (acc : A) :
  length u = n -> length v = n ->
  fold_left add (zip_with f u v) acc
  = fold_left (fun a k => add a (f (nth k u dx) (nth k v dy))) (seq 0 n) acc.
Proof.
  revert v n acc. induction u as [|x u IH]; intros [|y v] n acc Hu Hv;
    cbn in Hu, Hv; subst n; try discriminate; [reflexivity|].
  cbn [zip_with fold_left length seq].
  rewrite <- seq_shift, (fold_map_shift (fun a t => add a t)
                           (fun k => f (nth k (x :: u) dx) (nth k (y :: v) dy))).
  cbn [nth]. apply IH; [reflexivity | now injection Hv].
Qed.

Lemma map_nth_seq {X Y : Type} (F : X -> Y) (a : list X) (d : X) :
  map F a = map (fun i => F (nth i a d)) (seq 0 (length a)).
Proof.
  induction a as [|x a IH]; [reflexivity|].
  cbn [map length seq nth]. f_equal. rewrite <- seq_shift, map_map. exact IH.
Qed.

Lemma fold_add_ext (l : list nat) (f g : nat -> A) (acc : A) :
  (forall k, In k l -> f k = g k) ->
  fold_left (fun a k => add a (f k)) l acc = fold_left (fun a k => add a (g k)) l acc.
Proof.
  revert acc. induction l as [|k l IH]; intros acc Hin; cbn; [reflexivity|].
  rewrite (Hin k) by now left. apply IH. intros; apply Hin; now right.
Qed.

Lemma sum_over_ext (n : nat) (f g : nat -> A) :
  (forall k, k < n -> f k = g k) -> Spec.sum_over n f = Spec.sum_over n g.
Proof.
  intros Hfg. unfold Spec.sum_over. apply fold_add_ext.
  intros k Hk. apply in_seq in Hk. apply Hfg. lia.
Qed.

Lemma rows_ext (n : nat) (M N : Spec.matrix A) :
  (forall i j, i < n -> j < n -> M i j = N i j) -> Spec.rows n M = Spec.rows n N.
Proof.
  intros HMN. unfold Spec.rows. apply map_ext_in. intros i Hi. apply in_seq in Hi.
  apply map_ext_in. intros j Hj. apply in_seq in Hj. apply HMN; lia.
Qed.

Lemma product_ext (n : nat) (M M' N N' : Spec.matrix A) (i j : nat) :
  (forall k, k < n -> M i k = M' i k) ->
  (forall k, k < n -> N k j = N' k j) ->
  Spec.product n M N i j = Spec.product n M' N' i j.
Proof.
  intros HM HN. unfold Spec.product. apply sum_over_ext.
  intros k Hk. now rewrite HM, HN.
Qed.

Lemma nth_map_seq {X : Type} (f : nat -> X) (n i : nat) (d : X) :
  i < n -> nth i (map f (seq 0 n)) d = f i.
Proof.
  intros Hi. rewrite (nth_indep _ d (f 0)) by now rewrite length_map, length_seq.
  rewrite (map_nth f (seq 0 n) 0 i), seq_nth by exact Hi. reflexivity.
Qed.

Lemma of_rows_rows (n : nat) (M : Spec.matrix A) (i j : nat) :
  i < n -> j < n -> Spec.of_rows (Spec.rows n M) i j = M i j.
Proof.
  intros Hi Hj. unfold Spec.of_rows, Spec.rows.
  now rewrite (nth_map_seq _ n i) by exact Hi; rewrite nth_map_seq.
Qed.

Lemma of_rows_eye (n i j : nat) :
  i < n -> j < n -> Spec.of_rows (eye n) i j = Spec.identity i j.
Proof.
  intros Hi Hj. unfold Spec.of_rows, Spec.identity, eye.
  rewrite (nth_map_seq _ n i) by exact Hi. now apply nth_unit_row.
Qed.

Lemma is_matrix_rows (n : nat) (M : Spec.matrix A) : is_matrix n n (Spec.rows n M).
Proof.
  unfold Spec.rows. split; [now rewrite length_map, length_seq|].
  apply Forall_forall. intros row Hrow. apply list_elem_of_In, in_map_iff in Hrow.
  destruct Hrow as (i & <- & _). now rewrite length_map, length_seq.
Qed.

Lemma is_matrix_eye (n : nat) : is_matrix n n (eye n).
Proof.
  split; [apply length_eye|].
  apply Forall_forall. intros row Hrow. apply list_elem_of_In, in_map_iff in Hrow.
  destruct Hrow as (i & <- & _). apply length_unit_row.
Qed.

Lemma nth_row_length (n k : nat) (m : list (list A)) (i : nat) :
  is_matrix n k m -> i < n -> length (nth i m []) = k.
Proof.
  intros [Hn Hrows] Hi. rewrite Forall_forall in Hrows. apply Hrows.
  apply list_elem_of_In, nth_In. lia.
Qed.

Lemma nth_column (m : list (list A)) (j k : nat) :
  nth k (column m j) zero = Spec.of_rows m k j.
Proof.
  unfold column, Spec.of_rows.
  assert (E : zero = (fun row : list A => nth j row zero) []) by now destruct j.
  rewrite E at 1. apply (map_nth (fun row : list A => nth j row zero)).
Qed.

(** [np.matmul] of two square matrices is the product of the spec. *)
Lemma matmul_product (n : nat) (a b : list (list A)) :
  is_matrix n n a -> is_matrix n n b ->
  matmul a b = Ok (Spec.rows n (Spec.product n (Spec.of_rows a) (Spec.of_rows b))).
Proof.
  intros Ha Hb. rewrite matmul_shape_ok
    by (rewrite (ncols_square n a Ha); unfold nrows; now destruct Hb).
  f_equal. unfold transpose. rewrite (ncols_square n b Hb).
  rewrite (map_nth_seq _ a []). destruct Ha as [Hlen Hrows] eqn:Ea. rewrite Hlen.
  unfold Spec.rows. apply map_ext_in. intros i Hi. apply in_seq in Hi.
  rewrite map_map. apply map_ext_in. intros j Hj.
  unfold dot_raw, vsum, Spec.product, Spec.sum_over.
  rewrite (fold_zip_with_seq mul _ _ zero zero n).
  - apply fold_add_ext. intros k _. now rewrite nth_column.
  - apply (nth_row_length n n a i); [split; assumption | lia].
  - rewrite length_column. now destruct Hb.
Qed.

(** The symmetry step of a matrix is [L . V . L^T] of the spec with the
    identity for [L]. *)
Lemma two_sided_eye_spec (n : nat) (g : list (list A)) :
  is_matrix n n g ->
  two_sided (eye n) g
  = Ok (Spec.rows n (Spec.two_sided n Spec.identity (Spec.of_rows g))).
Proof.
  intros Hg. unfold two_sided. rewrite transpose_eye.
  rewrite (matmul_product n g (eye n) Hg (is_matrix_eye n)).
  rewrite (matmul_product n (eye n) _ (is_matrix_eye n) (is_matrix_rows n _)).
  f_equal. apply rows_ext. intros i l Hi Hl. unfold Spec.two_sided.
  apply product_ext.
  - intros j Hj. now apply of_rows_eye.
  - intros j Hj. rewrite of_rows_rows by assumption.
    apply product_ext; [reflexivity|].
    intros k Hk. rewrite of_rows_eye by assumption.
    unfold Spec.transposed, Spec.identity. now rewrite Nat.eqb_sym.
Qed.

(** A slice of the [einsum] is [L . V . L^T] by its entries. *)
Lemma contract_eye_spec (n : nat) (g : list (list A)) :
  is_matrix n n g ->
  contract (eye n) g (transpose (eye n))
  = Spec.rows n (Spec.two_sided_sum n Spec.identity (Spec.of_rows g)).
Proof.
  intros Hg. unfold contract. rewrite transpose_eye, ncols_eye.
  rewrite (map_nth_seq _ (eye n) []), length_eye.
  unfold Spec.rows. apply map_ext_in. intros i Hi. apply in_seq in Hi.
  apply map_ext_in. intros l Hl. apply in_seq in Hl.
  unfold vsum at 1. unfold Spec.two_sided_sum.
  rewrite (fold_zip_with_seq _ _ _ zero [] n).
  - apply sum_over_ext. intros j Hj.
    unfold vsum.
    rewrite (fold_zip_with_seq _ _ _ zero [] n).
    + apply sum_over_ext. intros k Hk.
      change (nth l (nth k (eye n) []) zero) with (Spec.of_rows (eye n) k l).
      change (nth j (nth i (eye n) []) zero) with (Spec.of_rows (eye n) i j).
      rewrite !of_rows_eye by lia.
      unfold Spec.transposed, Spec.identity, Spec.of_rows.
      now rewrite (Nat.eqb_sym l k).
    + apply (nth_row_length n n g j Hg). lia.
    + apply length_eye.
  - apply (nth_row_length n n (eye n) i (is_matrix_eye n)). lia.
  - now destruct Hg.
Qed.

End SpecTransform.

(** C5.  In the fallback path (classical energy NaN) [L] is the identity
    matrix of size [dm.shape[-1]]; nothing else is ever supplied.  On a
    square density matrix the region returns, and what it stores is the
    transform of the spec with that [L]: for a gradient [g] of two
    dimensions the matrix [L . g . L^T] (the products taken from the
    right, as in [matmul(L, matmul(g, L.T))]), and for a stacked gradient,
    for each leading index [x] on its own, [L . g[x] . L^T] by its
    entries, the sum over [j] and [k] of [L[i][j] . g[x][j][k] . L^T[k][l]].
    Both hold entry by entry and exactly, in any arithmetic and also
    where the gradient has infinite entries (there the transform is not
    the gradient itself).  That the two ways of taking [L . g . L^T] give
    the same is shown, up to [==], on slices with finite entries. *)
Theorem get_veff_two_sided_transform {A : Type} `{IdentityLaws A} {Other : Type}
    (s : Rks.state A Other) (dm : tensor A) :
  isnan (snd (fst (Rks.classical s dm))) = true ->
  square dm ->
  let n := shape_last dm in
  let L := Spec.identity in
  let s' := snd (Rks.get_veff dm s) in
  fst (Rks.get_veff dm s) = Ok tt
  /\ match Rks.raw_gradient s dm with
     | T2 g =>
         Rks.vxc (Rks.st_vxc s')
         = T2 (Spec.rows n (Spec.two_sided n L (Spec.of_rows g)))
     | T3 gs =>
         Rks.vxc (Rks.st_vxc s')
         = T3 (map (fun g => Spec.rows n (Spec.two_sided_sum n L (Spec.of_rows g))) gs)
         /\ Forall (fun g => all_regular g ->
                      close (Spec.rows n (Spec.two_sided_sum n L (Spec.of_rows g)))
                            (Spec.rows n (Spec.two_sided n L (Spec.of_rows g)))) gs
     end.
Proof.
  intros Hnan Hsq n L s'. subst n L s'. rewrite (get_veff_nan_run s dm Hnan). cbn zeta.
  pose proof (restore_symmetry_square (Rks.network_eval (Rks.st_ks s)) dm Hsq) as Hstep.
  pose proof (grad_square (Rks.network_eval (Rks.st_ks s)) dm Hsq) as Hshape.
  cbn zeta in Hstep. unfold Rks.raw_gradient in *.
  destruct (Rks.grad _ dm) as [g|gs].
  - destruct Hstep as (r & Hr & ->). cbn. split; [reflexivity|].
    rewrite (two_sided_eye_spec _ g Hshape) in Hr. now injection Hr as <-.
  - rewrite Hstep. cbn. split; [reflexivity|]. split.
    + f_equal. apply map_ext_in. intros g Hg. apply contract_eye_spec.
      rewrite Forall_forall in Hshape. now apply Hshape, list_elem_of_In.
    + apply Forall_lookup_2. intros x g Hg Hreg.
      assert (Hgm : is_matrix (shape_last dm) (shape_last dm) g)
        by (eapply Forall_lookup_1; eauto).
      rewrite <- (contract_eye_spec _ g Hgm).
      eapply close_trans; [now apply contract_eye|].
      apply close_sym. eapply two_sided_eye_close; eauto.
      apply two_sided_eye_spec, Hgm.
Qed.

Lemma get_veff_two_sided_transform_witness :
  let s := Examples.start (Examples.solver b64_nan Examples.net_square) in
  let t := Examples.start (Examples.solver b64_nan Examples.net_offdiag) in
  (fst (Rks.get_veff Examples.dm_huge s) = Ok tt
   /\ Rks.vxc (Rks.st_vxc (snd (Rks.get_veff Examples.dm_huge s)))
      = T2 [[b64_inf; b64_nan]; [b64_nan; b64_nan]])
  /\ fst (Rks.get_veff Examples.dm_stack t) = Ok tt
  /\ Rks.vxc (Rks.st_vxc (snd (Rks.get_veff Examples.dm_stack t)))
     = T3 [[[Examples.f0; Examples.f1]; [Examples.f0; Examples.f0]];
           [[Examples.f0; Examples.f0]; [Examples.f0; Examples.f0]]].
Proof.
  intros s t.
  assert (Hsq : square Examples.dm_huge) by repeat constructor.
  assert (Hnan : isnan (snd (fst (Rks.classical s Examples.dm_huge))) = true)
    by reflexivity.
  assert (Hsq3 : square Examples.dm_stack) by repeat constructor.
  assert (Hnan3 : isnan (snd (fst (Rks.classical t Examples.dm_stack))) = true)
    by reflexivity.
  destruct (get_veff_two_sided_transform s Examples.dm_huge Hnan Hsq) as (Hok & Hv).
  destruct (get_veff_two_sided_transform t Examples.dm_stack Hnan3 Hsq3)
    as (Hok3 & Hv3 & _).
  split; [split; [exact Hok | exact Hv]|]. split; [exact Hok3 | exact Hv3].
Defined.

(** C9, as stated, fails: with [network_eval = lambda dm: dm[0,0]**2] at
    a density matrix whose first entry is the largest finite number, the
    raw gradient is [[inf, 0], [0, 0]], and the region returns
    [[inf, nan], [nan, nan]]: the products with the zeros of the identity
    turn the infinity into NaNs. *)
Lemma get_veff_infinite_gradient_changed :
  let s := Examples.start (Examples.solver b64_nan Examples.net_square) in
  let s' := snd (Rks.get_veff Examples.dm_huge s) in
  Rks.raw_gradient s Examples.dm_huge
  = T2 [[b64_inf; Examples.f0]; [Examples.f0; Examples.f0]]
  /\ fst (Rks.get_veff Examples.dm_huge s) = Ok tt
  /\ Rks.vxc (Rks.st_vxc s') = T2 [[b64_inf; b64_nan]; [b64_nan; b64_nan]].
Proof. vm_compute. auto. Qed.

(** C9, amended.  When every entry of the raw gradient is finite, both
    branches of the symmetry step give back their operand up to [==]
    entry by entry (the sign of a zero may change), so the potential the
    fallback returns is the raw gradient of the network energy at the
    density matrix, and the energy it returns is the network energy. *)
Theorem get_veff_fallback_returns_gradient {A : Type} `{IdentityLaws A} {Other : Type}
    (s : Rks.state A Other) (dm : tensor A) :
  isnan (snd (fst (Rks.classical s dm))) = true ->
  square dm ->
  tensor_regular (Rks.raw_gradient s dm) ->
  let s' := snd (Rks.get_veff dm s) in
  fst (Rks.get_veff dm s) = Ok tt
  /\ tensor_close (Rks.vxc (Rks.st_vxc s')) (Rks.raw_gradient s dm)
  /\ Rks.exc (Rks.st_vxc s') = Rks.network_value s dm.
Proof.
  intros Hnan Hsq Hreg s'. subst s'. rewrite (get_veff_nan_run s dm Hnan). cbn zeta.
  pose proof (restore_symmetry_square (Rks.network_eval (Rks.st_ks s)) dm Hsq) as Hstep.
  pose proof (grad_square (Rks.network_eval (Rks.st_ks s)) dm Hsq) as Hshape.
  cbn zeta in Hstep. unfold Rks.raw_gradient in *.
  destruct (Rks.grad _ dm) as [g|gs].
  - destruct Hstep as (r & Hr & ->). cbn. repeat split.
    eapply two_sided_eye_close; eauto.
  - rewrite Hstep. cbn. repeat split.
    apply Forall2_same_length_lookup_2; [now rewrite length_map|].
    intros x c g Hc Hg. rewrite map_fmap, list_lookup_fmap, Hg in Hc.
    injection Hc as <-.
    apply contract_eye; eapply Forall_lookup_1; eauto.
Qed.

Lemma get_veff_fallback_returns_gradient_witness :
  let s := Examples.start (Examples.solver b64_nan Examples.net_sym) in
  let s' := snd (Rks.get_veff Examples.dm_2x2 s) in
  fst (Rks.get_veff Examples.dm_2x2 s) = Ok tt
  /\ tensor_close (Rks.vxc (Rks.st_vxc s'))
       (T2 [[Examples.f0; Examples.f1]; [Examples.f1; Examples.f0]]).
Proof.
  intros s s'.
  assert (Hsq : square Examples.dm_2x2) by repeat constructor.
  assert (Hreg : tensor_regular (Rks.raw_gradient s Examples.dm_2x2))
    by (vm_compute; repeat constructor).
  assert (Hnan : isnan (snd (fst (Rks.classical s Examples.dm_2x2))) = true)
    by reflexivity.
  destruct (get_veff_fallback_returns_gradient s Examples.dm_2x2 Hnan Hsq Hreg)
    as (Hok & Hclose & _).
  split; [exact Hok | exact Hclose].
Defined.

(** C1 at a failing input.  With [network_eval = lambda dm: dm[0, 1]]
    and a classical energy that is NaN, the network is called exactly
    once, the raw gradient is [[0, 1], [0, 0]], and this is the potential
    the region returns, for a single matrix and for each slice of a
    stack: it is not symmetric. *)
Theorem get_veff_fallback_not_symmetric :
  let s := Examples.start (Examples.solver b64_nan Examples.net_offdiag) in
  let s2 := snd (Rks.get_veff Examples.dm_2x2 s) in
  let s3 := snd (Rks.get_veff Examples.dm_stack s) in
  isnan (snd (fst (Rks.classical s Examples.dm_2x2))) = true
  /\ fst (Rks.get_veff Examples.dm_2x2 s) = Ok tt
  /\ Rks.network_calls (Rks.st_out s2) = 1
  /\ Rks.vxc (Rks.st_vxc s2)
     = T2 [[Examples.f0; Examples.f1]; [Examples.f0; Examples.f0]]
  /\ is_symmetric (Rks.vxc (Rks.st_vxc s2)) = false
  /\ Rks.network_calls (Rks.st_out s3) = 1
  /\ is_symmetric (Rks.vxc (Rks.st_vxc s3)) = false.
Proof. vm_compute. repeat split. Qed.


(* ================================================================== *)
(** * The block loop: what the patched branches do *)
(* ================================================================== *)

Section Dispatch.
Context {A : Type} `{Scalar A} {AO Mask Coords : Type}.
Implicit Types (e : Numint.env A AO Mask Coords) (b : Numint.block A AO Mask Coords).
Implicit Types (s : Numint.store A AO Coords) (rho : Numint.density A).

(** The run of the [try] / [except], case by case. *)
Lemma dispatch_run e level b rho s :
  Numint.dispatch e level b rho s =
  let ext := Numint.extended_call e b rho in
  let s1 := Numint.logged [Numint.shapes_line e level b; Numint.EvalXC ext] s in
  match Numint.eval_xc e ext with
  | Ok r => (Ok (Numint.first_two r), s1)
  | Raise _ =>
      let s2 := Numint.logged [Numint.EvalXC (Numint.minimal_call e rho)] s1 in
      match Numint.eval_xc e (Numint.minimal_call e rho) with
      | Ok r => (Ok (Numint.first_two r), s2)
      | Raise ey => (Raise ey, s2)
      end
  end.
Proof.
  unfold Numint.dispatch, try_except, Numint.call_eval_xc, Numint.emit, Numint.logged,
    Numint.shapes_line, bind, modify, lift_result, ret.
  cbn [Numint.nelec Numint.excsum Numint.out].
  destruct (Numint.eval_xc e (Numint.extended_call e b rho));
    [|destruct (Numint.eval_xc e (Numint.minimal_call e rho))];
    cbn [Numint.nelec Numint.excsum Numint.out];
    rewrite <- ?app_assoc; reflexivity.
Qed.

Lemma xc_calls_app (evs1 evs2 : list (Numint.event A AO Coords)) :
  Numint.xc_calls (evs1 ++ evs2) = Numint.xc_calls evs1 ++ Numint.xc_calls evs2.
Proof. unfold Numint.xc_calls. apply omap_app. Qed.

(** The outcome of the [try] / [except] is the selected return. *)
Lemma dispatch_selected e level b rho s :
  fst (Numint.dispatch e level b rho s)
  = match Numint.selected e b rho with
    | Ok r => Ok (Numint.first_two r)
    | Raise ey => Raise ey
    end.
Proof.
  rewrite dispatch_run. cbn zeta. unfold Numint.selected.
  destruct (Numint.eval_xc e (Numint.extended_call e b rho)); [reflexivity|].
  destruct (Numint.eval_xc e (Numint.minimal_call e rho)); reflexivity.
Qed.

Lemma dispatch_store e level b rho s :
  Numint.nelec (snd (Numint.dispatch e level b rho s)) = Numint.nelec s
  /\ Numint.excsum (snd (Numint.dispatch e level b rho s)) = Numint.excsum s.
Proof.
  rewrite dispatch_run. cbn zeta.
  destruct (Numint.eval_xc e (Numint.extended_call e b rho)); [split; reflexivity|].
  destruct (Numint.eval_xc e (Numint.minimal_call e rho)); split; reflexivity.
Qed.

End Dispatch.

Section Bodies.
Context {A : Type} `{Scalar A} {AO Mask Coords : Type}.
Implicit Types (e : Numint.env A AO Mask Coords) (b : Numint.block A AO Mask Coords).
Implicit Types (s : Numint.store A AO Coords) (rho : Numint.density A).

(** Every branch is its [try] / [except] followed by steps that call
    nothing and print nothing. *)
Lemma body_after_dispatch level e b (idm : nat) s :
  let d := Numint.dispatch e level b
             (Numint.make_rho e idm (Numint.ao b) (Numint.mask b) level) s in
  let r := Numint.body level e b idm s in
  Numint.out (snd r) = Numint.out (snd d)
  /\ (forall ey, fst d = Raise ey -> fst r = Raise ey)
  /\ (forall l, fst r = Ok l -> fst d = Ok (Numint.l_exc l, Numint.l_vxc l)).
Proof.
  cbn zeta.
  destruct level; cbn [Numint.body];
    unfold Numint.lda_body, Numint.gga_body, Numint.mgga_body, bind;
    destruct (Numint.dispatch e _ b _ s) as [[[exc vxc]|ex] s1];
    cbn [fst snd]; unfold raise, ret, lift_result, gets, modify, bind, Numint.add_at, dot;
    repeat case_match; simplify_eq/=; repeat split; intros; simplify_eq/=; auto.
Qed.

(** An exception of the body in the first block and density set ends the
    whole loop. *)
Lemma block_loop_first_raises level e b (rest : list (Numint.block A AO Mask Coords))
    s (ey : exn) :
  0 < Numint.nset e ->
  fst (Numint.body level e b 0 s) = Raise ey ->
  fst (Numint.block_loop level e (b :: rest) s) = Raise ey.
Proof.
  intros Hn Hraise. unfold Numint.block_loop.
  destruct (Numint.nset e) as [|n]; [lia|].
  cbn [for_each seq]. unfold bind.
  destruct (Numint.body level e b 0 s) as [[l|ex] s1]; cbn in Hraise; [discriminate|].
  now injection Hraise as ->.
Qed.

End Bodies.

(* ------------------------------------------------------------------ *)
(** ** Specified properties of the [try] / [except] *)
(* ------------------------------------------------------------------ *)

(** C3.  At every level, for every block and density set, the body
    first makes the extended call.  If that returns, its first two slots
    are [(exc, vxc)] and no minimal call is made.  If it raises, the
    minimal call is made, once: its first two slots are [(exc, vxc)]
    unchanged if it returns, and if it raises, its exception is what the
    body, and with it the loop over the blocks, raises.  In every case the body makes at most these two calls,
    in this order, and the [try] / [except] leaves the accumulators
    alone. *)
Theorem dispatch_two_attempts {A : Type} `{Scalar A} {AO Mask Coords : Type}
    (level : Numint.xctype) (e : Numint.env A AO Mask Coords)
    (b : Numint.block A AO Mask Coords) (idm : nat) (s : Numint.store A AO Coords) :
  let rho := Numint.make_rho e idm (Numint.ao b) (Numint.mask b) level in
  let ext := Numint.extended_call e b rho in
  let min := Numint.minimal_call e rho in
  let d := Numint.dispatch e level b rho s in
  let r := Numint.body level e b idm s in
  let calls := Numint.xc_calls (Numint.out (snd r)) in
  Numint.xc_calls (Numint.out (snd d)) = calls
  /\ Numint.nelec (snd d) = Numint.nelec s
  /\ Numint.excsum (snd d) = Numint.excsum s
  /\ (forall x, Numint.eval_xc e ext = Ok x ->
        calls = Numint.xc_calls (Numint.out s) ++ [ext]
        /\ fst d = Ok (Numint.ret_exc x, Numint.ret_vxc x)
        /\ forall l, fst r = Ok l ->
             Numint.l_exc l = Numint.ret_exc x /\ Numint.l_vxc l = Numint.ret_vxc x)
  /\ (forall ex, Numint.eval_xc e ext = Raise ex ->
        calls = Numint.xc_calls (Numint.out s) ++ [ext; min]
        /\ (forall y, Numint.eval_xc e min = Ok y ->
              fst d = Ok (Numint.ret_exc y, Numint.ret_vxc y)
              /\ forall l, fst r = Ok l ->
                   Numint.l_exc l = Numint.ret_exc y /\ Numint.l_vxc l = Numint.ret_vxc y)
        /\ (forall ey, Numint.eval_xc e min = Raise ey ->
              fst d = Raise ey /\ fst r = Raise ey
              /\ forall rest, idm = 0 -> 0 < Numint.nset e ->
                   fst (Numint.block_loop level e (b :: rest) s) = Raise ey))
  /\ length calls <= length (Numint.xc_calls (Numint.out s)) + 2.
Proof.
  intros rho ext min d r calls.
  destruct (body_after_dispatch level e b idm s) as (Hout & Hraise & Hok).
  fold rho d r in Hout, Hraise, Hok.
  destruct (dispatch_store e level b rho s) as (Hn & Hx). fold d in Hn, Hx.
  assert (Hd : d = Numint.dispatch e level b rho s) by reflexivity.
  rewrite dispatch_run in Hd. cbn zeta in Hd. fold ext min in Hd.
  subst calls. rewrite Hout.
  destruct (Numint.eval_xc e ext) as [x|ex] eqn:Hext;
    [|destruct (Numint.eval_xc e min) as [y|ey] eqn:Hmin];
    rewrite Hd in *; clear Hd; cbn [fst snd Numint.logged Numint.out] in *;
    rewrite ?xc_calls_app, ?length_app; cbn [Numint.xc_calls omap length Numint.shapes_line];
    rewrite <- ?app_assoc; cbn [app];
    (split; [reflexivity|]); (split; [exact Hn|]); (split; [exact Hx|]).
  - split; [|split; [discriminate | cbn; lia]].
    intros x' [= <-]. split; [reflexivity|]. split; [reflexivity|].
    intros l Hl. specialize (Hok l Hl). now injection Hok as -> ->.
  - split; [discriminate|]. split; [|cbn; lia].
    intros ex' _. split; [reflexivity|]. split; [|discriminate].
    intros y' [= <-]. split; [reflexivity|].
    intros l Hl. specialize (Hok l Hl). now injection Hok as -> ->.
  - split; [discriminate|]. split; [|cbn; lia].
    intros ex' _. split; [reflexivity|]. split; [discriminate|].
    intros ey' [= <-]. split; [reflexivity|].
    split; [now apply Hraise|].
    intros rest -> Hpos. apply block_loop_first_raises; [exact Hpos|].
    now apply Hraise.
Qed.

Lemma dispatch_two_attempts_witness :
  let e := Examples.surroundings Examples.classical_eval_xc in
  let r := Numint.body Numint.LDA e Examples.block_a 0 Examples.empty_store in
  length (Numint.xc_calls (Numint.out (snd r))) = 2
  /\ forall l, fst r = Ok l -> Numint.l_exc l = [3; 7]%Z.
Proof.
  intros e r.
  destruct (dispatch_two_attempts Numint.LDA e Examples.block_a 0 Examples.empty_store)
    as (_ & _ & _ & _ & Hfail & _).
  destruct (Hfail TypeError eq_refl) as (Hcalls & Hmin & _).
  destruct (Hmin _ eq_refl) as (_ & Hl).
  split.
  - exact (f_equal (@length _) Hcalls).
  - intros l Hok. exact (proj1 (Hl l Hok)).
Defined.

(** C8.  The handler is a bare [except]: whatever the extended call
    raises ([TypeError] for a rejected signature, a fault from inside a
    correctly invoked evaluator, [KeyboardInterrupt], [SystemExit], ...),
    the minimal call is made and the outcome is the outcome of the
    minimal call alone; the exception of the extended call reaches the
    caller in no case. *)
Theorem dispatch_bare_except {A : Type} `{Scalar A} {AO Mask Coords : Type}
    (level : Numint.xctype) (e : Numint.env A AO Mask Coords)
    (b : Numint.block A AO Mask Coords) (rho : Numint.density A)
    (s : Numint.store A AO Coords) (ex : exn) :
  Numint.eval_xc e (Numint.extended_call e b rho) = Raise ex ->
  let d := Numint.dispatch e level b rho s in
  fst d = match Numint.eval_xc e (Numint.minimal_call e rho) with
          | Ok y => Ok (Numint.first_two y)
          | Raise ey => Raise ey
          end
  /\ Numint.xc_calls (Numint.out (snd d))
     = Numint.xc_calls (Numint.out s)
       ++ [Numint.extended_call e b rho; Numint.minimal_call e rho]
  /\ (forall e2 ex2,
        Numint.eval_xc e2 (Numint.extended_call e2 b rho) = Raise ex2 ->
        Numint.eval_xc e2 (Numint.minimal_call e2 rho)
        = Numint.eval_xc e (Numint.minimal_call e rho) ->
        fst (Numint.dispatch e2 level b rho s) = fst d).
Proof.
  intros Hext d.
  assert (Hfst : forall e' ex',
             Numint.eval_xc e' (Numint.extended_call e' b rho) = Raise ex' ->
             fst (Numint.dispatch e' level b rho s)
             = match Numint.eval_xc e' (Numint.minimal_call e' rho) with
               | Ok y => Ok (Numint.first_two y)
               | Raise ey => Raise ey
               end).
  { intros e' ex' He'. rewrite dispatch_selected. unfold Numint.selected.
    rewrite He'. reflexivity. }
  split; [exact (Hfst e ex Hext)|]. split.
  - subst d. rewrite dispatch_run. cbn zeta. rewrite Hext.
    destruct (Numint.eval_xc e (Numint.minimal_call e rho));
      cbn [snd Numint.logged Numint.out];
      rewrite !xc_calls_app, <- app_assoc; reflexivity.
  - intros e2 ex2 He2 Hmin. subst d.
    rewrite (Hfst e2 ex2 He2), (Hfst e ex Hext), Hmin. reflexivity.
Qed.

Lemma dispatch_bare_except_witness :
  let e := Examples.surroundings Examples.interrupted_eval_xc in
  let rho := Numint.Rho1 [3; 7]%Z in
  fst (Numint.dispatch e Numint.LDA Examples.block_a rho Examples.empty_store)
  = Ok ([3; 7]%Z, []).
Proof.
  intros e rho.
  assert (Hext : Numint.eval_xc e (Numint.extended_call e Examples.block_a rho)
                 = Raise KeyboardInterrupt) by reflexivity.
  exact (proj1 (dispatch_bare_except Numint.LDA e Examples.block_a rho
                  Examples.empty_store KeyboardInterrupt Hext)).
Defined.

(* ------------------------------------------------------------------ *)
(** ** Specified properties of the unpacking *)
(* ------------------------------------------------------------------ *)

Section Unpacking.
Context {A : Type} `{Scalar A} {AO Mask Coords : Type}.
Implicit Types (e : Numint.env A AO Mask Coords) (b : Numint.block A AO Mask Coords).
Implicit Types (s : Numint.store A AO Coords).

(** Cutting every return of the evaluator down to its first two slots
    changes nothing in what a branch computes. *)
Lemma body_only_first_two level e b (idm : nat) s :
  let e' := Numint.with_eval_xc (fun c => Numint.only_first_two (Numint.eval_xc e c)) e in
  fst (Numint.body level e' b idm s) = fst (Numint.body level e b idm s)
  /\ Numint.nelec (snd (Numint.body level e' b idm s))
     = Numint.nelec (snd (Numint.body level e b idm s))
  /\ Numint.excsum (snd (Numint.body level e' b idm s))
     = Numint.excsum (snd (Numint.body level e b idm s)).
Proof.
  cbn zeta.
  destruct level; cbn [Numint.body];
    unfold Numint.lda_body, Numint.gga_body, Numint.mgga_body, bind;
    rewrite !dispatch_run; cbn zeta;
    unfold Numint.with_eval_xc, Numint.extended_call, Numint.minimal_call;
    cbn [Numint.eval_xc Numint.make_rho Numint.xc_code Numint.relativity Numint.verbose];
    (destruct (Numint.eval_xc e (Numint.Extended _ _ _ _ _ _ _ _ _)) as [x|ex];
     [|destruct (Numint.eval_xc e (Numint.Minimal _ _ _ _ _ _)) as [y|ey]]);
    cbn [Numint.only_first_two Numint.first_two Numint.ret_exc Numint.ret_vxc fst snd];
    unfold raise, ret, lift_result, gets, modify, bind, Numint.add_at, dot, Numint.logged;
    cbn [Numint.nelec Numint.excsum Numint.out];
    repeat case_match; simplify_eq/=; auto.
Qed.

End Unpacking.

Lemma take4_lookup {X : Type} (v : list X) (a b c d : X) :
  take 4 v = [a; b; c; d] ->
  v !! 0 = Some a /\ v !! 1 = Some b /\ v !! 2 = Some c /\ v !! 3 = Some d.
Proof.
  destruct v as [|? [|? [|? [|? ?]]]]; simpl; intros; simplify_eq; auto.
Qed.



(* ------------------------------------------------------------------ *)
(** ** The accumulation in the MGGA branch *)
(* ------------------------------------------------------------------ *)

Lemma for_each_app {S X : Type} (xs ys : list X) (body : X -> M S unit) (s : S) :
  for_each (xs ++ ys) body s
  = match for_each xs body s with
    | (Ok _, s') => for_each ys body s'
    | (Raise ex, s') => (Raise ex, s')
    end.
Proof.
  revert s. induction xs as [|x xs IH]; intros s; [reflexivity|].
  cbn [app for_each]. unfold bind.
  destruct (body x s) as [[u|ex] s1]; [apply IH | reflexivity].
Qed.

Section Accumulation.
Context {A : Type} `{Scalar A} {AO Mask Coords : Type}.
Implicit Types (e : Numint.env A AO Mask Coords) (b : Numint.block A AO Mask Coords).
Implicit Types (s : Numint.store A AO Coords).

Lemma length_accumulated (term : nat -> A) (n : nat) (acc : list A) :
  length (Numint.accumulated term n acc) = length acc.
Proof. apply length_imap. Qed.

Lemma nth_accumulated (term : nat -> A) (n i : nat) (acc : list A) :
  i < length acc ->
  nth i (Numint.accumulated term n acc) zero
  = if Nat.ltb i n then add (nth i acc zero) (term i) else nth i acc zero.
Proof.
  intros Hi. destruct (lookup_lt_is_Some_2 acc i Hi) as [a Ha].
  rewrite !nth_lookup. unfold Numint.accumulated.
  rewrite list_lookup_imap, Ha. reflexivity.
Qed.

Lemma accumulated_0 (term : nat -> A) (acc : list A) :
  Numint.accumulated term 0 acc = acc.
Proof.
  unfold Numint.accumulated. apply list_eq. intros i.
  rewrite list_lookup_imap. now destruct (acc !! i).
Qed.

Lemma accumulated_S (term : nat -> A) (n : nat) (acc : list A) :
  n < length acc ->
  <[n := add (nth n (Numint.accumulated term n acc) zero) (term n)]>
    (Numint.accumulated term n acc)
  = Numint.accumulated term (S n) acc.
Proof.
  intros Hn. apply list_eq. intros i.
  rewrite nth_accumulated by exact Hn. rewrite Nat.ltb_irrefl.
  unfold Numint.accumulated.
  destruct (Nat.eq_dec i n) as [->|Hne].
  - rewrite list_lookup_insert_eq by (now rewrite length_imap).
    rewrite list_lookup_imap.
    destruct (lookup_lt_is_Some_2 acc n Hn) as [a Ha].
    rewrite Ha, (nth_lookup_Some _ _ _ _ Ha). cbn [fmap option_fmap option_map].
    now rewrite (proj2 (Nat.ltb_lt n (S n))) by lia.
  - rewrite list_lookup_insert_ne by auto.
    rewrite !list_lookup_imap. destruct (acc !! i); [|reflexivity].
    cbn [fmap option_fmap option_map].
    destruct (Nat.ltb_spec i n), (Nat.ltb_spec i (S n)); try reflexivity; lia.
Qed.

Lemma dispatch_selected_run e level b (rho : Numint.density A) s r :
  Numint.selected e b rho = Ok r ->
  exists evs, Numint.dispatch e level b rho s
              = (Ok (Numint.first_two r), Numint.logged evs s).
Proof.
  intros Hsel. rewrite dispatch_run. cbn zeta. unfold Numint.selected in Hsel.
  destruct (Numint.eval_xc e (Numint.extended_call e b rho)) as [x|ex].
  - injection Hsel as ->. eauto.
  - rewrite Hsel. eexists. unfold Numint.logged. cbn.
    rewrite <- app_assoc. reflexivity.
Qed.

(** One run of the MGGA body on a block that is ready for it. *)
Lemma mgga_body_ready e b (idm : nat) s :
  Numint.mgga_ready e idm b ->
  idm < length (Numint.nelec s) -> idm < length (Numint.excsum s) ->
  exists l evs,
    Numint.mgga_body e b idm s
    = (Ok l,
       {| Numint.nelec :=
            <[idm := add (nth idm (Numint.nelec s) zero) (Numint.nelec_term e b idm)]>
              (Numint.nelec s);
          Numint.excsum :=
            <[idm := add (nth idm (Numint.excsum s) zero) (Numint.excsum_term e b idm)]>
              (Numint.excsum s);
          Numint.out := Numint.out s ++ evs |}).
Proof.
  intros ((rho0 & rest & Hrho & Hlen) & (r & Hsel & Hvxc & Hexc)) Hn Hx.
  unfold Numint.nelec_term, Numint.excsum_term, Numint.den_of, Numint.exc_of,
    Numint.rho0_of.
  rewrite Hsel, Hrho.
  destruct (dispatch_selected_run e Numint.MGGA b _ s r Hsel) as (evs & Hd).
  unfold Numint.mgga_body, bind at 1. rewrite Hd. cbn [Numint.first_two snd fst].
  destruct (Numint.ret_vxc r) as [|c0 [|c1 [|c2 [|c3 cs]]]]; cbn in Hvxc; try lia.
  cbn [take]. rewrite take_0, Hrho.
  cbn [Numint.density_times_weight]. unfold vmul.
  rewrite Hlen, Nat.eqb_refl.
  destruct (lookup_lt_is_Some_2 _ _ Hn) as [a Ha].
  destruct (lookup_lt_is_Some_2 _ _ Hx) as [a' Ha'].
  rewrite (nth_lookup_Some _ _ _ _ Ha), (nth_lookup_Some _ _ _ _ Ha').
  unfold bind, lift_result, gets, modify, ret, Numint.add_at, dot, Numint.logged.
  cbn [Numint.nelec Numint.excsum Numint.out].
  rewrite Ha. cbn [Numint.nelec Numint.excsum Numint.out]. rewrite Ha'.
  rewrite length_zip_with, Hlen, Hexc, Nat.min_id, Nat.eqb_refl.
  do 2 eexists. reflexivity.
Qed.

(** The loop over the density sets of one block. *)
Lemma mgga_sets_run e b (n : nat) s :
  (forall idm, idm < n -> Numint.mgga_ready e idm b) ->
  n <= length (Numint.nelec s) -> n <= length (Numint.excsum s) ->
  exists evs,
    for_each (seq 0 n) (fun idm => do_ Numint.body Numint.MGGA e b idm; ret tt) s
    = (Ok tt,
       {| Numint.nelec := Numint.accumulated (Numint.nelec_term e b) n (Numint.nelec s);
          Numint.excsum := Numint.accumulated (Numint.excsum_term e b) n (Numint.excsum s);
          Numint.out := Numint.out s ++ evs |}).
Proof.
  induction n as [|n IH]; intros Hready Hn Hx.
  - exists []. cbn. rewrite !accumulated_0, app_nil_r. now destruct s.
  - destruct IH as (evs & IH); [auto with lia..|].
    rewrite seq_S, for_each_app, IH. cbn [Nat.add for_each].
    unfold bind at 1 2. cbn [Numint.body].
    edestruct (mgga_body_ready e b n) as (l & evs' & ->).
    + apply Hready. lia.
    + cbn. rewrite length_accumulated. lia.
    + cbn. rewrite length_accumulated. lia.
    + cbn [Numint.nelec Numint.excsum Numint.out]. unfold ret.
      rewrite !accumulated_S by lia. rewrite <- app_assoc. eauto.
Qed.

(** The totals after the whole loop, one term per block and in the order
    of the blocks. *)
Lemma mgga_loop_run e (blocks : list (Numint.block A AO Mask Coords)) s :
  (forall b idm, In b blocks -> idm < Numint.nset e -> Numint.mgga_ready e idm b) ->
  Numint.nset e <= length (Numint.nelec s) ->
  Numint.nset e <= length (Numint.excsum s) ->
  exists s',
    Numint.block_loop Numint.MGGA e blocks s = (Ok tt, s')
    /\ length (Numint.nelec s') = length (Numint.nelec s)
    /\ length (Numint.excsum s') = length (Numint.excsum s)
    /\ forall idm, idm < Numint.nset e ->
         nth idm (Numint.nelec s') zero
         = fold_left (fun a b => add a (Numint.nelec_term e b idm)) blocks
             (nth idm (Numint.nelec s) zero)
         /\ nth idm (Numint.excsum s') zero
            = fold_left (fun a b => add a (Numint.excsum_term e b idm)) blocks
                (nth idm (Numint.excsum s) zero).
Proof.
  unfold Numint.block_loop. revert s.
  induction blocks as [|b blocks IH]; intros s Hready Hn Hx.
  - exists s. cbn. auto.
  - destruct (mgga_sets_run e b (Numint.nset e) s) as (evs & Hb); auto.
    { intros idm Hidm. apply Hready; [now left | exact Hidm]. }
    cbn [for_each]. unfold bind at 1. rewrite Hb.
    edestruct IH as (s' & -> & Hln & Hlx & Hs').
    + intros b' idm Hb' Hidm. apply Hready; [now right | exact Hidm].
    + cbn. rewrite length_accumulated. exact Hn.
    + cbn. rewrite length_accumulated. exact Hx.
    + cbn [Numint.nelec Numint.excsum] in *. rewrite length_accumulated in Hln, Hlx.
      exists s'. split; [reflexivity|]. split; [exact Hln|]. split; [exact Hlx|].
      intros idm Hidm. destruct (Hs' idm Hidm) as [-> ->]. cbn [fold_left].
      rewrite !nth_accumulated by lia.
      now rewrite (proj2 (Nat.ltb_lt idm (Numint.nset e))) by lia.
Qed.

End Accumulation.

Lemma fold_left_ext {X Y : Type} (f g : X -> Y -> X) (l : list Y) (x : X) :
  (forall a b, f a b = g a b) -> fold_left f l x = fold_left g l x.
Proof.
  intros Hfg. revert x. induction l as [|y l IH]; intros x; [reflexivity|].
  cbn. now rewrite Hfg, IH.
Qed.

Lemma map_stop_grad {A : Type} `{Scalar A} (l : list A) :
  stop_grad_is_identity A -> map stop_grad l = l.
Proof.
  intros Hsg. induction l as [|x l IH]; [reflexivity|]. cbn. now rewrite Hsg, IH.
Qed.

Section ExactSums.
Context {A : Type} `{ExactArith A}.

Lemma fold_add_vsum (l : list A) (acc : A) :
  fold_left add l acc = add acc (vsum l).
Proof.
  unfold vsum. revert acc. induction l as [|x l IH]; intros acc; cbn [fold_left].
  - now rewrite add_0_r.
  - rewrite (IH (add acc x)), (IH (add zero x)), add_0_l. symmetry. apply add_assoc.
Qed.

Lemma vsum_app (l1 l2 : list A) : vsum (l1 ++ l2) = add (vsum l1) (vsum l2).
Proof. unfold vsum at 1 2. rewrite fold_left_app. apply fold_add_vsum. Qed.

(** Summing block by block is summing over the whole grid. *)
Lemma fold_blocks_concat {B : Type} (f : B -> list A) (blocks : list B) (acc : A) :
  fold_left (fun a b => add a (vsum (f b))) blocks acc
  = add acc (vsum (concat (map f blocks))).
Proof.
  revert acc. induction blocks as [|b blocks IH]; intros acc; cbn [fold_left map concat].
  - unfold vsum. cbn. now rewrite add_0_r.
  - rewrite IH, vsum_app. symmetry. apply add_assoc.
Qed.

Lemma concat_zip_with {B : Type} (f g : B -> list A) (blocks : list B) :
  (forall b, In b blocks -> length (f b) = length (g b)) ->
  concat (map (fun b => zip_with mul (f b) (g b)) blocks)
  = zip_with mul (concat (map f blocks)) (concat (map g blocks)).
Proof.
  induction blocks as [|b blocks IH]; intros Hlen; [reflexivity|].
  cbn [map concat]. rewrite zip_with_app by (apply Hlen; now left).
  rewrite IH; [reflexivity|]. intros b' Hb'. apply Hlen. now right.
Qed.

End ExactSums.

Section ReadyBlocks.
Context {A : Type} `{Scalar A} {AO Mask Coords : Type}.

Lemma ready_lengths (e : Numint.env A AO Mask Coords)
    (b : Numint.block A AO Mask Coords) (idm : nat) :
  Numint.mgga_ready e idm b ->
  length (Numint.den_of e idm b) = length (Numint.exc_of e idm b).
Proof.
  intros ((rho0 & rest & Hrho & Hlen) & (r & Hsel & _ & Hexc)).
  unfold Numint.den_of, Numint.exc_of, Numint.rho0_of. rewrite Hsel, Hrho.
  rewrite length_zip_with, Hlen, Hexc. apply Nat.min_id.
Qed.

End ReadyBlocks.




(* ------------------------------------------------------------------ *)
(** ** Differentiation through the accumulation *)
(* ------------------------------------------------------------------ *)

Section DualSums.
Context {B : Type} `{ExactArith B}.

Lemma tan_fold_add (l : list (dual B)) (acc : dual B) :
  tan (fold_left add l acc) = fold_left add (map tan l) (tan acc).
Proof. revert acc. induction l as [|x l IH]; intros acc; [reflexivity|]. cbn. now rewrite IH. Qed.

Lemma val_fold_add (l : list (dual B)) (acc : dual B) :
  val (fold_left add l acc) = fold_left add (map val l) (val acc).
Proof. revert acc. induction l as [|x l IH]; intros acc; [reflexivity|]. cbn. now rewrite IH. Qed.

(** A sum of stopped values has no derivative ... *)
Lemma tan_vsum_stop_grad (v : list (dual B)) : tan (vsum (map stop_grad v)) = zero.
Proof.
  unfold vsum. rewrite tan_fold_add. cbn [tan zero dual_scalar snd].
  induction v as [|x v IH]; [reflexivity|].
  cbn [map fold_left stop_grad dual_scalar tan snd]. now rewrite add_0_l.
Qed.

(** ... and the value of the sum of the values. *)
Lemma val_vsum_stop_grad (v : list (dual B)) :
  val (vsum (map stop_grad v)) = vsum (map val v).
Proof.
  unfold vsum. rewrite val_fold_add, map_map. reflexivity.
Qed.

(** The derivative of a dot product, by the product rule. *)
Lemma tan_dot_raw (u v : list (dual B)) :
  tan (dot_raw u v)
  = vsum (zip_with (fun x y => add (mul (val x) (tan y)) (mul (tan x) (val y))) u v).
Proof.
  unfold dot_raw, vsum. rewrite tan_fold_add. cbn [tan zero dual_scalar snd].
  f_equal. revert v. induction u as [|x u IH]; intros [|y v]; try reflexivity.
  cbn. now rewrite IH.
Qed.

Lemma tan_fold_blocks {X : Type} (g : X -> dual B) (blocks : list X) (acc : dual B) :
  tan (fold_left (fun a b => add a (g b)) blocks acc)
  = fold_left (fun t b => add t (tan (g b))) blocks (tan acc).
Proof.
  revert acc. induction blocks as [|b blocks IH]; intros acc; [reflexivity|].
  cbn [fold_left]. now rewrite IH.
Qed.

Lemma val_fold_blocks {X : Type} (g : X -> dual B) (blocks : list X) (acc : dual B) :
  val (fold_left (fun a b => add a (g b)) blocks acc)
  = fold_left (fun t b => add t (val (g b))) blocks (val acc).
Proof.
  revert acc. induction blocks as [|b blocks IH]; intros acc; [reflexivity|].
  cbn [fold_left]. now rewrite IH.
Qed.

Lemma fold_add_zero {X : Type} (blocks : list X) (t : B) :
  fold_left (fun a _ => add a zero) blocks t = t.
Proof.
  revert t. induction blocks as [|b blocks IH]; intros t; [reflexivity|].
  cbn [fold_left]. now rewrite add_0_r.
Qed.

End DualSums.

(** C6.  Run on dual numbers, that is, differentiated along any
    direction of the input, the MGGA accumulation leaves the derivative
    of [nelec[idm]] as it was, whatever the derivative of [den] is, while
    its value still grows by the sum of the values of [den]:
    [stop_grad] takes [den] out of the differentiation.  [excsum[idm]]
    grows by [dot(den, exc)] computed on [den] and [exc] as they are, so
    its derivative grows, block by block, by the product-rule derivative
    [sum(den * exc' + den' * exc)]. *)
Theorem mgga_stop_grad_only_on_nelec {B : Type} `{ExactArith B} {AO Mask Coords : Type}
    (e : Numint.env (dual B) AO Mask Coords)
    (blocks : list (Numint.block (dual B) AO Mask Coords))
    (s : Numint.store (dual B) AO Coords) :
  Numint.nset e <= length (Numint.nelec s) ->
  Numint.nset e <= length (Numint.excsum s) ->
  (forall b idm, In b blocks -> idm < Numint.nset e -> Numint.mgga_ready e idm b) ->
  exists s',
    Numint.block_loop Numint.MGGA e blocks s = (Ok tt, s')
    /\ forall idm, idm < Numint.nset e ->
         let den := Numint.den_of e idm in
         let exc := Numint.exc_of e idm in
         tan (nth idm (Numint.nelec s') zero) = tan (nth idm (Numint.nelec s) zero)
         /\ val (nth idm (Numint.nelec s') zero)
            = fold_left (fun a b => add a (vsum (map val (den b)))) blocks
                (val (nth idm (Numint.nelec s) zero))
         /\ nth idm (Numint.excsum s') zero
            = fold_left (fun a b => add a (dot_raw (den b) (exc b))) blocks
                (nth idm (Numint.excsum s) zero)
         /\ tan (nth idm (Numint.excsum s') zero)
            = fold_left
                (fun t b =>
                   add t (vsum (zip_with
                                  (fun x y => add (mul (val x) (tan y)) (mul (tan x) (val y)))
                                  (den b) (exc b))))
                blocks (tan (nth idm (Numint.excsum s) zero)).
Proof.
  intros Hn Hx Hready.
  destruct (mgga_loop_run e blocks s Hready Hn Hx) as (s' & Hrun & _ & _ & Hs').
  exists s'. split; [exact Hrun|]. intros idm Hidm. cbn zeta.
  destruct (Hs' idm Hidm) as [Hnel Hexc].
  unfold Numint.nelec_term in Hnel. unfold Numint.excsum_term in Hexc.
  repeat apply conj.
  - rewrite Hnel, tan_fold_blocks.
    rewrite (fold_left_ext _ (fun a _ => add a zero)); [apply fold_add_zero|].
    intros a b. now rewrite tan_vsum_stop_grad.
  - rewrite Hnel, val_fold_blocks. apply fold_left_ext.
    intros a b. now rewrite val_vsum_stop_grad.
  - exact Hexc.
  - rewrite Hexc, tan_fold_blocks. apply fold_left_ext.
    intros a b. now rewrite tan_dot_raw.
Qed.

Lemma mgga_stop_grad_only_on_nelec_witness :
  let e := Examples.surroundings Examples.classical_eval_xc in
  exists s',
    Numint.block_loop Numint.MGGA e [Examples.block_d] Examples.empty_store = (Ok tt, s')
    /\ tan (nth 0 (Numint.nelec s') zero) = 0%Z
    /\ val (nth 0 (Numint.nelec s') zero) = 17%Z
    /\ tan (nth 0 (Numint.excsum s') zero) = 34%Z.
Proof.
  intros e.
  destruct (mgga_stop_grad_only_on_nelec e [Examples.block_d] Examples.empty_store)
    as (s' & Hrun & Htot).
  - cbn. lia.
  - cbn. lia.
  - intros b idm [<-|[]] Hidm. assert (idm = 0) as -> by (cbn in Hidm; lia).
    split; [do 2 eexists; split; reflexivity
           |eexists; split; [reflexivity | split; [cbn; lia | reflexivity]]].
  - exists s'. destruct (Htot 0) as (Ht & Hv & _ & Hx); [cbn; lia|].
    split; [exact Hrun|]. split; [exact Ht|]. split; [exact Hv | exact Hx].
Defined.


(* ================================================================== *)
(** * More on the region of [get_veff] *)
(* ================================================================== *)

Section EqbClose.
Context {A : Type} `{Scalar A}.

Lemma vec_eqb_close (u v : list A) : vec_eqb u v = true <-> Forall2 num_eq u v.
Proof.
  unfold vec_eqb. revert v. induction u as [|x u IH]; intros [|y v].
  - split; [constructor | reflexivity].
  - split; [discriminate | intros HF; inversion HF].
  - split; [discriminate | intros HF; inversion HF].
  - cbn [length Nat.eqb zip zip_with forallb fst snd]. split.
    + intros Hb. apply andb_true_iff in Hb. destruct Hb as [Hlen Hb].
      apply andb_true_iff in Hb. destruct Hb as [Hxy Hb].
      constructor; [exact Hxy|]. apply IH. now rewrite Hlen, Hb.
    + intros HF. inversion HF as [|? ? ? ? Hxy HF']; subst.
      apply IH in HF'. apply andb_true_iff in HF'. destruct HF' as [Hlen Hb].
      unfold num_eq in Hxy. now rewrite Hlen, Hxy, Hb.
Qed.

Lemma matrix_eqb_close (a b : list (list A)) : matrix_eqb a b = true <-> close a b.
Proof.
  unfold matrix_eqb, close. revert b. induction a as [|x a IH]; intros [|y b].
  - split; [constructor | reflexivity].
  - split; [discriminate | intros HF; inversion HF].
  - split; [discriminate | intros HF; inversion HF].
  - cbn [length Nat.eqb zip zip_with forallb fst snd]. split.
    + intros Hb. apply andb_true_iff in Hb. destruct Hb as [Hlen Hb].
      apply andb_true_iff in Hb. destruct Hb as [Hxy Hb].
      constructor; [now apply vec_eqb_close|]. apply IH. now rewrite Hlen, Hb.
    + intros HF. inversion HF as [|? ? ? ? Hxy HF']; subst.
      apply IH in HF'. apply andb_true_iff in HF'. destruct HF' as [Hlen Hb].
      apply vec_eqb_close in Hxy. now rewrite Hlen, Hxy, Hb.
Qed.

End EqbClose.

Section TransposeClose.
Context {A : Type} `{IdentityLaws A}.

Lemma nth_close (u v : list A) (j : nat) :
  Forall2 num_eq u v -> num_eq (nth j u zero) (nth j v zero).
Proof.
  intros HF. revert j. induction HF as [|x y u v Hxy HF IH]; intros [|j]; cbn;
    try (apply num_eq_refl, regular_zero); auto.
Qed.

Lemma close_ncols (a b : list (list A)) : close a b -> ncols a = ncols b.
Proof.
  intros [|x y a' b' Hxy _]; [reflexivity|].
  unfold ncols. cbn. eapply Forall2_length; eauto.
Qed.

Lemma close_transpose (a b : list (list A)) :
  close a b -> close (transpose a) (transpose b).
Proof.
  intros Hab. unfold transpose. rewrite <- (close_ncols a b Hab).
  unfold close. induction (seq 0 (ncols a)) as [|j js IH]; cbn; constructor; [|exact IH].
  unfold column. clear IH.
  induction Hab as [|x y a b Hxy Hab IH]; cbn; constructor; [|exact IH].
  now apply nth_close.
Qed.

Lemma close_symmetric (r g : list (list A)) :
  close r g -> matrix_eqb g (transpose g) = true -> matrix_eqb r (transpose r) = true.
Proof.
  intros Hrg Hsym. apply matrix_eqb_close. apply matrix_eqb_close in Hsym.
  eapply close_trans; [exact Hrg|]. eapply close_trans; [exact Hsym|].
  apply close_transpose. now apply close_sym.
Qed.

End TransposeClose.

(** X1.  The symmetry step does not break a symmetric gradient.  When the
    classical energy is a NaN, the density matrix is square (or a stack of
    square matrices), and the gradient of the network is finite and equal
    to its transpose entry by entry, the fallback returns and the
    potential it stores is equal to its own transpose entry by entry. *)
Theorem get_veff_keeps_symmetry {A : Type} `{IdentityLaws A} {Other : Type}
    (s : Rks.state A Other) (dm : tensor A) :
  isnan (snd (fst (Rks.classical s dm))) = true ->
  square dm ->
  tensor_regular (Rks.raw_gradient s dm) ->
  is_symmetric (Rks.raw_gradient s dm) = true ->
  fst (Rks.get_veff dm s) = Ok tt
  /\ is_symmetric (Rks.vxc (Rks.st_vxc (snd (Rks.get_veff dm s)))) = true.
Proof.
  intros Hnan Hsq Hreg Hsym. rewrite (get_veff_nan_run s dm Hnan). cbn zeta.
  pose proof (restore_symmetry_square (Rks.network_eval (Rks.st_ks s)) dm Hsq) as Hstep.
  pose proof (grad_square (Rks.network_eval (Rks.st_ks s)) dm Hsq) as Hshape.
  cbn zeta in Hstep. unfold Rks.raw_gradient in *.
  destruct (Rks.grad _ dm) as [g|gs].
  - destruct Hstep as (r & Hr & ->). cbn. split; [reflexivity|].
    cbn in Hsym, Hreg. eapply close_symmetric; [|exact Hsym].
    eapply two_sided_eye_close; eauto.
  - rewrite Hstep. cbn. split; [reflexivity|].
    cbn in Hsym, Hreg. rewrite forallb_forall in Hsym. apply forallb_forall.
    intros c Hc. apply in_map_iff in Hc. destruct Hc as (g & <- & Hg).
    apply (close_symmetric _ g); [|apply Hsym; exact Hg].
    rewrite Forall_forall in Hreg, Hshape.
    apply contract_eye; [apply Hshape | apply Hreg]; now apply list_elem_of_In.
Qed.

Lemma get_veff_keeps_symmetry_witness :
  let s := Examples.start (Examples.solver b64_nan Examples.net_sym) in
  fst (Rks.get_veff Examples.dm_2x2 s) = Ok tt
  /\ is_symmetric (Rks.vxc (Rks.st_vxc (snd (Rks.get_veff Examples.dm_2x2 s)))) = true.
Proof.
  intros s.
  assert (Hsq : square Examples.dm_2x2) by repeat constructor.
  assert (Hreg : tensor_regular (Rks.raw_gradient s Examples.dm_2x2))
    by (vm_compute; repeat constructor).
  assert (Hnan : isnan (snd (fst (Rks.classical s Examples.dm_2x2))) = true)
    by reflexivity.
  assert (Hsym : is_symmetric (Rks.raw_gradient s Examples.dm_2x2) = true)
    by (vm_compute; reflexivity).
  exact (get_veff_keeps_symmetry s Examples.dm_2x2 Hnan Hsq Hreg Hsym).
Defined.

Section Verbose.
Context {A : Type} `{Scalar A} {Other : Type}.
Implicit Types (s : Rks.state A Other) (dm : tensor A).

Lemma without_symmetry_notice_app (o1 o2 : list (Rks.event A)) :
  without_symmetry_notice (o1 ++ o2)
  = without_symmetry_notice o1 ++ without_symmetry_notice o2.
Proof. apply List.filter_app. Qed.

Lemma fallback_output_verbose s dm (v : bool) :
  without_symmetry_notice (Rks.fallback_output (set_verbose v s) dm)
  = without_symmetry_notice (Rks.st_out s) ++ [nan_notice; Rks.NetworkEval dm].
Proof.
  unfold Rks.fallback_output. rewrite !without_symmetry_notice_app.
  cbn [set_verbose Rks.st_out Rks.st_ks Rks.network_verbose]. f_equal.
  destruct v; reflexivity.
Qed.

Lemma set_verbose_same s : set_verbose (Rks.network_verbose (Rks.st_ks s)) s = s.
Proof. destruct s as [n vx [x nl nr nv ne] o]. reflexivity. Qed.

End Verbose.

(** X2.  [ks.network.verbose] changes what is printed and nothing else:
    with the flag set either way the region ends the same way, with the
    same [n] and the same [vxc] object, and with the same output but for
    the line 'restoring vxc symmetry'.  The line that announces the
    fallback is not under the flag: it is printed whenever the classical
    energy is a NaN. *)
Theorem get_veff_verbose_only_prints {A : Type} `{Scalar A} {Other : Type}
    (s : Rks.state A Other) (dm : tensor A) (v : bool) :
  let r := Rks.get_veff dm s in
  let r' := Rks.get_veff dm (set_verbose v s) in
  fst r' = fst r
  /\ Rks.st_n (snd r') = Rks.st_n (snd r)
  /\ Rks.st_vxc (snd r') = Rks.st_vxc (snd r)
  /\ without_symmetry_notice (Rks.st_out (snd r'))
     = without_symmetry_notice (Rks.st_out (snd r))
  /\ (isnan (snd (fst (Rks.classical s dm))) = true ->
      In nan_notice (Rks.st_out (snd r'))).
Proof.
  cbn zeta.
  assert (Hrun : forall w,
             let r := Rks.get_veff dm (set_verbose w s) in
             if isnan (snd (fst (Rks.classical s dm))) then
               exists o,
                 Rks.st_out (snd r) = Rks.fallback_output (set_verbose w s) dm
                 /\ r = (match Rks.restore_symmetry (eye (shape_last dm))
                                 (Rks.raw_gradient s dm) with
                         | Ok t => (Ok tt,
                                    Rks.set_exc (Rks.network_value s dm)
                                      (Rks.set_vxc t
                                         (Rks.with_output o
                                            (Rks.after_primary (set_verbose w s) dm))))
                         | Raise e => (Raise e,
                                       Rks.with_output o
                                         (Rks.after_primary (set_verbose w s) dm))
                         end)
             else r = (Ok tt, Rks.after_primary (set_verbose w s) dm)).
  { intros w. cbn zeta. rewrite get_veff_run.
    change (Rks.classical (set_verbose w s) dm) with (Rks.classical s dm).
    destruct (isnan (snd (fst (Rks.classical s dm)))); [|reflexivity].
    rewrite network_fallback_run. cbn zeta.
    destruct (after_primary_fields (set_verbose w s) dm) as (_ & _ & _ & _ & Hks & Hout).
    exists (Rks.fallback_output (Rks.after_primary (set_verbose w s) dm) dm).
    unfold Rks.raw_gradient, Rks.network_value.
    rewrite Hks. cbn [set_verbose Rks.st_ks Rks.network_eval].
    split; [|reflexivity].
    unfold Rks.fallback_output. rewrite Hout, Hks.
    destruct (Rks.restore_symmetry _ _); reflexivity. }
  pose proof (Hrun v) as Hv.
  pose proof (Hrun (Rks.network_verbose (Rks.st_ks s))) as Hs.
  rewrite set_verbose_same in Hs. cbn zeta in Hv, Hs.
  assert (Hprim : Rks.st_n (Rks.after_primary (set_verbose v s) dm)
                  = Rks.st_n (Rks.after_primary s dm)
                  /\ Rks.st_vxc (Rks.after_primary (set_verbose v s) dm)
                     = Rks.st_vxc (Rks.after_primary s dm)
                  /\ Rks.st_out (Rks.after_primary (set_verbose v s) dm)
                     = Rks.st_out (Rks.after_primary s dm)).
  { unfold Rks.after_primary.
    cbn [set_verbose Rks.st_ks Rks.nr_rks Rks.xc].
    destruct (Rks.nr_rks (Rks.st_ks s) (Rks.xc (Rks.st_ks s)) dm) as [[n e] t].
    repeat split. }
  destruct Hprim as (Hn & Hvx & Ho).
  destruct (isnan (snd (fst (Rks.classical s dm)))).
  - destruct Hv as (o & Hout & Hr). destruct Hs as (o' & Hout' & Hr').
    assert (Hnotice : In nan_notice (Rks.fallback_output (set_verbose v s) dm)).
    { unfold Rks.fallback_output. apply in_or_app. right. now left. }
    rewrite <- Hout in Hnotice.
    assert (Hfilter : without_symmetry_notice (Rks.st_out (snd (Rks.get_veff dm (set_verbose v s))))
                      = without_symmetry_notice (Rks.st_out (snd (Rks.get_veff dm s)))).
    { rewrite Hout, Hout', fallback_output_verbose.
      rewrite <- (set_verbose_same s) at 2. now rewrite fallback_output_verbose. }
    split; [|split; [|split; [|split; [exact Hfilter | intros _; exact Hnotice]]]];
      rewrite Hr, Hr'; destruct (Rks.restore_symmetry _ _); cbn; auto; congruence.
  - rewrite Hv, Hs. cbn [fst snd]. rewrite Hn, Hvx, Ho.
    repeat split. discriminate.
Qed.

Lemma get_veff_verbose_only_prints_witness :
  let s := Examples.start (Examples.solver b64_nan Examples.net_sym) in
  Rks.st_vxc (snd (Rks.get_veff Examples.dm_2x2 (set_verbose false s)))
  = Rks.st_vxc (snd (Rks.get_veff Examples.dm_2x2 s))
  /\ In nan_notice (Rks.st_out (snd (Rks.get_veff Examples.dm_2x2 (set_verbose false s)))).
Proof.
  intros s.
  destruct (get_veff_verbose_only_prints s Examples.dm_2x2 false)
    as (_ & _ & Hvxc & _ & Hnotice).
  split; [exact Hvxc | apply Hnotice; reflexivity].
Defined.

Section NonSquare.
Context {A : Type} `{Scalar A}.

Lemma two_sided_eye_mismatch (n k : nat) (g : list (list A)) :
  is_matrix n k g -> 0 < n -> n <> k -> two_sided (eye k) g = Raise TypeError.
Proof.
  intros Hg Hn Hnk. unfold two_sided.
  rewrite matmul_shape_ok.
  - unfold matmul. rewrite ncols_eye. unfold nrows. rewrite length_map.
    destruct Hg as [-> _].
    destruct (Nat.eqb_spec k n); [congruence | reflexivity].
  - rewrite (ncols_matrix n k g Hg Hn), transpose_eye. unfold nrows. now rewrite length_eye.
Qed.

End NonSquare.

(** X3.  A density matrix that is not square makes the fallback fail in
    the symmetry step, after the network has been evaluated: for [n] rows
    of [k <> n] entries and a NaN classical energy, the region raises
    [TypeError] (from [np.matmul], which is [jax.numpy]'s), has called the network once, and
    leaves the classical (NaN) energy and potential in the [vxc]
    object. *)
Theorem get_veff_rejects_non_square {A : Type} `{Scalar A} {Other : Type}
    (s : Rks.state A Other) (m : list (list A)) (n k : nat) :
  isnan (snd (fst (Rks.classical s (T2 m)))) = true ->
  is_matrix n k m -> 0 < n -> n <> k ->
  let r := Rks.get_veff (T2 m) s in
  fst r = Raise TypeError
  /\ Rks.exc (Rks.st_vxc (snd r)) = snd (fst (Rks.classical s (T2 m)))
  /\ Rks.vxc (Rks.st_vxc (snd r)) = snd (Rks.classical s (T2 m))
  /\ Rks.network_calls (Rks.st_out (snd r)) = S (Rks.network_calls (Rks.st_out s)).
Proof.
  intros Hnan Hm Hn Hnk. cbn zeta. rewrite (get_veff_nan_run s (T2 m) Hnan). cbn zeta.
  unfold Rks.raw_gradient. cbn [Rks.grad Rks.restore_symmetry shape_last].
  rewrite (ncols_matrix n k m Hm Hn).
  rewrite (two_sided_eye_mismatch n k) by (try apply grad2_is_matrix; assumption).
  cbn [fst snd Rks.with_output Rks.st_vxc Rks.st_out].
  destruct (after_primary_fields s (T2 m)) as (_ & He & Hv & _).
  split; [reflexivity|]. split; [exact He|]. split; [exact Hv|].
  apply network_calls_fallback.
Qed.

Lemma get_veff_rejects_non_square_witness :
  let s := Examples.start (Examples.solver b64_nan Examples.net_offdiag) in
  let r := Rks.get_veff RunExamples.dm_2x3 s in
  fst r = Raise TypeError
  /\ Rks.exc (Rks.st_vxc (snd r)) = b64_nan
  /\ Rks.vxc (Rks.st_vxc (snd r)) = RunExamples.dm_2x3
  /\ Rks.network_calls (Rks.st_out (snd r)) = 1.
Proof.
  intros s.
  assert (Hnan : isnan (snd (fst (Rks.classical s RunExamples.dm_2x3))) = true)
    by reflexivity.
  assert (Hm : is_matrix 2 3 [[Examples.f1; Examples.f0; Examples.f0];
                              [Examples.f0; Examples.f1; Examples.f0]])
    by (split; [reflexivity | repeat constructor]).
  exact (get_veff_rejects_non_square s _ 2 3 Hnan Hm ltac:(lia) ltac:(lia)).
Defined.


(* ================================================================== *)
(** * More on the block loop *)
(* ================================================================== *)

(** What a loop leaves in a log to which every pass appends a part of
    what it stands for, all of it when the pass returns: a part of what
    the passes stand for together, all of it when the loop returns. *)
Lemma for_each_log {S X E : Type} (log : S -> list E) (xs : list X)
    (body : X -> M S unit) (produced : X -> list E) (s : S) :
  (forall x s0, exists evs rest,
      log (snd (body x s0)) = log s0 ++ evs
      /\ produced x = evs ++ rest
      /\ (forall u, fst (body x s0) = Ok u -> rest = [])) ->
  exists evs rest,
    log (snd (for_each xs body s)) = log s ++ evs
    /\ flat_map produced xs = evs ++ rest
    /\ (forall u, fst (for_each xs body s) = Ok u -> rest = []).
Proof.
  intros Hbody. revert s. induction xs as [|x xs IH]; intros s.
  - exists [], []. cbn. rewrite app_nil_r. auto.
  - cbn [for_each flat_map]. unfold bind.
    destruct (Hbody x s) as (evs1 & rest1 & Hlog1 & Hp1 & Hok1).
    destruct (body x s) as [[u|ex] s1]; cbn [fst snd] in *.
    + rewrite (Hok1 u eq_refl), app_nil_r in Hp1.
      destruct (IH s1) as (evs2 & rest2 & Hlog2 & Hp2 & Hok2).
      exists (evs1 ++ evs2), rest2.
      rewrite Hlog2, Hlog1, Hp1, Hp2, !app_assoc. auto.
    + exists evs1, (rest1 ++ flat_map produced xs).
      rewrite Hlog1, Hp1, app_assoc. repeat split. discriminate.
Qed.

Lemma flat_map_count {X E : Type} (count : list E -> nat) (f : X -> list E)
    (xs : list X) (lo hi : nat) :
  count [] = 0 ->
  (forall l1 l2, count (l1 ++ l2) = count l1 + count l2) ->
  (forall x, lo <= count (f x) <= hi) ->
  lo * length xs <= count (flat_map f xs) <= hi * length xs.
Proof.
  intros Hnil Happ Hf. induction xs as [|x xs IH]; cbn [flat_map length].
  - rewrite Hnil. lia.
  - rewrite Happ. specialize (Hf x). lia.
Qed.

Section LoopLog.
Context {A : Type} `{Scalar A} {AO Mask Coords : Type}.
Implicit Types (e : Numint.env A AO Mask Coords) (b : Numint.block A AO Mask Coords).
Implicit Types (s : Numint.store A AO Coords).

Lemma body_log level e b (idm : nat) s :
  Numint.out (snd (Numint.body level e b idm s))
  = Numint.out s ++ attempt_events e level b idm.
Proof.
  destruct (body_after_dispatch level e b idm s) as (-> & _).
  rewrite dispatch_run. cbn zeta. unfold attempt_events, Numint.logged.
  destruct (Numint.eval_xc e (Numint.extended_call e b _)); [reflexivity|].
  destruct (Numint.eval_xc e (Numint.minimal_call e _));
    cbn [snd Numint.out]; now rewrite <- app_assoc.
Qed.

Lemma shape_lines_app (l1 l2 : list (Numint.event A AO Coords)) :
  shape_lines (l1 ++ l2) = shape_lines l1 ++ shape_lines l2.
Proof. apply List.filter_app. Qed.

Lemma attempt_counts e level b (idm : nat) :
  length (shape_lines (attempt_events e level b idm)) = 1
  /\ 1 <= length (Numint.xc_calls (attempt_events e level b idm)) <= 2
  /\ ((forall c, Numint.is_extended c = true -> exists ex, Numint.eval_xc e c = Raise ex) ->
      length (Numint.xc_calls (attempt_events e level b idm)) = 2).
Proof.
  unfold attempt_events.
  destruct (Numint.eval_xc e (Numint.extended_call e b _)) as [r|ex] eqn:E; cbn.
  - repeat split; try lia. intros Hall.
    destruct (Hall (Numint.extended_call e b
                      (Numint.make_rho e idm (Numint.ao b) (Numint.mask b) level)) eq_refl)
      as [ex Hex].
    congruence.
  - repeat split; lia.
Qed.

Lemma loop_log level e (blocks : list (Numint.block A AO Mask Coords)) s :
  exists evs rest,
    Numint.out (snd (Numint.block_loop level e blocks s)) = Numint.out s ++ evs
    /\ loop_events e level blocks = evs ++ rest
    /\ (forall u, fst (Numint.block_loop level e blocks s) = Ok u -> rest = []).
Proof.
  unfold Numint.block_loop, loop_events.
  apply (for_each_log Numint.out). intros b s0.
  apply (for_each_log Numint.out). intros idm s1.
  exists (attempt_events e level b idm), [].
  unfold bind, ret. pose proof (body_log level e b idm s1) as Hlog.
  destruct (Numint.body level e b idm s1) as [[l|ex] s2]; cbn [fst snd] in *;
    rewrite Hlog, app_nil_r; auto.
Qed.

End LoopLog.

(** X4.  Whatever the level and however the loop over the blocks ends,
    what it has printed and called is a front part of: for every block,
    for every density set, the shapes line, the extended call and, when
    that call raises, the minimal call; and it is all of that when the
    loop returns.  So a returned loop has printed one shapes line per
    block and density set and has called the evaluator at least once and
    at most twice for each; with an evaluator that knows the minimal call
    only, it is twice for each: a failed extended call is tried again for
    every block. *)
Theorem block_loop_log {A : Type} `{Scalar A} {AO Mask Coords : Type}
    (level : Numint.xctype) (e : Numint.env A AO Mask Coords)
    (blocks : list (Numint.block A AO Mask Coords)) (s : Numint.store A AO Coords) :
  let passes := length blocks * Numint.nset e in
  (exists evs rest,
     Numint.out (snd (Numint.block_loop level e blocks s)) = Numint.out s ++ evs
     /\ loop_events e level blocks = evs ++ rest
     /\ (forall u, fst (Numint.block_loop level e blocks s) = Ok u -> rest = []))
  /\ length (shape_lines (loop_events e level blocks)) = passes
  /\ passes <= length (Numint.xc_calls (loop_events e level blocks)) <= 2 * passes
  /\ ((forall c, Numint.is_extended c = true -> exists ex, Numint.eval_xc e c = Raise ex) ->
      length (Numint.xc_calls (loop_events e level blocks)) = 2 * passes).
Proof.
  cbn zeta. split; [apply loop_log|].
  assert (Hin : forall (count : list (Numint.event A AO Coords) -> nat) lo hi,
             count [] = 0 ->
             (forall l1 l2, count (l1 ++ l2) = count l1 + count l2) ->
             (forall b idm, lo <= count (attempt_events e level b idm) <= hi) ->
             lo * (length blocks * Numint.nset e)
             <= count (loop_events e level blocks)
             <= hi * (length blocks * Numint.nset e)).
  { intros count lo hi Hnil Happ Hf. unfold loop_events.
    pose proof (flat_map_count count
                  (fun b => flat_map (attempt_events e level b) (seq 0 (Numint.nset e)))
                  blocks (lo * Numint.nset e) (hi * Numint.nset e) Hnil Happ) as Hb.
    assert (Hrow : forall b,
               lo * Numint.nset e
               <= count (flat_map (attempt_events e level b) (seq 0 (Numint.nset e)))
               <= hi * Numint.nset e).
    { intros b.
      pose proof (flat_map_count count (attempt_events e level b)
                    (seq 0 (Numint.nset e)) lo hi Hnil Happ (Hf b)) as Hr.
      rewrite length_seq in Hr. exact Hr. }
    specialize (Hb Hrow). nia. }
  split; [|split].
  - pose proof (Hin (fun l => length (shape_lines l)) 1 1 eq_refl) as Hs.
    cbn beta in Hs. lapply Hs.
    + intros Hs'. lapply Hs'; [lia|].
      intros b idm. destruct (attempt_counts e level b idm) as (-> & _). lia.
    + intros l1 l2. now rewrite shape_lines_app, length_app.
  - pose proof (Hin (fun l => length (Numint.xc_calls l)) 1 2 eq_refl) as Hc.
    cbn beta in Hc. lapply Hc.
    + intros Hc'. lapply Hc'; [lia|].
      intros b idm. destruct (attempt_counts e level b idm) as (_ & Hb & _). exact Hb.
    + intros l1 l2. now rewrite xc_calls_app, length_app.
  - intros Hall.
    pose proof (Hin (fun l => length (Numint.xc_calls l)) 2 2 eq_refl) as Hc.
    cbn beta in Hc. lapply Hc.
    + intros Hc'. lapply Hc'; [lia|].
      intros b idm. destruct (attempt_counts e level b idm) as (_ & _ & Hb).
      rewrite (Hb Hall). lia.
    + intros l1 l2. now rewrite xc_calls_app, length_app.
Qed.

Lemma block_loop_log_witness :
  let e := Examples.surroundings Examples.classical_eval_xc in
  length (shape_lines (loop_events e Numint.GGA [Examples.block_a; Examples.block_b])) = 2
  /\ length (Numint.xc_calls (loop_events e Numint.GGA [Examples.block_a; Examples.block_b]))
     = 4.
Proof.
  intros e.
  destruct (block_loop_log Numint.GGA e [Examples.block_a; Examples.block_b]
              Examples.empty_store) as (_ & Hlines & _ & Hcalls).
  split; [exact Hlines|]. apply Hcalls.
  intros c Hc. destruct c; [exists TypeError; reflexivity | discriminate Hc].
Defined.

(** A relation between the store before and after that every pass keeps
    is kept by the loop. *)
Lemma for_each_preserves {S X : Type} (R : S -> S -> Prop) (xs : list X)
    (body : X -> M S unit) (s : S) :
  (forall a, R a a) ->
  (forall a b c, R a b -> R b c -> R a c) ->
  (forall x s0, In x xs -> R s0 (snd (body x s0))) ->
  R s (snd (for_each xs body s)).
Proof.
  intros Hrefl Htrans. revert s. induction xs as [|x xs IH]; intros s Hbody.
  - apply Hrefl.
  - cbn [for_each]. unfold bind.
    pose proof (Hbody x s (or_introl eq_refl)) as Hx.
    destruct (body x s) as [[u|ex] s1]; cbn [snd] in *; [|exact Hx].
    eapply Htrans; [exact Hx|]. apply IH. intros; apply Hbody; now right.
Qed.

Section Frame.
Context {A : Type} `{Scalar A} {AO Mask Coords : Type}.
Implicit Types (e : Numint.env A AO Mask Coords) (b : Numint.block A AO Mask Coords).
Implicit Types (s : Numint.store A AO Coords).

Lemma kept_from_refl n s : kept_from n s s.
Proof. repeat split. Qed.

Lemma kept_from_trans n s1 s2 s3 :
  kept_from n s1 s2 -> kept_from n s2 s3 -> kept_from n s1 s3.
Proof.
  intros (Hn1 & Hx1 & H1) (Hn2 & Hx2 & H2). repeat split; try congruence.
  - destruct (H1 j), (H2 j); auto; congruence.
  - destruct (H1 j), (H2 j); auto; congruence.
Qed.

Lemma mgga_body_frame e b (idm : nat) s :
  let s' := snd (Numint.mgga_body e b idm s) in
  length (Numint.nelec s') = length (Numint.nelec s)
  /\ length (Numint.excsum s') = length (Numint.excsum s)
  /\ forall j, j <> idm ->
       Numint.nelec s' !! j = Numint.nelec s !! j
       /\ Numint.excsum s' !! j = Numint.excsum s !! j.
Proof.
  cbn zeta. unfold Numint.mgga_body, bind.
  destruct (dispatch_store e Numint.MGGA b
              (Numint.make_rho e idm (Numint.ao b) (Numint.mask b) Numint.MGGA) s)
    as [Hn Hx].
  destruct (Numint.dispatch e _ b _ s) as [[[exc vxc]|ex] s1];
    cbn [fst snd] in *; rewrite <- Hn, <- Hx; clear Hn Hx;
    unfold raise, ret, lift_result, gets, modify, bind, Numint.add_at, dot;
    repeat case_match; simplify_eq/=;
    rewrite ?length_insert; repeat split; intros;
    rewrite ?list_lookup_insert_ne by congruence; reflexivity.
Qed.

Lemma mgga_loop_frame e (blocks : list (Numint.block A AO Mask Coords)) s :
  kept_from (Numint.nset e) s (snd (Numint.block_loop Numint.MGGA e blocks s)).
Proof.
  unfold Numint.block_loop.
  apply for_each_preserves;
    [apply kept_from_refl | apply kept_from_trans | intros b s0 _].
  apply for_each_preserves;
    [apply kept_from_refl | apply kept_from_trans | intros idm s1 Hidm].
  apply in_seq in Hidm. unfold bind, ret. cbn [Numint.body].
  destruct (mgga_body_frame e b idm s1) as (Hn & Hx & Hj).
  destruct (Numint.mgga_body e b idm s1) as [[l|ex] s2]; cbn [snd] in *;
    (split; [exact Hn|]; split; [exact Hx|]; intros j Hle; apply Hj; lia).
Qed.

End Frame.

(** X5.  The MGGA accumulation writes the entry of its own density set
    and nothing else: however a pass through the MGGA branch ends, both
    accumulators keep their lengths and every entry other than [idm]; and
    however the loop over the blocks ends, the entries from [nset] on are
    as they were. *)
Theorem mgga_touches_only_its_density_set {A : Type} `{Scalar A} {AO Mask Coords : Type}
    (e : Numint.env A AO Mask Coords) (b : Numint.block A AO Mask Coords)
    (blocks : list (Numint.block A AO Mask Coords)) (idm : nat)
    (s : Numint.store A AO Coords) :
  let s1 := snd (Numint.body Numint.MGGA e b idm s) in
  let s' := snd (Numint.block_loop Numint.MGGA e blocks s) in
  (length (Numint.nelec s1) = length (Numint.nelec s)
   /\ length (Numint.excsum s1) = length (Numint.excsum s)
   /\ forall j, j <> idm ->
        Numint.nelec s1 !! j = Numint.nelec s !! j
        /\ Numint.excsum s1 !! j = Numint.excsum s !! j)
  /\ length (Numint.nelec s') = length (Numint.nelec s)
  /\ length (Numint.excsum s') = length (Numint.excsum s)
  /\ forall j, Numint.nset e <= j ->
       Numint.nelec s' !! j = Numint.nelec s !! j
       /\ Numint.excsum s' !! j = Numint.excsum s !! j.
Proof.
  cbn zeta. split; [apply mgga_body_frame | apply mgga_loop_frame].
Qed.

Lemma mgga_touches_only_its_density_set_witness :
  let e := Examples.surroundings Examples.classical_eval_xc in
  let s' := snd (Numint.block_loop Numint.MGGA e [Examples.block_a; Examples.block_b]
                   RunExamples.wide_store) in
  Numint.nelec s' !! 1 = Some 10%Z /\ Numint.excsum s' !! 2 = Some 40%Z.
Proof.
  intros e.
  destruct (mgga_touches_only_its_density_set e Examples.block_a
              [Examples.block_a; Examples.block_b] 0 RunExamples.wide_store)
    as (_ & _ & _ & Hkept).
  split.
  - destruct (Hkept 1) as [Hn _]; [cbn; lia | exact Hn].
  - destruct (Hkept 2) as [_ Hx]; [cbn; lia | exact Hx].
Defined.

Section Failures.
Context {A : Type} `{Scalar A} {AO Mask Coords : Type}.
Implicit Types (e : Numint.env A AO Mask Coords) (b : Numint.block A AO Mask Coords).
Implicit Types (s : Numint.store A AO Coords).

Lemma dispatch_selected_store e level b (rho : Numint.density A) s r :
  Numint.selected e b rho = Ok r ->
  exists s1, Numint.dispatch e level b rho s = (Ok (Numint.first_two r), s1)
             /\ Numint.nelec s1 = Numint.nelec s /\ Numint.excsum s1 = Numint.excsum s.
Proof.
  intros Hsel. destruct (dispatch_selected_run e level b rho s r Hsel) as (evs & ->).
  eexists. split; [reflexivity|]. split; reflexivity.
Qed.

End Failures.



(** X7.  The unpacking after the [try] / [except] fails on a short
    [vxc], after the evaluator has been called: [vrho = vxc[0]] of the
    LDA branch raises [IndexError] on an empty [vxc], and
    [vrho, vsigma, vlapl, vtau = vxc[:4]] of the MGGA branch raises
    [ValueError] on fewer than four components; neither accumulator has
    been touched then. *)
Theorem short_vxc_fails_unpacking {A : Type} `{Scalar A} {AO Mask Coords : Type}
    (e : Numint.env A AO Mask Coords) (b : Numint.block A AO Mask Coords) (idm : nat)
    (s : Numint.store A AO Coords) :
  (forall r,
     Numint.selected e b (Numint.make_rho e idm (Numint.ao b) (Numint.mask b) Numint.LDA)
     = Ok r ->
     Numint.ret_vxc r = [] ->
     let run := Numint.body Numint.LDA e b idm s in
     fst run = Raise IndexError
     /\ Numint.nelec (snd run) = Numint.nelec s
     /\ Numint.excsum (snd run) = Numint.excsum s)
  /\ (forall r,
        Numint.selected e b (Numint.make_rho e idm (Numint.ao b) (Numint.mask b) Numint.MGGA)
        = Ok r ->
        length (Numint.ret_vxc r) < 4 ->
        let run := Numint.body Numint.MGGA e b idm s in
        fst run = Raise ValueError
        /\ Numint.nelec (snd run) = Numint.nelec s
        /\ Numint.excsum (snd run) = Numint.excsum s).
Proof.
  split; intros r Hsel Hvxc; cbn zeta; cbn [Numint.body].
  - unfold Numint.lda_body, bind.
    destruct (dispatch_selected_store e Numint.LDA b _ s r Hsel) as (s1 & Hd & Hn1 & Hx1).
    rewrite Hd. cbn [Numint.first_two snd fst]. rewrite Hvxc. cbn. auto.
  - unfold Numint.mgga_body, bind.
    destruct (dispatch_selected_store e Numint.MGGA b _ s r Hsel) as (s1 & Hd & Hn1 & Hx1).
    rewrite Hd. cbn [Numint.first_two snd fst].
    destruct (Numint.ret_vxc r) as [|c0 [|c1 [|c2 [|c3 cs]]]]; cbn in Hvxc; try lia;
      cbn; auto.
Qed.

Lemma short_vxc_fails_unpacking_witness :
  fst (Numint.body Numint.LDA (Examples.surroundings Examples.interrupted_eval_xc)
         Examples.block_a 0 Examples.empty_store) = Raise IndexError
  /\ fst (Numint.body Numint.MGGA (Examples.surroundings RunExamples.three_component_eval_xc)
            Examples.block_a 0 Examples.empty_store) = Raise ValueError.
Proof.
  split.
  - destruct (short_vxc_fails_unpacking
                (Examples.surroundings Examples.interrupted_eval_xc)
                Examples.block_a 0 Examples.empty_store) as [Hlda _].
    destruct (Hlda _ eq_refl eq_refl) as [Hraise _]. exact Hraise.
  - destruct (short_vxc_fails_unpacking
                (Examples.surroundings RunExamples.three_component_eval_xc)
                Examples.block_a 0 Examples.empty_store) as [_ Hmgga].
    destruct (Hmgga _ eq_refl) as [Hraise _]; [cbn; lia | exact Hraise].
Defined.



Section BlockOrder.
Context {A : Type} `{ExactArith A}.

Lemma fold_add_permutation {X : Type} (g : X -> A) (l1 l2 : list X) (acc : A) :
  (forall x y : A, add x y = add y x) ->
  Permutation l1 l2 ->
  fold_left (fun a b => add a (g b)) l1 acc = fold_left (fun a b => add a (g b)) l2 acc.
Proof.
  intros Hcomm Hperm. revert acc.
  induction Hperm as [|x l1 l2 _ IH|x y l|l1 l2 l3 _ IH1 _ IH2]; intros acc; cbn [fold_left].
  - reflexivity.
  - apply IH.
  - now rewrite <- !add_assoc, (Hcomm (g y) (g x)).
  - now rewrite IH1.
Qed.

End BlockOrder.

(** X9.  In exact arithmetic with a commutative sum the totals of the
    MGGA accumulation do not depend on the order in which the blocks
    arrive: over any rearrangement of blocks the MGGA body runs through,
    the loop returns with the same [nelec] and the same [excsum]. *)
Theorem mgga_totals_block_order {A : Type} `{ExactArith A} {AO Mask Coords : Type}
    (e : Numint.env A AO Mask Coords)
    (blocks blocks2 : list (Numint.block A AO Mask Coords))
    (s : Numint.store A AO Coords) :
  (forall x y : A, add x y = add y x) ->
  Permutation blocks blocks2 ->
  Numint.nset e <= length (Numint.nelec s) ->
  Numint.nset e <= length (Numint.excsum s) ->
  (forall b idm, In b blocks -> idm < Numint.nset e -> Numint.mgga_ready e idm b) ->
  exists s1 s2,
    Numint.block_loop Numint.MGGA e blocks s = (Ok tt, s1)
    /\ Numint.block_loop Numint.MGGA e blocks2 s = (Ok tt, s2)
    /\ Numint.nelec s2 = Numint.nelec s1
    /\ Numint.excsum s2 = Numint.excsum s1.
Proof.
  intros Hcomm Hperm Hn Hx Hready.
  destruct (mgga_loop_run e blocks s Hready Hn Hx) as (s1 & Hrun1 & Hln1 & Hlx1 & Hs1).
  assert (Hready2 : forall b idm, In b blocks2 -> idm < Numint.nset e ->
                                  Numint.mgga_ready e idm b).
  { intros b idm Hb. apply Hready. eapply Permutation_in; [symmetry; exact Hperm | exact Hb]. }
  destruct (mgga_loop_run e blocks2 s Hready2 Hn Hx) as (s2 & Hrun2 & Hln2 & Hlx2 & Hs2).
  exists s1, s2. split; [exact Hrun1|]. split; [exact Hrun2|].
  pose proof (mgga_loop_frame e blocks s) as (_ & _ & Hf1).
  pose proof (mgga_loop_frame e blocks2 s) as (_ & _ & Hf2).
  rewrite Hrun1 in Hf1. rewrite Hrun2 in Hf2. cbn [snd] in Hf1, Hf2.
  split; apply list_eq; intros i; destruct (Nat.lt_ge_cases i (Numint.nset e)) as [Hi|Hi].
  - destruct (Hs1 i Hi) as [E1 _]. destruct (Hs2 i Hi) as [E2 _].
    rewrite (fold_add_permutation _ blocks2 blocks) in E2
      by (try exact Hcomm; symmetry; exact Hperm).
    rewrite <- E1 in E2.
    destruct (lookup_lt_is_Some_2 (Numint.nelec s1) i) as [a1 Ha1]; [lia|].
    destruct (lookup_lt_is_Some_2 (Numint.nelec s2) i) as [a2 Ha2]; [lia|].
    rewrite (nth_lookup_Some _ _ _ _ Ha1), (nth_lookup_Some _ _ _ _ Ha2) in E2.
    congruence.
  - destruct (Hf1 i Hi) as [-> _]. destruct (Hf2 i Hi) as [-> _]. reflexivity.
  - destruct (Hs1 i Hi) as [_ E1]. destruct (Hs2 i Hi) as [_ E2].
    rewrite (fold_add_permutation _ blocks2 blocks) in E2
      by (try exact Hcomm; symmetry; exact Hperm).
    rewrite <- E1 in E2.
    destruct (lookup_lt_is_Some_2 (Numint.excsum s1) i) as [a1 Ha1]; [lia|].
    destruct (lookup_lt_is_Some_2 (Numint.excsum s2) i) as [a2 Ha2]; [lia|].
    rewrite (nth_lookup_Some _ _ _ _ Ha1), (nth_lookup_Some _ _ _ _ Ha2) in E2.
    congruence.
  - destruct (Hf1 i Hi) as [_ ->]. destruct (Hf2 i Hi) as [_ ->]. reflexivity.
Qed.

Lemma mgga_totals_block_order_witness :
  let e := Examples.surroundings Examples.classical_eval_xc in
  exists s1 s2,
    Numint.block_loop Numint.MGGA e [Examples.block_a; Examples.block_b]
      Examples.empty_store = (Ok tt, s1)
    /\ Numint.block_loop Numint.MGGA e [Examples.block_b; Examples.block_a]
         Examples.empty_store = (Ok tt, s2)
    /\ Numint.nelec s2 = Numint.nelec s1
    /\ Numint.excsum s2 = Numint.excsum s1.
Proof.
  intros e.
  apply (mgga_totals_block_order e [Examples.block_a; Examples.block_b]
           [Examples.block_b; Examples.block_a] Examples.empty_store).
  - intros x y. apply Z.add_comm.
  - apply perm_swap.
  - cbn. lia.
  - cbn. lia.
  - intros b idm Hb Hidm. assert (idm = 0) as -> by (cbn in Hidm; lia).
    destruct Hb as [<-|[<-|[]]]; (split;
      [do 2 eexists; split; reflexivity
      |eexists; split; [reflexivity | split; [cbn; lia | reflexivity]]]).
Defined.


(* ================================================================== *)
(** * The checkpoints the notebook keeps *)
(* ================================================================== *)

Import Notebook NotebookExamples.

Lemma last_item_nil {X} : last_item (@nil X) = Raise IndexError.
Proof. reflexivity. Qed.

Lemma last_item_cons {X} (x y : X) l : last_item (x :: y :: l) = last_item (y :: l).
Proof. reflexivity. Qed.

Lemma last_item_snoc {X} (l : list X) x : last_item (l ++ [x]) = Ok x.
Proof.
  induction l as [|y l IH]; [reflexivity|].
  destruct l as [|z l]; [reflexivity|].
  exact IH.
Qed.

Lemma last_item_map {X Y} (f : X -> Y) (l : list X) x :
  last_item l = Ok x -> last_item (map f l) = Ok (f x).
Proof.
  induction l as [|y l IH]; [discriminate|].
  destruct l as [|z l].
  - intros [= ->]. reflexivity.
  - intros H. change (last_item (map f (z :: l)) = Ok (f x)). apply IH. exact H.
Qed.

Lemma last_item_map_nil {X Y} (f : X -> Y) (l : list X) e :
  last_item l = Raise e -> last_item (map f l) = Raise e.
Proof.
  induction l as [|y l IH]; [intros [= <-]; reflexivity|].
  destruct l as [|z l].
  - discriminate.
  - intros H. change (last_item (map f (z :: l)) = Raise e). apply IH. exact H.
Qed.

Lemma insert_by_key_In {X} (p q : Z * X) l :
  In q (insert_by_key p l) <-> q = p \/ In q l.
Proof.
  induction l as [|r l IH]; simpl.
  - intuition.
  - destruct (fst p <=? fst r)%Z; simpl; [intuition|]. rewrite IH. intuition.
Qed.

Lemma insert_by_key_sorted {X} (p : Z * X) l :
  sorted_keys l -> sorted_keys (insert_by_key p l).
Proof.
  induction l as [|r l IH]; simpl.
  - intros _. split; [constructor | exact I].
  - intros [Hr Hl]. destruct (fst p <=? fst r)%Z eqn:E; simpl.
    + apply Z.leb_le in E. split; [|split; assumption].
      constructor; [exact E|].
      eapply List.Forall_impl; [|exact Hr]. simpl. intros; lia.
    + apply Z.leb_gt in E. split; [|auto].
      apply List.Forall_forall. intros q Hq. apply insert_by_key_In in Hq.
      destruct Hq as [->|Hq]; [lia|].
      rewrite List.Forall_forall in Hr. auto.
Qed.

Lemma stable_sort_sorted {X} (l : list (Z * X)) : sorted_keys (stable_sort l).
Proof.
  induction l as [|p l IH]; simpl; [exact I|].
  apply insert_by_key_sorted, IH.
Qed.

Lemma last_item_In {X} (l : list X) x : last_item l = Ok x -> In x l.
Proof.
  induction l as [|y l IH]; [discriminate|].
  destruct l as [|z l].
  - intros [= ->]. now left.
  - intros H. right. apply IH. exact H.
Qed.

Lemma last_item_nonempty {X} (x : X) l : exists y, last_item (x :: l) = Ok y.
Proof.
  revert x. induction l as [|z l IH]; intros x; [now exists x|].
  rewrite last_item_cons. apply IH.
Qed.

Lemma last_item_insert {X} (p : Z * X) l :
  sorted_keys l ->
  last_item (insert_by_key p l) =
  match last_item l with
  | Raise _ => Ok p
  | Ok q => if (fst q <? fst p)%Z then Ok p else Ok q
  end.
Proof.
  induction l as [|r l IH]; [reflexivity|].
  intros [Hr Hl]. cbn [insert_by_key].
  destruct (fst p <=? fst r)%Z eqn:E.
  - apply Z.leb_le in E. rewrite last_item_cons.
    destruct (last_item (r :: l)) as [q|e] eqn:Eq.
    + assert (fst r <= fst q)%Z.
      { apply last_item_In in Eq. destruct Eq as [->|Hq]; [lia|].
        rewrite List.Forall_forall in Hr. auto. }
      destruct (fst q <? fst p)%Z eqn:E'; [apply Z.ltb_lt in E'; lia | reflexivity].
    + destruct (last_item_nonempty r l) as [y Hy]. congruence.
  - apply Z.leb_gt in E. specialize (IH Hl).
    destruct l as [|s l].
    + cbn. apply Z.ltb_lt in E. now rewrite E.
    + rewrite last_item_cons.
      assert (Hne : exists a b, insert_by_key p (s :: l) = a :: b).
      { cbn. destruct (fst p <=? fst s)%Z; eauto. }
      destruct Hne as (a & b & Hab). rewrite Hab, last_item_cons, <- Hab.
      exact IH.
Qed.

Lemma last_stable_sort {X} (l : list (Z * X)) :
  last_item (stable_sort l)
  = match last_max l with Some q => Ok q | None => Raise IndexError end.
Proof.
  induction l as [|p l IH]; [reflexivity|].
  cbn [stable_sort fold_right last_max]. fold (stable_sort l).
  rewrite last_item_insert by apply stable_sort_sorted.
  rewrite IH.
  destruct (last_max l) as [q|]; [|reflexivity].
  now destruct (fst q <? fst p)%Z.
Qed.

Lemma last_max_split {X} (l : list (Z * X)) q :
  last_max l = Some q ->
  exists l1 l2, l = l1 ++ q :: l2 /\
    List.Forall (fun p => (fst p <= fst q)%Z) l1 /\
    List.Forall (fun p => (fst p < fst q)%Z) l2.
Proof.
  revert q. induction l as [|p l IH]; [discriminate|].
  intros q. cbn [last_max].
  destruct (last_max l) as [r|] eqn:Er.
  - destruct (IH r eq_refl) as (l1 & l2 & -> & H1 & H2).
    destruct (fst r <? fst p)%Z eqn:E; intros [= <-].
    + apply Z.ltb_lt in E. exists [], (l1 ++ r :: l2). split; [reflexivity|].
      split; [constructor|].
      apply List.Forall_app. split.
      * eapply List.Forall_impl; [|exact H1]. simpl; intros; lia.
      * constructor; [exact E|]. eapply List.Forall_impl; [|exact H2]. simpl; intros; lia.
    + apply Z.ltb_ge in E. exists (p :: l1), l2. split; [reflexivity|].
      split; [constructor; assumption | assumption].
  - intros [= <-]. destruct l as [|s l].
    + exists [], []. repeat split; constructor.
    + cbn in Er. destruct (last_max l) as [t|]; [destruct (fst t <? fst s)%Z|]; discriminate.
Qed.

Lemma last_max_In {X} (l : list (Z * X)) q : last_max l = Some q -> In q l.
Proof.
  intros H. destruct (last_max_split _ _ H) as (l1 & l2 & -> & _).
  apply in_elt.
Qed.

Lemma last_max_unique {X} (l1 l2 : list (Z * X)) q :
  List.Forall (fun p => (fst p <= fst q)%Z) l1 ->
  List.Forall (fun p => (fst p < fst q)%Z) l2 ->
  last_max (l1 ++ q :: l2) = Some q.
Proof.
  intros H1 H2. induction H1 as [|p l1 Hp H1 IH].
  - cbn. destruct (last_max l2) as [r|] eqn:Er; [|reflexivity].
    apply last_max_In in Er. rewrite List.Forall_forall in H2.
    apply H2 in Er. apply Z.ltb_lt in Er. now rewrite Er.
  - cbn [app last_max]. rewrite IH.
    destruct (fst q <? fst p)%Z eqn:E; [apply Z.ltb_lt in E; lia | reflexivity].
Qed.

Lemma decorate_ok {X} (key : X -> result Z) (number : X -> Z) xs :
  (forall x, In x xs -> key x = Ok (number x)) ->
  decorate key xs = Ok (map (fun x => (number x, x)) xs).
Proof.
  induction xs as [|x xs IH]; [reflexivity|].
  intros H. cbn. rewrite (H x) by now left.
  rewrite IH by (intros; apply H; now right). reflexivity.
Qed.

Lemma decorate_raise {X} (key : X -> result Z) (number : X -> Z) l1 x l2 e :
  (forall y, In y l1 -> key y = Ok (number y)) ->
  key x = Raise e ->
  decorate key (l1 ++ x :: l2) = Raise e.
Proof.
  intros H Hx. induction l1 as [|y l1 IH]; cbn.
  - now rewrite Hx.
  - rewrite (H y) by now left. rewrite IH by (intros; apply H; now right). reflexivity.
Qed.

Section Newest.
Variable int : string -> result Z.
Variable number : string -> Z.

Lemma newest_checkpoint_last_max names :
  (forall x, In x (candidates names) -> checkpoint_key int x = Ok (number x)) ->
  newest_checkpoint int names
  = match last_max (map (fun x => (number x, x)) (candidates names)) with
    | Some q => Ok (snd q)
    | None => Raise IndexError
    end.
Proof.
  intros Hkey. unfold newest_checkpoint, sorted.
  rewrite (decorate_ok _ number) by exact Hkey.
  pose proof (last_stable_sort (map (fun x => (number x, x)) (candidates names))) as H.
  destruct (last_max _) as [q|].
  - now apply last_item_map.
  - now apply last_item_map_nil.
Qed.

Lemma map_split_numbered (l : list string) l1 q l2 :
  map (fun x => (number x, x)) l = l1 ++ q :: l2 ->
  exists m1 m2, l = m1 ++ snd q :: m2 /\ fst q = number (snd q)
    /\ l1 = map (fun x => (number x, x)) m1 /\ l2 = map (fun x => (number x, x)) m2.
Proof.
  intros H. apply map_eq_app in H. destruct H as (m1 & m2' & -> & <- & H).
  destruct m2' as [|c m2]; [discriminate|]. cbn in H. injection H as <- <-.
  exists m1, m2. repeat split.
Qed.

(** X10.  What [sorted(..., key=...)[-1]] picks.  When every name that
    contains 'xc.eqx' ends in a number that [int] reads, the checkpoint
    picked is [c] exactly when [c] is one of the names that contain
    'xc.eqx', no such name listed before it has a larger number, and
    every such name listed after it has a smaller one.  So the largest
    number wins, by value and not by spelling, and of two names with the
    same number the one listed last. *)
Theorem newest_checkpoint_last_maximum names c :
  (forall x, In x names -> contains "xc.eqx" x = true ->
             checkpoint_key int x = Ok (number x)) ->
  newest_checkpoint int names = Ok c
  <-> exists earlier later,
        candidates names = earlier ++ c :: later
        /\ List.Forall (fun x => (number x <= number c)%Z) earlier
        /\ List.Forall (fun x => (number x < number c)%Z) later.
Proof.
  intros Hkey.
  rewrite newest_checkpoint_last_max
    by (intros x Hx; apply filter_In in Hx; destruct Hx; auto).
  split.
  - destruct (last_max _) as [q|] eqn:E; [|discriminate].
    intros [= <-]. apply last_max_split in E.
    destruct E as (l1 & l2 & E & H1 & H2).
    apply map_split_numbered in E. destruct E as (m1 & m2 & -> & Hq & -> & ->).
    exists m1, m2. split; [reflexivity|]. rewrite Hq in H1, H2.
    rewrite List.Forall_map in H1, H2. split; assumption.
  - intros (m1 & m2 & -> & H1 & H2).
    rewrite map_app. cbn [map].
    rewrite last_max_unique; [reflexivity | |]; rewrite List.Forall_map; assumption.
Qed.

(** X11.  When every name that contains 'xc.eqx' ends in a number that
    [int] reads, a listing with at least one such name always gives a
    checkpoint: a name of the listing that contains 'xc.eqx' and whose
    number no other such name exceeds. *)
Theorem newest_checkpoint_found names :
  (forall x, In x names -> contains "xc.eqx" x = true ->
             checkpoint_key int x = Ok (number x)) ->
  (exists x, In x names /\ contains "xc.eqx" x = true) ->
  exists c, newest_checkpoint int names = Ok c
    /\ In c names /\ contains "xc.eqx" c = true
    /\ forall x, In x names -> contains "xc.eqx" x = true ->
                 (number x <= number c)%Z.
Proof.
  intros Hkey (x0 & Hin0 & Hc0).
  rewrite newest_checkpoint_last_max
    by (intros x Hx; apply filter_In in Hx; destruct Hx; auto).
  destruct (last_max _) as [q|] eqn:E.
  - apply last_max_split in E. destruct E as (l1 & l2 & E & H1 & H2).
    apply map_split_numbered in E. destruct E as (m1 & m2 & E & Hq & -> & ->).
    exists (snd q). split; [reflexivity|].
    assert (Hq' : In (snd q) (candidates names)) by (rewrite E; apply in_elt).
    apply filter_In in Hq'. destruct Hq' as [Hqn Hqc]. repeat split; try assumption.
    intros x Hx Hcx.
    assert (Hx' : In x (candidates names)) by (apply filter_In; auto).
    rewrite E in Hx'. rewrite Hq in H1, H2. rewrite List.Forall_map in H1, H2.
    rewrite List.Forall_forall in H1, H2.
    apply in_app_or in Hx'. destruct Hx' as [Hx'|[<-|Hx']].
    + now apply H1.
    + apply Z.le_refl.
    + apply Z.lt_le_incl. now apply H2.
  - exfalso.
    assert (Hx' : In x0 (candidates names)) by (apply filter_In; auto).
    destruct (candidates names) as [|y l]; [contradiction|].
    cbn in E. destruct (last_max _) as [r|]; [destruct (_ <? _)%Z|]; discriminate.
Qed.

Lemma newest_checkpoint_none names :
  (forall x, In x names -> contains "xc.eqx" x = false) ->
  newest_checkpoint int names = Raise IndexError.
Proof.
  intros H. unfold newest_checkpoint.
  assert (E : candidates names = []).
  { unfold candidates. induction names as [|x l IH]; [reflexivity|].
    cbn. rewrite (H x) by now left. apply IH. intros; apply H; now right. }
  rewrite E. reflexivity.
Qed.

(** X12.  One name that contains 'xc.eqx' without ending in a number is
    enough to fail: the picking raises what [int] raises on the first
    such name in listing order, whatever the names after it are. *)
Theorem newest_checkpoint_bad_number names earlier x later e :
  candidates names = earlier ++ x :: later ->
  (forall y, In y earlier -> checkpoint_key int y = Ok (number y)) ->
  checkpoint_key int x = Raise e ->
  newest_checkpoint int names = Raise e.
Proof.
  intros E H Hx. unfold newest_checkpoint, sorted.
  rewrite E, (decorate_raise _ number earlier x later e H Hx). reflexivity.
Qed.

(** X13.  The number of the checkpoint picked depends neither on the
    order of the listing nor on the names that do not contain 'xc.eqx'
    (the copy [xc] among them): two listings whose names containing
    'xc.eqx' are the same up to order give checkpoints with the same
    number, and the same checkpoint when no two of those names share a
    number. *)
Theorem newest_checkpoint_listing_order names names' c :
  (forall x, In x names -> contains "xc.eqx" x = true ->
             checkpoint_key int x = Ok (number x)) ->
  Permutation (candidates names) (candidates names') ->
  newest_checkpoint int names = Ok c ->
  exists c', newest_checkpoint int names' = Ok c'
    /\ number c' = number c
    /\ ((forall x y, In x (candidates names) -> In y (candidates names) ->
                     number x = number y -> x = y) -> c' = c).
Proof.
  intros Hkey Hperm Hc.
  assert (Hkey1 : forall x, In x (candidates names) -> checkpoint_key int x = Ok (number x))
    by (intros x Hx; apply filter_In in Hx; destruct Hx; auto).
  assert (Hkey2 : forall x, In x (candidates names') -> checkpoint_key int x = Ok (number x)).
  { intros x Hx. apply Hkey1. eapply Permutation_in; [symmetry; exact Hperm | exact Hx]. }
  rewrite newest_checkpoint_last_max in Hc by exact Hkey1.
  rewrite newest_checkpoint_last_max by exact Hkey2.
  destruct (last_max (map _ (candidates names))) as [q|] eqn:E; [|discriminate].
  injection Hc as <-.
  apply last_max_split in E. destruct E as (l1 & l2 & E & H1 & H2).
  apply map_split_numbered in E. destruct E as (m1 & m2 & E & Hq & -> & ->).
  rewrite Hq in H1, H2. rewrite List.Forall_map in H1, H2.
  rewrite List.Forall_forall in H1, H2.
  assert (Hmax : forall x, In x (candidates names) -> (number x <= number (snd q))%Z).
  { intros x Hx. rewrite E in Hx. apply in_app_or in Hx.
    destruct Hx as [Hx|[<-|Hx]];
      [now apply H1 | apply Z.le_refl | apply Z.lt_le_incl; now apply H2]. }
  assert (Hq1 : In (snd q) (candidates names)) by (rewrite E; apply in_elt).
  destruct (last_max (map _ (candidates names'))) as [r|] eqn:E'.
  - apply last_max_split in E'. destruct E' as (k1 & k2 & E' & K1 & K2).
    apply map_split_numbered in E'. destruct E' as (n1 & n2 & E' & Hr & -> & ->).
    rewrite Hr in K1, K2. rewrite List.Forall_map in K1, K2.
    rewrite List.Forall_forall in K1, K2.
    assert (Hr2 : In (snd r) (candidates names')) by (rewrite E'; apply in_elt).
    assert (Hr1 : In (snd r) (candidates names))
      by (eapply Permutation_in; [symmetry; exact Hperm | exact Hr2]).
    assert (Hq2 : In (snd q) (candidates names'))
      by (eapply Permutation_in; [exact Hperm | exact Hq1]).
    assert (Hle : (number (snd q) <= number (snd r))%Z).
    { rewrite E' in Hq2. apply in_app_or in Hq2.
      destruct Hq2 as [Hx|[<-|Hx]];
        [now apply K1 | apply Z.le_refl | apply Z.lt_le_incl; now apply K2]. }
    pose proof (Hmax _ Hr1) as Hge.
    exists (snd r). split; [reflexivity|]. split; [now apply Z.le_antisymm|].
    intros Hinj. apply Hinj; [assumption..|now apply Z.le_antisymm].
  - exfalso.
    assert (Hq2 : In (snd q) (candidates names'))
      by (eapply Permutation_in; [exact Hperm | exact Hq1]).
    destruct (candidates names') as [|y l]; [contradiction|].
    cbn in E'. destruct (last_max _) as [t|]; [destruct (_ <? _)%Z|]; discriminate.
Qed.

End Newest.

Lemma split_on_nonempty sep s : exists w ws, split_on sep s = w :: ws.
Proof.
  destruct s as [|c s]; cbn; [eauto|].
  destruct (Ascii.eqb c sep); [eauto|].
  destruct (split_on sep s); eauto.
Qed.

Lemma split_on_app sep s1 s2 :
  split_on sep (s1 ++ String sep s2) = split_on sep s1 ++ split_on sep s2.
Proof.
  induction s1 as [|c s1 IH]; cbn.
  - now rewrite Ascii.eqb_refl.
  - rewrite IH. destruct (Ascii.eqb c sep); [reflexivity|].
    destruct (split_on_nonempty sep s1) as (w & ws & ->). reflexivity.
Qed.

Lemma split_on_no_sep sep s :
  contains (String sep EmptyString) s = false -> split_on sep s = [s].
Proof.
  induction s as [|c s IH]; [reflexivity|].
  cbn [contains split_on String.prefix]. intros H.
  apply orb_false_iff in H. destruct H as [Hp Hc].
  destruct (Ascii.eqb_spec c sep) as [->|Hne].
  - destruct (ascii_dec sep sep); [destruct s; discriminate | congruence].
  - now rewrite IH.
Qed.

Lemma for_each_ok {X} (xs : list X) (body : X -> M (list event) unit)
    (produced : X -> list event) out :
  (forall x out', In x xs -> body x out' = (Ok tt, out' ++ produced x)) ->
  for_each xs body out = (Ok tt, out ++ flat_map produced xs).
Proof.
  revert out. induction xs as [|x xs IH]; intros out H; cbn [for_each flat_map].
  - unfold ret. now rewrite app_nil_r.
  - unfold bind. rewrite H by now left.
    rewrite IH by (intros; apply H; now right). now rewrite app_assoc.
Qed.

Lemma for_each_flat_map {S X Y} (f : X -> list Y) (xs : list X)
    (body : Y -> M S unit) (s : S) :
  for_each xs (fun x => for_each (f x) body) s = for_each (flat_map f xs) body s.
Proof.
  revert s. induction xs as [|x xs IH]; intros s; [reflexivity|].
  cbn [for_each flat_map]. rewrite for_each_app. unfold bind.
  destruct (for_each (f x) body s) as [[[]|e] s1]; [apply IH | reflexivity].
Qed.

Lemma for_each_map {S X Y} (f : X -> Y) (xs : list X) (body : Y -> M S unit) (s : S) :
  for_each (map f xs) body s = for_each xs (fun x => body (f x)) s.
Proof.
  revert s. induction xs as [|x xs IH]; intros s; [reflexivity|].
  cbn [for_each map]. unfold bind.
  destruct (body (f x) s) as [[[]|e] s1]; [apply IH | reflexivity].
Qed.

Lemma for_each_ext {S X} (xs : list X) (f g : X -> M S unit) (s : S) :
  (forall x s', f x s' = g x s') -> for_each xs f s = for_each xs g s.
Proof.
  intros H. revert s. induction xs as [|x xs IH]; intros s; [reflexivity|].
  cbn [for_each]. unfold bind. rewrite H.
  destruct (g x s) as [[[]|e] s1]; [apply IH | reflexivity].
Qed.

Section Cells.
Variable fs : filesystem.
Variable topd : string.

Lemma filter_const {X} (b : bool) (l : list X) :
  List.filter (fun _ => b) l = if b then l else [].
Proof.
  induction l as [|x l IH]; cbn; [now destruct b|].
  rewrite IH. now destruct b.
Qed.

Lemma dict_set_fresh {V} k (v : V) d :
  ~ In k (map fst d) -> dict_set k v d = d ++ [(k, v)].
Proof.
  induction d as [|[k' v'] d IH]; cbn; [reflexivity|].
  intros H. destruct (String.eqb_spec k k') as [->|Hne]; [tauto|].
  rewrite IH by tauto. reflexivity.
Qed.

Lemma build_ddct_from (names : string -> list string) xcs d :
  NoDup (map fst d ++ xcs) ->
  (forall xc, In xc xcs -> listdir fs (join topd [xc]) = Ok (names xc)) ->
  build_ddct fs topd xcs d
  = Ok (d ++ map (fun xc => (xc, if isdir fs (join topd [xc]) then names xc else []))
               xcs).
Proof.
  revert d. induction xcs as [|xc xcs IH]; intros d Hnd Hl; cbn [build_ddct map].
  - now rewrite app_nil_r.
  - unfold model_dirs. rewrite (Hl xc) by now left. rewrite filter_const.
    assert (Hfresh : ~ In xc (map fst d)).
    { intros Hin. apply NoDup_app in Hnd. destruct Hnd as (_ & Hdis & _).
      apply (Hdis xc); [now apply list_elem_of_In | left]. }
    rewrite dict_set_fresh by exact Hfresh.
    rewrite IH.
    + now rewrite <- app_assoc.
    + rewrite map_app. cbn [map fst]. rewrite <- app_assoc. exact Hnd.
    + intros; apply Hl; now right.
Qed.

(** X14.  The [isdir] test of the first cell looks at the class directory,
    not at the entry.  For distinct classes whose directories can be
    listed, [ddct] maps every class to its whole listing when the class
    directory is a directory, and to the empty list otherwise: an entry
    that is a plain file is kept. *)
Theorem build_ddct_keeps_every_entry (names : string -> list string) xcs :
  NoDup xcs ->
  (forall xc, In xc xcs -> listdir fs (join topd [xc]) = Ok (names xc)) ->
  build_ddct fs topd xcs []
  = Ok (map (fun xc => (xc, if isdir fs (join topd [xc]) then names xc else [])) xcs).
Proof.
  intros Hnd Hl. now rewrite (build_ddct_from names).
Qed.

Variable int : string -> result Z.

Lemma keep_newest_run k subd out :
  keep_newest fs int topd k subd out
  = match checkpoint_in fs int topd k subd with
    | Ok chk => (Ok tt, out ++ kept topd k subd chk)
    | Raise e => (Raise e, out)
    end.
Proof.
  unfold keep_newest, checkpoint_in, bind, lift_result, emit, modify, kept.
  destruct (listdir fs _) as [names|e]; [|reflexivity].
  destruct (newest_checkpoint int names) as [chk|e]; [|reflexivity].
  now rewrite <- app_assoc.
Qed.

Lemma keep_all_dirs ddct out :
  keep_all fs int topd ddct out
  = for_each (dirs_of ddct) (fun d => keep_newest fs int topd (fst d) (snd d)) out.
Proof.
  unfold keep_all, dirs_of. rewrite <- for_each_flat_map.
  apply for_each_ext. intros kv s'. now rewrite for_each_map.
Qed.

Lemma keep_all_ok ddct (chk : string -> string -> string) out :
  (forall d, In d (dirs_of ddct) ->
     checkpoint_in fs int topd (fst d) (snd d) = Ok (chk (fst d) (snd d))) ->
  keep_all fs int topd ddct out
  = (Ok tt, out ++ flat_map (fun d => kept topd (fst d) (snd d) (chk (fst d) (snd d)))
                            (dirs_of ddct)).
Proof.
  intros H. rewrite keep_all_dirs. apply for_each_ok.
  intros d out' Hd. rewrite keep_newest_run, (H d Hd). reflexivity.
Qed.

(** X15.  The loop does not skip a model directory it cannot handle.  At
    the first directory that cannot be listed, or in which no checkpoint
    can be picked, it raises that error: the lines and copy commands of
    the directories before it are out, and there is none for the
    directories after it. *)
Theorem keep_all_stops_at_first_failure ddct done k subd rest e
    (chk : string -> string -> string) out :
  dirs_of ddct = done ++ (k, subd) :: rest ->
  (forall d, In d done ->
     checkpoint_in fs int topd (fst d) (snd d) = Ok (chk (fst d) (snd d))) ->
  checkpoint_in fs int topd k subd = Raise e ->
  keep_all fs int topd ddct out
  = (Raise e, out ++ flat_map (fun d => kept topd (fst d) (snd d) (chk (fst d) (snd d)))
                              done).
Proof.
  intros E Hdone Hfail. rewrite keep_all_dirs, E, for_each_app.
  rewrite (for_each_ok done _
             (fun d => kept topd (fst d) (snd d) (chk (fst d) (snd d))))
    by (intros d out' Hd; rewrite keep_newest_run, (Hdone d Hd); reflexivity).
  cbn [for_each]. unfold bind. rewrite keep_newest_run. cbn [fst snd].
  now rewrite Hfail.
Qed.

(** X16.  A model directory in which no name contains 'xc.eqx' ends the
    loop body with [IndexError] (from [xcchkpts[-1]]): nothing is printed
    for it and no copy command is issued. *)
Theorem keep_newest_without_checkpoint k subd names out :
  listdir fs (join topd [k; subd]) = Ok names ->
  (forall x, In x names -> contains "xc.eqx" x = false) ->
  keep_newest fs int topd k subd out = (Raise IndexError, out).
Proof.
  intros Hl Hnone. rewrite keep_newest_run. unfold checkpoint_in.
  now rewrite Hl, newest_checkpoint_none.
Qed.

(** X17.  The two cells together.  When the model classes are distinct,
    each class directory is a directory that can be listed, and in every
    entry of each a checkpoint can be picked, the cells return, having
    printed one line and issued one command per entry, class by class in
    the order of [xcs] and entry by entry in listing order:
    [cp topd/xc/subd/<picked> topd/xc/subd/xc]. *)
Theorem run_copies_each_newest (names : string -> list string)
    (chk : string -> string -> string) xcs out :
  NoDup xcs ->
  (forall xc, In xc xcs ->
     listdir fs (join topd [xc]) = Ok (names xc)
     /\ isdir fs (join topd [xc]) = true) ->
  (forall xc subd, In xc xcs -> In subd (names xc) ->
     checkpoint_in fs int topd xc subd = Ok (chk xc subd)) ->
  run fs int topd xcs out
  = (Ok tt,
     out ++ flat_map (fun xc => flat_map (fun subd => kept topd xc subd (chk xc subd))
                                         (names xc)) xcs).
Proof.
  intros Hnd Hl Hchk. unfold run, bind, lift_result.
  rewrite (build_ddct_from names) by (try exact Hnd; intros; now apply Hl).
  cbn [app].
  assert (E : map (fun xc => (xc, if isdir fs (join topd [xc]) then names xc else [])) xcs
              = map (fun xc => (xc, names xc)) xcs).
  { apply map_ext_in. intros xc Hxc. destruct (Hl xc Hxc) as [_ ->]. reflexivity. }
  rewrite E. rewrite (keep_all_ok _ chk).
  - f_equal. f_equal. unfold dirs_of. clear.
    induction xcs as [|xc xcs IH]; [reflexivity|].
    cbn [map flat_map fst snd]. rewrite flat_map_app, IH. f_equal.
    induction (names xc) as [|s l IHl]; [reflexivity|].
    cbn [map flat_map fst snd]. now rewrite IHl.
  - intros [k subd] Hd. cbn [fst snd]. unfold dirs_of in Hd.
    apply in_flat_map in Hd. destruct Hd as ([k' v] & Hkv & Hd).
    apply in_map_iff in Hkv. destruct Hkv as (xc & [= <- <-] & Hxc).
    cbn [fst snd] in Hd. apply in_map_iff in Hd. destruct Hd as (s & [= <- <-] & Hs).
    now apply Hchk.
Qed.

End Cells.

(** X18.  The sort key of a name is [int] of what follows its last dot:
    of [d] for the name [stem.d] when [d] has no dot, whatever [stem] is,
    and of the whole name when it has no dot at all. *)
Theorem checkpoint_key_after_last_dot (int : string -> result Z) (stem d : string) :
  contains "." d = false ->
  checkpoint_key int (stem ++ "." ++ d) = int d
  /\ checkpoint_key int d = int d.
Proof.
  intros H. unfold checkpoint_key. split.
  - change (stem ++ "." ++ d)%string with (stem ++ String "."%char d)%string.
    rewrite split_on_app, (split_on_no_sep _ d H), last_item_snoc. reflexivity.
  - rewrite (split_on_no_sep _ d H). reflexivity.
Qed.

Lemma string_app_assoc (a b c : string) : ((a ++ b) ++ c = a ++ (b ++ c))%string.
Proof. induction a as [|x a IH]; cbn; [reflexivity | now rewrite IH]. Qed.

Lemma string_app_cancel (a b c : string) : (a ++ b = a ++ c)%string -> b = c.
Proof. induction a as [|x a IH]; cbn; [trivial | intros [= E]; auto]. Qed.

Lemma prefix_app (a b : string) : String.prefix a (a ++ b) = true.
Proof.
  induction a as [|x a IH]; cbn; [now destruct b|].
  destruct (ascii_dec x x); [exact IH | congruence].
Qed.

(** What [os.path.join] puts between two components. *)
Lemma join2_relative (path b : string) :
  String.prefix "/" b = false ->
  exists sep, join2 path b = (path ++ sep ++ b)%string.
Proof.
  intros Hb. unfold join2. rewrite Hb.
  destruct (String.eqb path EmptyString || ends_with_slash path).
  - now exists EmptyString.
  - now exists "/"%string.
Qed.

(** X19.  The commands stay inside the model directory and never copy a
    file onto itself.  For a class, an entry and a checkpoint name that
    are relative (no leading '/', as every name [os.listdir] returns),
    the model directory lies under [topd], the source and the target of
    the copy lie under the model directory, and, the checkpoint
    containing 'xc.eqx', the target [xc] is another path than the
    source.  These are the paths of the command the loop body issues:
    whenever a checkpoint [chk] is picked in the model directory, the
    body prints its line and hands [cp fp cpf] to the shell. *)
Theorem copy_stays_in_model_directory (topd k subd chk : string) :
  String.prefix "/" k = false ->
  String.prefix "/" subd = false ->
  String.prefix "/" chk = false ->
  contains "xc.eqx" chk = true ->
  let direc := join topd [k; subd] in
  String.prefix topd direc = true
  /\ String.prefix direc (join direc [chk]) = true
  /\ String.prefix direc (join direc ["xc"%string]) = true
  /\ join direc [chk] <> join direc ["xc"%string]
  /\ forall (fs : filesystem) (int : string -> result Z) (out : list event),
       checkpoint_in fs int topd k subd = Ok chk ->
       keep_newest fs int topd k subd out
       = (Ok tt,
          out ++ [Printed k subd chk;
                  System ("cp " ++ join direc [chk] ++ " "
                            ++ join direc ["xc"%string])%string]).
Proof.
  intros Hk Hsubd Hchk Hcand. cbn zeta.
  split; [|split; [|split; [|split]]].
  5: { intros fs int out Hpick. now rewrite keep_newest_run, Hpick. }
  all: unfold join; cbn [fold_left];
    destruct (join2_relative topd k Hk) as (s1 & E1);
    destruct (join2_relative (join2 topd k) subd Hsubd) as (s2 & E2);
    destruct (join2_relative (join2 (join2 topd k) subd) chk Hchk) as (s3 & E3);
    destruct (join2_relative (join2 (join2 topd k) subd) "xc" eq_refl) as (s4 & E4).
  - rewrite E2, E1, !string_app_assoc. apply prefix_app.
  - rewrite E3. apply prefix_app.
  - rewrite E4. apply prefix_app.
  - intros E. unfold join2 in E. rewrite Hchk in E. cbn [String.prefix] in E.
    destruct (String.eqb _ EmptyString || ends_with_slash _).
    + apply string_app_cancel in E. subst chk. discriminate Hcand.
    + apply string_app_cancel in E. injection E as E. subst chk. discriminate Hcand.
Qed.

(** X20.  A class directory that cannot be listed fails the first cell as
    a whole: whatever the classes before it gave, [ddct] is not built,
    and the two cells together print nothing and issue no command. *)
Theorem missing_class_directory_fails_before_any_copy (fs : filesystem)
    (int : string -> result Z) (topd : string) (names : string -> list string)
    (done : list string) (xc : string) (rest : list string) (e : exn)
    (out : list event) :
  (forall x, In x done -> listdir fs (join topd [x]) = Ok (names x)) ->
  listdir fs (join topd [xc]) = Raise e ->
  build_ddct fs topd (done ++ xc :: rest) [] = Raise e
  /\ run fs int topd (done ++ xc :: rest) out = (Raise e, out).
Proof.
  intros Hdone Hxc.
  assert (Hb : forall d, build_ddct fs topd (done ++ xc :: rest) d = Raise e).
  { induction done as [|x done IH]; intros d; cbn [app build_ddct]; unfold model_dirs.
    - now rewrite Hxc.
    - rewrite (Hdone x) by now left. apply IH. intros; apply Hdone; now right. }
  split; [apply Hb|]. unfold run, bind, lift_result. now rewrite Hb.
Qed.

(** ** The theorems at work on a directory of checkpoints *)

Lemma newest_checkpoint_last_maximum_witness :
  newest_checkpoint int_of_digits listing = Ok "xc.eqx.25"%string.
Proof.
  apply (newest_checkpoint_last_maximum int_of_digits number_of listing "xc.eqx.25").
  - intros x Hx Hc. cbn in Hx.
    destruct Hx as [<-|[<-|[<-|[<-|[<-|[]]]]]]; first [reflexivity | discriminate Hc].
  - exists ["xc.eqx.5"%string], ["xc.eqx.10"%string].
    split; [reflexivity|].
    split; (constructor; [vm_compute; congruence | constructor]).
Defined.

Lemma newest_checkpoint_found_witness :
  exists c, newest_checkpoint int_of_digits listing = Ok c
    /\ In c listing /\ contains "xc.eqx" c = true
    /\ forall x, In x listing -> contains "xc.eqx" x = true ->
                 (number_of x <= number_of c)%Z.
Proof.
  apply (newest_checkpoint_found int_of_digits number_of listing).
  - intros x Hx Hc. cbn in Hx.
    destruct Hx as [<-|[<-|[<-|[<-|[<-|[]]]]]]; first [reflexivity | discriminate Hc].
  - exists "xc.eqx.5"%string. split; [now left | reflexivity].
Defined.

Lemma keep_newest_without_checkpoint_witness :
  keep_newest disk int_of_digits topd "b3lyp" "fresh_run" []
  = (Raise IndexError, []).
Proof.
  apply (keep_newest_without_checkpoint disk topd int_of_digits "b3lyp" "fresh_run"
           ["log.txt"; "xc"]%string []).
  - reflexivity.
  - intros x Hx. cbn in Hx. destruct Hx as [<-|[<-|[]]]; reflexivity.
Defined.

Lemma newest_checkpoint_bad_number_witness :
  newest_checkpoint int_of_digits listing_unnumbered = Raise ValueError.
Proof.
  apply (newest_checkpoint_bad_number int_of_digits number_of listing_unnumbered
           ["xc.eqx.5"%string] "xc.eqx" ["xc.eqx.oops"%string] ValueError).
  - reflexivity.
  - intros y Hy. cbn in Hy. destruct Hy as [<-|[]]. reflexivity.
  - reflexivity.
Defined.

Lemma newest_checkpoint_listing_order_witness :
  exists c', newest_checkpoint int_of_digits listing' = Ok c'
    /\ number_of c' = number_of "xc.eqx.25"
    /\ ((forall x y, In x (candidates listing) -> In y (candidates listing) ->
                     number_of x = number_of y -> x = y) -> c' = "xc.eqx.25"%string).
Proof.
  apply (newest_checkpoint_listing_order int_of_digits number_of listing listing'
           "xc.eqx.25").
  - intros x Hx Hc. cbn in Hx.
    destruct Hx as [<-|[<-|[<-|[<-|[<-|[]]]]]]; first [reflexivity | discriminate Hc].
  - change (Permutation ["xc.eqx.5"; "xc.eqx.25"; "xc.eqx.10"]%string
                        ("xc.eqx.10"%string :: ["xc.eqx.5"; "xc.eqx.25"]%string)).
    symmetry. apply (Permutation_cons_append ["xc.eqx.5"; "xc.eqx.25"]%string).
  - reflexivity.
Defined.

Lemma checkpoint_key_after_last_dot_witness :
  checkpoint_key int_of_digits "xc.eqx.1440" = Ok 1440%Z
  /\ checkpoint_key int_of_digits "1440" = Ok 1440%Z.
Proof.
  apply (checkpoint_key_after_last_dot int_of_digits "xc.eqx" "1440").
  reflexivity.
Defined.

Lemma run_copies_each_newest_witness :
  run disk int_of_digits topd ["scan"]%string []
  = (Ok tt, kept topd "scan" "c_3_16_mgga" "xc.eqx.25").
Proof.
  apply (run_copies_each_newest disk topd int_of_digits disk_names
           (fun _ _ => "xc.eqx.25"%string) ["scan"]%string []).
  - constructor; [rewrite list_elem_of_In; intros [] | constructor].
  - intros xc Hxc. cbn in Hxc. destruct Hxc as [<-|[]]. split; reflexivity.
  - intros xc subd Hxc. cbn in Hxc. destruct Hxc as [<-|[]].
    intros Hs. cbn in Hs. destruct Hs as [<-|[]]. reflexivity.
Defined.

Lemma keep_all_stops_at_first_failure_witness :
  keep_all disk int_of_digits topd
    [("pbe0", ["x_3_16_mgga"; "notes.txt"]); ("scan", ["c_3_16_mgga"])]%string []
  = (Raise (OtherError "NotADirectoryError"),
     kept topd "pbe0" "x_3_16_mgga" "xc.eqx.25").
Proof.
  apply (keep_all_stops_at_first_failure disk topd int_of_digits
           [("pbe0", ["x_3_16_mgga"; "notes.txt"]); ("scan", ["c_3_16_mgga"])]%string
           [("pbe0", "x_3_16_mgga")]%string "pbe0" "notes.txt"
           [("scan", "c_3_16_mgga")]%string
           (OtherError "NotADirectoryError") (fun _ _ => "xc.eqx.25"%string) []).
  - reflexivity.
  - intros d Hd. cbn in Hd. destruct Hd as [<-|[]]. reflexivity.
  - reflexivity.
Defined.

Lemma build_ddct_keeps_every_entry_witness :
  build_ddct disk topd ["pbe0"; "scan"]%string []
  = Ok [("pbe0", ["x_3_16_mgga"; "notes.txt"]); ("scan", ["c_3_16_mgga"])]%string.
Proof.
  apply (build_ddct_keeps_every_entry disk topd disk_names ["pbe0"; "scan"]%string).
  - constructor; [rewrite list_elem_of_In; cbn; intros [H|[]]; discriminate H|].
    constructor; [rewrite list_elem_of_In; intros [] | constructor].
  - intros xc Hxc. cbn in Hxc. destruct Hxc as [<-|[<-|[]]]; reflexivity.
Defined.

Lemma copy_stays_in_model_directory_witness :
  let direc := join topd ["pbe0"; "x_3_16_mgga"]%string in
  String.prefix topd direc = true
  /\ String.prefix direc (join direc ["xc.eqx.25"%string]) = true
  /\ String.prefix direc (join direc ["xc"%string]) = true
  /\ join direc ["xc.eqx.25"%string] <> join direc ["xc"%string].
Proof.
  destruct (copy_stays_in_model_directory topd "pbe0" "x_3_16_mgga" "xc.eqx.25")
    as (Htop & Hfp & Hcpf & Hne & _); [reflexivity..|].
  split; [exact Htop|]. split; [exact Hfp|]. split; [exact Hcpf | exact Hne].
Defined.

Lemma missing_class_directory_fails_before_any_copy_witness :
  build_ddct disk topd ["scan"; "lda"; "pbe0"]%string [] = missing
  /\ run disk int_of_digits topd ["scan"; "lda"; "pbe0"]%string [] = (missing, []).
Proof.
  apply (missing_class_directory_fails_before_any_copy disk int_of_digits topd disk_names
           ["scan"%string] "lda" ["pbe0"%string] (OtherError "FileNotFoundError") []).
  - intros x Hx. cbn in Hx. destruct Hx as [<-|[]]. reflexivity.
  - reflexivity.
Defined.
